(** * Grouped SIMD elastic hash table: a shallow embedding and its properties

    The development follows [grouped_simd_elastic.hpp].  The container is a
    record of the class members; [insert], [find], [contains] and
    [operator[]] are functions on that record.  Machine integers are [Z];
    the only arithmetic that can wrap in the source, the 64-bit sum
    [h + GROUP_SIZE * group_idx], has its reduction modulo [2^64] written
    out.  A [__m128i] register is a list of sixteen byte lanes and the SSE2
    intrinsics are functions on such lists; bit masks are [Z] and are
    iterated with count-trailing-zeros and [mask & (mask - 1)] as in the
    source.

    The [double] parameter [delta] is a 64-bit pattern read as IEEE 754
    binary64.  The constructor's two floating-point expressions,
    [delta * capacity] and [C * std::log2(1.0 / delta)], are evaluated in
    double precision: every product and quotient is rounded to nearest, ties
    to even, and the conversions to [size_t] truncate.  [std::log2] is not
    part of the source; it is a parameter ([MathLib]), and the concrete
    containers use a logarithm computed to 112 fraction bits and rounded.
    The test [load > 0.8] of [insert] is evaluated in double precision as
    well; the accessor [load_factor()] is kept as the exact quotient. *)

From Stdlib Require Import ZArith QArith Qround Qpower Lia Lqa.
From stdpp Require Import base tactics option list list_numbers numbers sorting.

Local Open Scope Z_scope.

(** ** SSE2 intrinsics and bit scanning *)

Module SSE2.

(** [_mm_loadu_si128((__m128i* )&mem[base])]: sixteen consecutive bytes. *)
Definition mm_loadu_si128 (mem : list Z) (base : Z) : list Z :=
  take 16 (drop (Z.to_nat base) mem).

(** [_mm_set1_epi8(b)]: the byte [b] broadcast to all sixteen lanes. *)
Definition mm_set1_epi8 (b : Z) : list Z := replicate 16 b.

(** [_mm_cmpeq_epi8]: lane-wise equality, [0xFF] where equal, [0x00]
    elsewhere. *)
Definition mm_cmpeq_epi8 (a b : list Z) : list Z :=
  zip_with (fun x y => if x =? y then 255 else 0) a b.

(** [_mm_movemask_epi8]: bit [i] of the result is the top bit of lane [i]. *)
Fixpoint mm_movemask_epi8 (a : list Z) : Z :=
  match a with
  | [] => 0
  | x :: r => Z.b2z (Z.testbit x 7) + 2 * mm_movemask_epi8 r
  end.

Fixpoint ctz_pos (p : positive) : Z :=
  match p with
  | xO q => 1 + ctz_pos q
  | _ => 0
  end.

(** [__builtin_ctz(m)] / [_BitScanForward]: index of the lowest set bit.
    The source only calls it on a non-zero mask. *)
Definition builtin_ctz (m : Z) : Z :=
  match m with
  | Zpos p => ctz_pos p
  | _ => 0
  end.

(** The mask whose bit [i] is the [i]-th boolean of [bs]. *)
Fixpoint mask_of (bs : list bool) : Z :=
  match bs with
  | [] => 0
  | b :: r => Z.b2z b + 2 * mask_of r
  end.

(** Indices, counted from [off], of the booleans of [bs] that are set. *)
Fixpoint set_bits (off : Z) (bs : list bool) : list Z :=
  match bs with
  | [] => []
  | b :: r =>
      if b then off :: set_bits (off + 1) r else set_bits (off + 1) r
  end.

End SSE2.

Import SSE2.

(** ** Double precision *)

Module Binary64.

(** A [double] is its 64 bits: sign, eleven exponent bits and fifty-two
    fraction bits (IEEE 754 binary64).  Only the low 64 bits of the integer
    are read. *)
Definition double := Z.

(** The value of a double and of a double-precision expression: not a
    number, an infinity, or a finite value (the sign of a zero is not
    kept; nothing in the source depends on it). *)
Inductive fpval :=
| FNaN
| FInf (neg : bool)
| FFin (q : Q).

Definition pow2 (e : Z) : Q := Qpower 2 e.

Definition decode (d : double) : fpval :=
  let b := d mod 2 ^ 64 in
  let s := b / 2 ^ 63 in
  let E := (b / 2 ^ 52) mod 2 ^ 11 in
  let F := b mod 2 ^ 52 in
  if E =? 2047 then (if F =? 0 then FInf (s =? 1) else FNaN)
  else
    let m := if E =? 0 then F else 2 ^ 52 + F in
    let e := if E =? 0 then -1074 else E - 1075 in
    FFin (inject_Z (if s =? 1 then - m else m) * pow2 e).

(** [floor (log2 q)] for [q > 0]. *)
Definition ilog2 (q : Q) : Z :=
  let k := Z.log2 (Qnum q) - Z.log2 (Zpos (Qden q)) in
  if Qle_bool (pow2 k) q then k else k - 1.

(** The nearest integer, the even one of two at the same distance. *)
Definition round_half_even (x : Q) : Z :=
  let f := Qfloor x in
  match (x - inject_Z f ?= 1 # 2)%Q with
  | Lt => f
  | Gt => f + 1
  | Eq => if Z.even f then f else f + 1
  end.

(** Exponent of the last bit of the significand of a double near [q > 0]:
    fifty-three bits of precision, least exponent [-1074]. *)
Definition ulp_exp (q : Q) : Z := Z.max (ilog2 q - 52) (-1074).

(** Round to nearest, ties to even, for [q > 0], before the range check. *)
Definition round_val (q : Q) : Q :=
  inject_Z (round_half_even (q / pow2 (ulp_exp q))) * pow2 (ulp_exp q).

Definition round_pos (q : Q) : fpval :=
  if Qle_bool (pow2 1024) (round_val q) then FInf false
  else FFin (Qred (round_val q)).

Definition fneg (x : fpval) : fpval :=
  match x with
  | FNaN => FNaN
  | FInf s => FInf (negb s)
  | FFin q => FFin (- q)
  end.

(** The double nearest to the real number [q] (the default rounding
    mode). *)
Definition rnd (q : Q) : fpval :=
  match (q ?= 0)%Q with
  | Eq => FFin 0
  | Gt => round_pos q
  | Lt => fneg (round_pos (- q))
  end.

Definition qneg (q : Q) : bool := negb (Qle_bool 0 q).

(** [x * y]. *)
Definition fmul (x y : fpval) : fpval :=
  match x, y with
  | FNaN, _ | _, FNaN => FNaN
  | FFin a, FFin b => rnd (a * b)
  | FInf s, FFin b | FFin b, FInf s =>
      if Qeq_bool b 0 then FNaN else FInf (xorb s (qneg b))
  | FInf s1, FInf s2 => FInf (xorb s1 s2)
  end.

(** [x / y]. *)
Definition fdiv (x y : fpval) : fpval :=
  match x, y with
  | FNaN, _ | _, FNaN => FNaN
  | FFin a, FFin b =>
      if Qeq_bool b 0
      then (if Qeq_bool a 0 then FNaN else FInf (qneg a))
      else rnd (a / b)
  | FInf s, FFin b => FInf (xorb s (qneg b))
  | FFin _, FInf _ => FFin 0
  | FInf _, FInf _ => FNaN
  end.

(** [x <= y]; every comparison with a NaN is false. *)
Definition fle (x y : fpval) : bool :=
  match x, y with
  | FNaN, _ | _, FNaN => false
  | FFin a, FFin b => Qle_bool a b
  | FInf s, FFin _ => s
  | FFin _, FInf s => negb s
  | FInf s1, FInf s2 => s1 || negb s2
  end.

(** [x < y]. *)
Definition flt (x y : fpval) : bool :=
  match x, y with
  | FNaN, _ | _, FNaN => false
  | FFin a, FFin b => negb (Qle_bool b a)
  | FInf s, FFin _ => s
  | FFin _, FInf s => negb s
  | FInf s1, FInf s2 => s1 && negb s2
  end.

(** Conversion of a [size_t] to [double]. *)
Definition of_size (n : Z) : fpval := rnd (inject_Z n).

(** [static_cast<size_t>(x)]: truncation toward zero; [None] where the
    truncated value is not a [size_t] (a NaN, an infinity, a value that is
    too large or negative), which the language leaves undefined. *)
Definition to_size (x : fpval) : option Z :=
  match x with
  | FFin q =>
      if Qle_bool q (-1) then None
      else if Qle_bool q 0 then Some 0
      else if 2 ^ 64 <=? Qfloor q then None
      else Some (Qfloor q)
  | _ => None
  end.

(** The bits of a representable value. *)
Definition encode_pos (q : Q) : double :=
  let e := ulp_exp q in
  let m := Qfloor (q / pow2 e) in
  if m <? 2 ^ 52 then m else (e + 1074) * 2 ^ 52 + m.

Definition encode (x : fpval) : double :=
  match x with
  | FNaN => 2047 * 2 ^ 52 + 2 ^ 51
  | FInf s => (if s then 2 ^ 63 else 0) + 2047 * 2 ^ 52
  | FFin q =>
      match (q ?= 0)%Q with
      | Eq => 0
      | Gt => encode_pos q
      | Lt => 2 ^ 63 + encode_pos (- q)
      end
  end.

(** The double a decimal literal of value [q] denotes. *)
Definition double_of_Q (q : Q) : double := encode (rnd q).

(** Representable up to range: an integer of at most fifty-three bits times
    a power of two not below [2^-1074]. *)
Definition format (g : Q) : Prop :=
  exists m e : Z,
    -1074 <= e /\ Z.abs m <= 2 ^ 53 /\ (g == inject_Z m * pow2 e)%Q.

(** [std::log2] belongs to the platform's math library, not to the source:
    it is a parameter of the development. *)
Class MathLib := std_log2 : fpval -> fpval.

(** What is used of [std::log2]: between two consecutive powers of two its
    result lies between the two exponents. *)
Definition log2_brackets (f : fpval -> fpval) : Prop :=
  forall q k, -1074 <= k < 1024 ->
    (pow2 k <= q)%Q -> (q <= pow2 (k + 1))%Q ->
    exists r, f (FFin q) = FFin r
              /\ (inject_Z k <= r)%Q /\ (r <= inject_Z (k + 1))%Q.

(** A logarithm for the concrete containers: the integer part from the
    position of the leading bit, [FRAC] fraction bits by repeated squaring
    in fixed point with [PREC] bits, then rounded to a double. *)
Definition FRAC : Z := 112.
Definition PREC : Z := 192.

Fixpoint frac_bits (n : nat) (y acc : Z) : Z :=
  match n with
  | O => acc
  | S n' =>
      let sq := Z.shiftr (y * y) PREC in
      if 2 ^ (PREC + 1) <=? sq
      then frac_bits n' (Z.shiftr sq 1) (2 * acc + 1)
      else frac_bits n' sq (2 * acc)
  end.

Definition log2_pos (q : Q) : fpval :=
  let k := ilog2 q in
  let y := (q / pow2 k)%Q in
  if Qeq_bool y 1 then FFin (inject_Z k)
  else
    let lo := frac_bits (Z.to_nat FRAC) (Qfloor (y * pow2 PREC)) 0 in
    rnd (inject_Z k + inject_Z lo / pow2 FRAC).

Definition log2_rn (x : fpval) : fpval :=
  match x with
  | FNaN => FNaN
  | FInf s => if s then FNaN else FInf false
  | FFin q =>
      match (q ?= 0)%Q with
      | Eq => FInf true
      | Gt => log2_pos q
      | Lt => FNaN
      end
  end.

End Binary64.

Import Binary64.

(** ** The container *)

Section Container.

Context {K V : Type} `{EqDecision K} `{!Inhabited K} `{!Inhabited V}.
Context {libm : MathLib}.

(** [Hash] functor of the template; its result is a 64-bit value. *)
Variable hasher : K -> Z.

Record Entry := mkEntry { key : K; value : V }.

Record GroupedSIMDElastic := mkTable {
  metadata_ : list Z;
  table_ : list Entry;
  capacity_ : Z;
  size_ : Z;
  max_inserts_ : Z;
  delta_ : double;
  max_probe_limit_ : Z;
  max_group_used_ : Z;
  salt_ : Z
}.

(** [C = 4.0]. *)
Definition C_const : fpval := FFin 4.
Definition GROUP_SIZE : Z := 16.
Definition EARLY_EXIT_GROUPS : Z := 1.
Definition EMPTY : Z := 0.
Definition OCCUPIED_BIT : Z := 128.

(** Word size of [uint64_t]. *)
Definition wrap64 (x : Z) : Z := x mod 2 ^ 64.

(** [metadata_[idx]] and [table_[idx]]; every index the code uses is below
    the capacity, which is the length of both vectors. *)
Definition meta_at (t : GroupedSIMDElastic) (idx : Z) : Z :=
  default EMPTY (metadata_ t !! Z.to_nat idx).

Definition entry_at (t : GroupedSIMDElastic) (idx : Z) : Entry :=
  default (mkEntry inhabitant inhabitant) (table_ t !! Z.to_nat idx).

Definition hash_with_salt (t : GroupedSIMDElastic) (k : K) : Z :=
  Z.lxor (hasher k) (salt_ t).

Definition hash_fragment (h : Z) : Z := Z.land (Z.shiftr h 57) 127.

Definition make_metadata (h : Z) : Z := Z.lor OCCUPIED_BIT (hash_fragment h).

Definition group_base (t : GroupedSIMDElastic) (h group_idx : Z) : Z :=
  wrap64 (h + GROUP_SIZE * group_idx) mod capacity_ t.

Definition slot_in_group (t : GroupedSIMDElastic) (base offset : Z) : Z :=
  (base + offset) mod capacity_ t.

Definition max_groups (t : GroupedSIMDElastic) : Z :=
  let max_g := (max_probe_limit_ t + GROUP_SIZE - 1) / GROUP_SIZE in
  let max_possible := (capacity_ t + GROUP_SIZE - 1) / GROUP_SIZE in
  if max_g <? max_possible then max_g else max_possible.

(** *** Construction *)

(** [static_cast<size_t>(delta * capacity)]: the capacity is converted to
    [double], the product is rounded, the result is truncated. *)
Definition trunc_delta_capacity (capacity : Z) (delta : double) : option Z :=
  to_size (fmul (decode delta) (of_size capacity)).

(** [static_cast<size_t>(C * std::log2(1.0 / delta))]. *)
Definition trunc_probe_bound (delta : double) : option Z :=
  to_size (fmul C_const (std_log2 (fdiv (FFin 1) (decode delta)))).

(** How a call of the constructor ends: it throws
    [std::invalid_argument], it evaluates a conversion whose behaviour is
    undefined, or it returns. *)
Inductive construction :=
| Throws
| Undefined
| Constructed (t : GroupedSIMDElastic).

(** The constructor.  The salt is what [std::random_device] returned. *)
Definition construct (capacity : Z) (delta : double) (salt : Z)
  : construction :=
  if capacity =? 0 then Throws
  else if fle (decode delta) (FFin 0) || fle (FFin 1) (decode delta)
  then Throws
  else
    match trunc_delta_capacity capacity delta, trunc_probe_bound delta with
    | Some a, Some mpl0 =>
        let max_inserts := capacity - a in
        let mpl1 := if mpl0 <? GROUP_SIZE then GROUP_SIZE else mpl0 in
        let mpl2 := if mpl1 >? capacity then capacity else mpl1 in
        Constructed
          {| metadata_ := replicate (Z.to_nat capacity) EMPTY;
             table_ := replicate (Z.to_nat capacity)
                                 (mkEntry inhabitant inhabitant);
             capacity_ := capacity;
             size_ := 0;
             max_inserts_ := max_inserts;
             delta_ := delta;
             max_probe_limit_ := mpl2;
             max_group_used_ := 0;
             salt_ := salt |}
    | _, _ => Undefined
    end.

(** The container a call of the constructor returns, if it returns. *)
Definition new (capacity : Z) (delta : double) (salt : Z)
  : option GroupedSIMDElastic :=
  match construct capacity delta salt with
  | Constructed t => Some t
  | _ => None
  end.

(** *** Mutations performed by [insert] *)

Inductive action :=
| Overwrite (idx : Z)
| Place (idx grp : Z).

(** [table_[idx].value = value; return true;] *)
Definition overwrite (t : GroupedSIMDElastic) (idx : Z) (v : V)
  : GroupedSIMDElastic :=
  {| metadata_ := metadata_ t;
     table_ := <[Z.to_nat idx := mkEntry (key (entry_at t idx)) v]> (table_ t);
     capacity_ := capacity_ t;
     size_ := size_ t;
     max_inserts_ := max_inserts_ t;
     delta_ := delta_ t;
     max_probe_limit_ := max_probe_limit_ t;
     max_group_used_ := max_group_used_ t;
     salt_ := salt_ t |}.

(** [metadata_[idx] = meta; table_[idx] = {key, value}; ++size_;
    if (grp > max_group_used_) max_group_used_ = grp; return true;] *)
Definition place (t : GroupedSIMDElastic) (idx grp meta : Z) (k : K) (v : V)
  : GroupedSIMDElastic :=
  {| metadata_ := <[Z.to_nat idx := meta]> (metadata_ t);
     table_ := <[Z.to_nat idx := mkEntry k v]> (table_ t);
     capacity_ := capacity_ t;
     size_ := size_ t + 1;
     max_inserts_ := max_inserts_ t;
     delta_ := delta_ t;
     max_probe_limit_ := max_probe_limit_ t;
     max_group_used_ :=
       if grp >? max_group_used_ t then grp else max_group_used_ t;
     salt_ := salt_ t |}.

Definition apply_action (t : GroupedSIMDElastic) (meta : Z) (k : K) (v : V)
           (a : action) : GroupedSIMDElastic :=
  match a with
  | Overwrite idx => overwrite t idx v
  | Place idx grp => place t idx grp meta k v
  end.

(** *** Scanning one group *)

(** [while (match_mask != 0) { bit_idx = ctz(match_mask); if
    (table_[base + bit_idx].key == key) return ...; match_mask &=
    match_mask - 1; }].  A mask has sixteen bits, so sixteen rounds are
    enough ([match_loop_fuel] below). *)
Fixpoint match_loop (t : GroupedSIMDElastic) (k : K) (base : Z)
         (fuel : nat) (match_mask : Z) : option Z :=
  match fuel with
  | O => None
  | S fuel' =>
      if match_mask =? 0 then None
      else
        let bit_idx := builtin_ctz match_mask in
        let idx := base + bit_idx in
        if bool_decide (key (entry_at t idx) = k) then Some idx
        else match_loop t k base fuel' (Z.land match_mask (match_mask - 1))
  end.

Definition empty_mask_of (t : GroupedSIMDElastic) (base : Z) : Z :=
  let meta_vec := mm_loadu_si128 (metadata_ t) base in
  mm_movemask_epi8 (mm_cmpeq_epi8 meta_vec (mm_set1_epi8 EMPTY)).

Definition match_mask_of (t : GroupedSIMDElastic) (base meta : Z) : Z :=
  let meta_vec := mm_loadu_si128 (metadata_ t) base in
  mm_movemask_epi8 (mm_cmpeq_epi8 meta_vec (mm_set1_epi8 meta)).

(** The scalar loop over the offsets of a group used by the wrap-around
    branch of the first group and by the fallback scan: an empty slot is
    taken, a slot holding the key is overwritten. *)
Fixpoint scalar_scan (t : GroupedSIMDElastic) (k : K) (meta base g : Z)
         (offsets : list Z) : option action :=
  match offsets with
  | [] => None
  | i :: rest =>
      let idx := slot_in_group t base i in
      if meta_at t idx =? EMPTY then Some (Place idx g)
      else if (meta_at t idx =? meta)
              && bool_decide (key (entry_at t idx) = k)
      then Some (Overwrite idx)
      else scalar_scan t k meta base g rest
  end.

(** The first group: SIMD when contiguous, scalar when it wraps. *)
Definition first_group (t : GroupedSIMDElastic) (k : K) (h meta : Z)
  : option action :=
  let base0 := group_base t h 0 in
  if base0 + GROUP_SIZE <=? capacity_ t then
    let empty_mask := empty_mask_of t base0 in
    let match_mask := match_mask_of t base0 meta in
    match match_loop t k base0 16 match_mask with
    | Some idx => Some (Overwrite idx)
    | None =>
        if negb (empty_mask =? 0)
        then Some (Place (base0 + builtin_ctz empty_mask) 0)
        else None
    end
  else scalar_scan t k meta base0 0 (seqZ 0 GROUP_SIZE).

(** *** The non-greedy candidate window *)

Record Candidate := mkCandidate {
  group_idx : Z;
  slot_offset : Z;
  table_idx : Z
}.

#[global] Instance Candidate_inhabited : Inhabited Candidate :=
  populate (mkCandidate 0 0 0).

(** [while (empty_mask != 0) { candidates[num_candidates++] = {g, bit_idx,
    base + bit_idx}; empty_mask &= empty_mask - 1; }].  The buffer is the
    list of entries written so far; a write goes to index [length cands]. *)
Fixpoint collect_loop (g base : Z) (fuel : nat) (empty_mask : Z)
         (cands : list Candidate) : list Candidate :=
  match fuel with
  | O => cands
  | S fuel' =>
      if empty_mask =? 0 then cands
      else
        let bit_idx := builtin_ctz empty_mask in
        collect_loop g base fuel' (Z.land empty_mask (empty_mask - 1))
                     (cands ++ [mkCandidate g bit_idx (base + bit_idx)])
  end.

(** Scalar scan of a wrapping group inside the window: empty slots are
    recorded, a slot holding the key ends the call.  The left result
    carries the slot to overwrite and the buffer as it then is. *)
Fixpoint scalar_collect (t : GroupedSIMDElastic) (k : K) (meta base g : Z)
         (offsets : list Z) (cands : list Candidate)
  : Z * list Candidate + list Candidate :=
  match offsets with
  | [] => inr cands
  | i :: rest =>
      let idx := slot_in_group t base i in
      if meta_at t idx =? EMPTY
      then scalar_collect t k meta base g rest
                          (cands ++ [mkCandidate g i idx])
      else if (meta_at t idx =? meta)
              && bool_decide (key (entry_at t idx) = k)
      then inl (idx, cands)
      else scalar_collect t k meta base g rest cands
  end.

(** Outcome of the window loop: the key was found and is overwritten, or
    the loop ended with the candidates collected.  [cap_stop] records which
    conjunct of [g < max_groups_to_check && num_candidates < 128] ended
    the loop: [true] when it was the buffer bound. *)
Inductive window_result :=
| WUpdated (idx : Z) (cands : list Candidate)
| WDone (cands : list Candidate) (cap_stop : bool).

Fixpoint window_loop (t : GroupedSIMDElastic) (k : K) (h meta : Z)
         (groups : list Z) (cands : list Candidate) : window_result :=
  match groups with
  | [] => WDone cands false
  | g :: rest =>
      if Z.of_nat (length cands) <? 128 then
        let base := group_base t h g in
        if base + GROUP_SIZE <=? capacity_ t then
          let empty_mask := empty_mask_of t base in
          let match_mask := match_mask_of t base meta in
          match match_loop t k base 16 match_mask with
          | Some idx => WUpdated idx cands
          | None =>
              window_loop t k h meta rest
                          (collect_loop g base 16 empty_mask cands)
          end
        else
          match scalar_collect t k meta base g (seqZ 0 GROUP_SIZE) cands with
          | inl (idx, cands') => WUpdated idx cands'
          | inr cands' => window_loop t k h meta rest cands'
          end
      else WDone cands true
  end.

Definition recorded (r : window_result) : list Candidate :=
  match r with
  | WUpdated _ cands => cands
  | WDone cands _ => cands
  end.

Definition stopped_by_cap (r : window_result) : bool :=
  match r with
  | WUpdated _ _ => false
  | WDone _ b => b
  end.

(** [load > 0.8] with [load = static_cast<double>(size_) / capacity_]: the
    two integers are converted to doubles, the quotient is rounded, and it
    is compared with the double nearest to 0.8. *)
Definition load_high (t : GroupedSIMDElastic) : bool :=
  flt (rnd (8 # 10)) (fdiv (of_size (size_ t)) (of_size (capacity_ t))).

Definition max_groups_to_check (t : GroupedSIMDElastic) : Z :=
  let m := if load_high t then 8 else 4 in
  let total_groups := max_groups t in
  if m >? total_groups then total_groups else m.

Definition window (t : GroupedSIMDElastic) (k : K) (h meta : Z)
  : window_result :=
  let w := max_groups_to_check t in
  window_loop t k h meta
              (seqZ EARLY_EXIT_GROUPS (w - EARLY_EXIT_GROUPS)) [].

(** [for (i = 1; i < num_candidates; ++i) if (candidates[i] is
    lexicographically below candidates[best_i]) best_i = i;] *)
Fixpoint best_loop (cands : list Candidate) (indices : list nat)
         (best_i : nat) : nat :=
  match indices with
  | [] => best_i
  | i :: rest =>
      let ci := cands !!! i in
      let cb := cands !!! best_i in
      if (group_idx ci <? group_idx cb)
         || ((group_idx ci =? group_idx cb)
             && (slot_offset ci <? slot_offset cb))
      then best_loop cands rest i
      else best_loop cands rest best_i
  end.

Definition best_candidate (cands : list Candidate) : Candidate :=
  cands !!! best_loop cands (seq 1 (length cands - 1)) 0%nat.

(** The fallback scan over the groups after the window. *)
Fixpoint fallback_loop (t : GroupedSIMDElastic) (k : K) (h meta : Z)
         (groups : list Z) : option action :=
  match groups with
  | [] => None
  | g :: rest =>
      match scalar_scan t k meta (group_base t h g) g (seqZ 0 GROUP_SIZE) with
      | Some a => Some a
      | None => fallback_loop t k h meta rest
      end
  end.

(** *** insert *)

(** What [insert] does once the size gate is passed: the write it
    performs, or [None] when it returns [false]. *)
Definition insert_action (t : GroupedSIMDElastic) (k : K) : option action :=
  let h := hash_with_salt t k in
  let meta := make_metadata h in
  match first_group t k h meta with
  | Some a => Some a
  | None =>
      let w := max_groups_to_check t in
      let total_groups := max_groups t in
      match window t k h meta with
      | WUpdated idx _ => Some (Overwrite idx)
      | WDone cands _ =>
          if (0 <? Z.of_nat (length cands)) then
            let best := best_candidate cands in
            Some (Place (table_idx best) (group_idx best))
          else fallback_loop t k h meta (seqZ w (total_groups - w))
      end
  end.

Definition insert (t : GroupedSIMDElastic) (k : K) (v : V)
  : GroupedSIMDElastic * bool :=
  if size_ t >=? max_inserts_ t then (t, false)
  else
    match insert_action t k with
    | Some a =>
        (apply_action t (make_metadata (hash_with_salt t k)) k v a, true)
    | None => (t, false)
    end.

(** *** find *)

Inductive group_result :=
| GFound (idx : Z)
| GAbsent
| GNext.

(** Scalar lookup in a wrapping group. *)
Fixpoint find_scalar (t : GroupedSIMDElastic) (k : K) (meta base : Z)
         (offsets : list Z) : group_result :=
  match offsets with
  | [] => GNext
  | i :: rest =>
      let idx := slot_in_group t base i in
      let m := meta_at t idx in
      if m =? EMPTY then GAbsent
      else if (m =? meta) && bool_decide (key (entry_at t idx) = k)
      then GFound idx
      else find_scalar t k meta base rest
  end.

(** SIMD lookup in a contiguous group. *)
Definition find_simd (t : GroupedSIMDElastic) (k : K) (meta base : Z)
  : group_result :=
  let empty_mask := empty_mask_of t base in
  let match_mask := match_mask_of t base meta in
  match match_loop t k base 16 match_mask with
  | Some idx => GFound idx
  | None => if negb (empty_mask =? 0) then GAbsent else GNext
  end.

Definition find_group (t : GroupedSIMDElastic) (k : K) (h meta g : Z)
  : group_result :=
  let base := group_base t h g in
  if base + GROUP_SIZE <=? capacity_ t
  then find_simd t k meta base
  else find_scalar t k meta base (seqZ 0 GROUP_SIZE).

Fixpoint find_loop (t : GroupedSIMDElastic) (k : K) (h meta : Z)
         (groups : list Z) : option Z :=
  match groups with
  | [] => None
  | g :: rest =>
      match find_group t k h meta g with
      | GFound idx => Some idx
      | GAbsent => None
      | GNext => find_loop t k h meta rest
      end
  end.

(** The slot whose value [find] returns a pointer to; [None] is
    [nullptr]. *)
Definition find_slot (t : GroupedSIMDElastic) (k : K) : option Z :=
  let h := hash_with_salt t k in
  let meta := make_metadata h in
  let groups_to_check := max_group_used_ t + 1 in
  find_loop t k h meta (seqZ 0 groups_to_check).

(** The value behind the pointer. *)
Definition find (t : GroupedSIMDElastic) (k : K) : option V :=
  (fun idx => value (entry_at t idx)) <$> find_slot t k.

Definition contains (t : GroupedSIMDElastic) (k : K) : bool :=
  bool_decide (is_Some (find_slot t k)).

(** [operator[]]: the container afterwards and the slot referred to
    ([None]: the final [find] returned [nullptr]). *)
Definition index (t : GroupedSIMDElastic) (k : K)
  : GroupedSIMDElastic * option Z :=
  match find_slot t k with
  | Some idx => (t, Some idx)
  | None =>
      let t' := (insert t k inhabitant).1 in
      (t', find_slot t' k)
  end.

Definition size (t : GroupedSIMDElastic) : Z := size_ t.
Definition capacity (t : GroupedSIMDElastic) : Z := capacity_ t.
Definition load_factor (t : GroupedSIMDElastic) : Q :=
  inject_Z (size_ t) / inject_Z (capacity_ t).
Definition max_group_used (t : GroupedSIMDElastic) : Z := max_group_used_ t.
Definition max_probe_limit (t : GroupedSIMDElastic) : Z :=
  max_probe_limit_ t.
Definition max_probe_used (t : GroupedSIMDElastic) : Z :=
  max_group_used_ t * GROUP_SIZE + GROUP_SIZE - 1.

(** *** Operation sequences *)

Inductive operation :=
| OpInsert (k : K) (v : V)
| OpFind (k : K)
| OpContains (k : K)
| OpIndex (k : K).

Definition step (t : GroupedSIMDElastic) (op : operation)
  : GroupedSIMDElastic :=
  match op with
  | OpInsert k v => (insert t k v).1
  | OpFind _ => t
  | OpContains _ => t
  | OpIndex k => (index t k).1
  end.

Definition run (t : GroupedSIMDElastic) (ops : list operation)
  : GroupedSIMDElastic :=
  foldl step t ops.

(** A container is reachable when it is the result of a successful
    construction followed by operations. *)
Inductive reachable : GroupedSIMDElastic -> Prop :=
| reachable_new capacity delta salt t :
    0 <= capacity ->
    new capacity delta salt = Some t ->
    reachable t
| reachable_step t op :
    reachable t ->
    reachable (step t op).

End Container.

Arguments Entry : clear implicits.
Arguments GroupedSIMDElastic : clear implicits.

(** ** The probe sequence as a list

    The definitions below describe what the loops of [insert] and [find]
    compute in terms of the list of probe positions [(group, offset, slot)]
    in probe order.  They are used to state and prove the invariants; the
    lemmas of the next part relate them to the code above. *)

Section View.

Context {K V : Type} `{EqDecision K} `{!Inhabited K} `{!Inhabited V}.
Context {libm : MathLib}.
Variable hasher : K -> Z.

Abbreviation Table := (GroupedSIMDElastic K V).

Definition empty_at (t : Table) (idx : Z) : bool := meta_at t idx =? EMPTY.

Definition hit_at (t : Table) (k : K) (meta idx : Z) : bool :=
  (meta_at t idx =? meta) && bool_decide (key (entry_at t idx) = k).

(** The sixteen probe positions of the group [g] that starts at [base]. *)
Definition cands_at (t : Table) (g base : Z) : list Candidate :=
  (fun i => mkCandidate g i (slot_in_group t base i)) <$> seqZ 0 GROUP_SIZE.

(** The probe positions of the groups [groups] for the salted hash [h]. *)
Definition probe_list (t : Table) (h : Z) (groups : list Z)
  : list Candidate :=
  groups ≫= (fun g => cands_at t g (group_base t h g)).

Definition hits (t : Table) (k : K) (meta : Z) (l : list Candidate)
  : list Candidate :=
  List.filter (fun c => hit_at t k meta (table_idx c)) l.

Definition empties (t : Table) (l : list Candidate) : list Candidate :=
  List.filter (fun c => empty_at t (table_idx c)) l.

(** The first of the lanes [bits] whose slot holds the key; [slot] maps a
    lane to its slot. *)
Fixpoint first_key_match (t : Table) (k : K) (slot : Z -> Z)
         (bits : list Z) : option Z :=
  match bits with
  | [] => None
  | i :: r =>
      if bool_decide (key (entry_at t (slot i)) = k) then Some (slot i)
      else first_key_match t k slot r
  end.

(** Slot-by-slot order: the first position that is empty or holds the
    key decides. *)
Fixpoint scan_list (t : Table) (k : K) (meta : Z) (l : list Candidate)
  : option action :=
  match l with
  | [] => None
  | c :: r =>
      if empty_at t (table_idx c)
      then Some (Place (table_idx c) (group_idx c))
      else if hit_at t k meta (table_idx c)
      then Some (Overwrite (table_idx c))
      else scan_list t k meta r
  end.

(** Match-first order: a position holding the key decides if there is
    one, otherwise the first empty position. *)
Definition simd_list (t : Table) (k : K) (meta : Z) (l : list Candidate)
  : option action :=
  match hits t k meta l with
  | c :: _ => Some (Overwrite (table_idx c))
  | [] =>
      match empties t l with
      | c :: _ => Some (Place (table_idx c) (group_idx c))
      | [] => None
      end
  end.

(** [find] on a list of positions, slot by slot. *)
Fixpoint find_list (t : Table) (k : K) (meta : Z) (l : list Candidate)
  : group_result :=
  match l with
  | [] => GNext
  | c :: r =>
      if empty_at t (table_idx c) then GAbsent
      else if hit_at t k meta (table_idx c) then GFound (table_idx c)
      else find_list t k meta r
  end.

(** [find] on a list of positions, matches first. *)
Definition find_simd_list (t : Table) (k : K) (meta : Z)
           (l : list Candidate) : group_result :=
  match hits t k meta l with
  | c :: _ => GFound (table_idx c)
  | [] =>
      match empties t l with
      | [] => GNext
      | _ :: _ => GAbsent
      end
  end.

(** *** The SIMD lookup on the slots of a wrapping group

    The SIMD branch of [find] applied to the sixteen slots
    [(base + i) mod capacity_] of a group instead of sixteen consecutive
    bytes: the metadata bytes of those slots are gathered into the
    register, all fingerprint matches are processed first, and the lookup
    is absent if a lane is [EMPTY]. *)

Definition gather (t : Table) (base : Z) : list Z :=
  (fun i => meta_at t (slot_in_group t base i)) <$> seqZ 0 GROUP_SIZE.

Fixpoint match_loop_wrapped (t : Table) (k : K) (base : Z)
         (fuel : nat) (match_mask : Z) : option Z :=
  match fuel with
  | O => None
  | S fuel' =>
      if match_mask =? 0 then None
      else
        let bit_idx := builtin_ctz match_mask in
        let idx := slot_in_group t base bit_idx in
        if bool_decide (key (entry_at t idx) = k) then Some idx
        else match_loop_wrapped t k base fuel'
                                (Z.land match_mask (match_mask - 1))
  end.

Definition find_simd_wrapped (t : Table) (k : K) (meta base : Z)
  : group_result :=
  let meta_vec := gather t base in
  let empty_mask :=
    mm_movemask_epi8 (mm_cmpeq_epi8 meta_vec (mm_set1_epi8 EMPTY)) in
  let match_mask :=
    mm_movemask_epi8 (mm_cmpeq_epi8 meta_vec (mm_set1_epi8 meta)) in
  match match_loop_wrapped t k base 16 match_mask with
  | Some idx => GFound idx
  | None => if negb (empty_mask =? 0) then GAbsent else GNext
  end.


(** *** Vocabulary of the properties *)

(** The slot at offset [i] of group [g] of the probe sequence of [k]. *)
Definition probe_slot (t : Table) (k : K) (g i : Z) : Z :=
  slot_in_group t (group_base t (hash_with_salt hasher t k) g) i.

Definition key_meta (t : Table) (k : K) : Z :=
  make_metadata (hash_with_salt hasher t k).

(** No occupied slot of the container holds [k]. *)
Definition absent (t : Table) (k : K) : Prop :=
  forall s, 0 <= s < capacity_ t -> empty_at t s = false ->
            key (entry_at t s) <> k.

Definition stored_somewhere (t : Table) (k : K) : bool :=
  existsb (fun s => negb (empty_at t s)
                    && bool_decide (key (entry_at t s) = k))
          (seqZ 0 (capacity_ t)).

(** No slot of the first [max_groups] groups of the probe sequence of [k]
    is empty or holds [k]. *)
Definition probe_exhausted (t : Table) (k : K) : Prop :=
  forall g i, 0 <= g < max_groups t -> 0 <= i < GROUP_SIZE ->
    empty_at t (probe_slot t k g i) = false
    /\ hit_at t k (key_meta t k) (probe_slot t k g i) = false.

(** Some slot of the first [max_groups] groups of the probe sequence of
    [k] is empty. *)
Definition probe_has_empty (t : Table) (k : K) : Prop :=
  exists g i, 0 <= g < max_groups t /\ 0 <= i < GROUP_SIZE
              /\ empty_at t (probe_slot t k g i) = true.

(** [k] is held by a slot of the first group or of the groups of the
    non-greedy window. *)
Definition present_in_window (t : Table) (k : K) : Prop :=
  exists g i, 0 <= g < Z.max 1 (max_groups_to_check t)
              /\ 0 <= i < GROUP_SIZE
              /\ hit_at t k (key_meta t k) (probe_slot t k g i) = true.


(** The four ways a call of [insert] ends on a container that satisfies the
    invariant. *)
Inductive insert_outcome (t : Table) (k : K) (v : V)
  : Table * bool -> Prop :=
| insert_refused :
    max_inserts_ t <= size_ t ->
    insert_outcome t k v (t, false)
| insert_updated s :
    size_ t < max_inserts_ t ->
    0 <= s < capacity_ t -> empty_at t s = false ->
    key (entry_at t s) = k ->
    insert_outcome t k v (overwrite t s v, true)
| insert_placed idx g :
    size_ t < max_inserts_ t ->
    (forall s, 0 <= s < capacity_ t -> empty_at t s = false ->
               key (entry_at t s) <> k) ->
    scan_list t k (make_metadata (hash_with_salt hasher t k))
      (probe_list t (hash_with_salt hasher t k) (seqZ 0 (max_groups t)))
    = Some (Place idx g) ->
    0 <= idx < capacity_ t -> empty_at t idx = true ->
    0 <= g < max_groups t ->
    insert_outcome t k v
      (place t idx g (make_metadata (hash_with_salt hasher t k)) k v, true)
| insert_exhausted :
    size_ t < max_inserts_ t ->
    (forall s, 0 <= s < capacity_ t -> empty_at t s = false ->
               key (entry_at t s) <> k) ->
    scan_list t k (make_metadata (hash_with_salt hasher t k))
      (probe_list t (hash_with_salt hasher t k) (seqZ 0 (max_groups t)))
    = None ->
    insert_outcome t k v (t, false).

Definition lex_lt (c1 c2 : Candidate) : Prop :=
  group_idx c1 < group_idx c2
  \/ (group_idx c1 = group_idx c2 /\ slot_offset c1 < slot_offset c2).

(** Both vectors have [capacity_] elements. *)
Definition wf (t : Table) : Prop :=
  1 <= capacity_ t
  /\ length (metadata_ t) = Z.to_nat (capacity_ t)
  /\ length (table_ t) = Z.to_nat (capacity_ t).

(** The occupied slot [s] carries the fingerprint of its key and lies on
    the key's probe sequence within the first [max_group_used_ + 1]
    groups, after positions that are all occupied. *)
Definition stored_ok (t : Table) (s : Z) : Prop :=
  let h := hash_with_salt hasher t (key (entry_at t s)) in
  meta_at t s = make_metadata h
  /\ exists l1 c l2,
      probe_list t h (seqZ 0 (max_group_used_ t + 1)) = l1 ++ c :: l2
      /\ table_idx c = s
      /\ Forall (fun c' => empty_at t (table_idx c') = false) l1.

Definition empty_count (t : Table) : Z :=
  Z.of_nat (length (List.filter (fun m => m =? EMPTY) (metadata_ t))).

Record Inv (t : Table) : Prop := mkInv {
  inv_wf : wf t;
  inv_limit : 1 <= max_probe_limit_ t;
  inv_groups : 0 <= max_group_used_ t < max_groups t;
  inv_stored : forall s,
    0 <= s < capacity_ t -> empty_at t s = false -> stored_ok t s;
  inv_unique : forall s1 s2,
    0 <= s1 < capacity_ t -> 0 <= s2 < capacity_ t ->
    empty_at t s1 = false -> empty_at t s2 = false ->
    key (entry_at t s1) = key (entry_at t s2) -> s1 = s2;
  inv_count : empty_count t = capacity_ t - size_ t;
  inv_max_inserts : 1 <= max_inserts_ t <= capacity_ t;
  inv_size : 0 <= size_ t <= max_inserts_ t
}.

(** The number of metadata bytes whose occupied bit (bit 7) is set. *)
Definition occupied_count (t : Table) : Z :=
  Z.of_nat (length (List.filter (fun m => Z.testbit m 7) (metadata_ t))).

(** The occupied slot [s] holds the record [(k, v)]. *)
Definition holds (t : Table) (s : Z) (k : K) (v : V) : Prop :=
  0 <= s < capacity_ t /\ empty_at t s = false
  /\ key (entry_at t s) = k /\ value (entry_at t s) = v.

(** Position [(g1, i1)] of a probe sequence comes before [(g2, i2)]. *)
Definition probes_before (g1 i1 g2 i2 : Z) : Prop :=
  g1 < g2 \/ (g1 = g2 /\ i1 < i2).

End View.

Arguments cands_at : simpl never.
Arguments probe_list : simpl never.
Arguments hits : simpl never.
Arguments empties : simpl never.

(** ** Closed formulas the properties are compared with *)

(** Ceiling of [a / b] for [b > 0]. *)
Definition cdiv (a b : Z) : Z := - ((- a) / b).

(** The exact ceiling of [4 * log2 (1 / delta)] for a real [0 < delta < 1]:
    the least [n] with [(1 / delta) ^ 4 <= 2 ^ n]. *)
Definition ceil_probe_bound (delta : Q) : Z :=
  Z.log2_up (Qceiling (Qpower (1 / delta) 4)).

(** The finite value of a double (0 for a NaN or an infinity). *)
Definition B2Q (d : double) : Q :=
  match decode d with
  | FFin q => q
  | _ => 0%Q
  end.

(** [max(16, min(C, ceil(4 * log2(1 / delta))))]. *)
Definition clamp_max_of_min (capacity : Z) (delta : Q) : Z :=
  Z.max GROUP_SIZE (Z.min capacity (ceil_probe_bound delta)).

(** ** Concrete containers: 64-bit keys and values, identity hash, salt 0 *)

Module Examples.

Definition hid (k : Z) : Z := k.

(** [K{}] and [V{}] of a 64-bit integer are 0. *)
#[global] Instance value_initialized : Inhabited Z := populate 0.

Definition blank : GroupedSIMDElastic Z Z := mkTable [] [] 0 0 0 0 0 0 0.

(** The logarithm of the concrete containers. *)
#[global] Instance examples_log2 : MathLib := log2_rn.

(** [GroupedSIMDElastic(capacity, delta)] with [delta] written as a decimal
    literal, salt 0. *)
Definition make (capacity : Z) (delta : Q) : GroupedSIMDElastic Z Z :=
  default blank (new capacity (double_of_Q delta) 0).

(** [insert(k, 10 * k)] for each [k] of [ks], in order. *)
Definition inserts (ks : list Z) : list (operation (K:=Z) (V:=Z)) :=
  (fun k => OpInsert k (10 * k)) <$> ks.

(** Capacity 20, delta 0.1, empty. *)
Definition t20 : GroupedSIMDElastic Z Z := make 20 (1 # 10).

(** Capacity 20, delta 0.1, keys 0..16 inserted: one below the cap. *)
Definition t20_17 : GroupedSIMDElastic Z Z :=
  run hid t20 (inserts (seqZ 0 17)).

(** Capacity 4, delta 0.5, keys 1 and 2 inserted: at the cap. *)
Definition t4_full : GroupedSIMDElastic Z Z :=
  run hid (make 4 (1 # 2)) (inserts [1; 2]).

(** Capacity 25, delta 0.1, keys 0..21 inserted. *)
Definition t25_22 : GroupedSIMDElastic Z Z :=
  run hid (make 25 (1 # 10)) (inserts (seqZ 0 22)).

(** Capacity 100, delta 0.001 (three groups per key), sixty keys that all
    hash to slot 0 offered. *)
Definition t100 : GroupedSIMDElastic Z Z :=
  run hid (make 100 (1 # 1000))
      (inserts ((fun i => 100 * i) <$> seqZ 0 60)).

(** Capacity 34, delta 0.05 (two groups per key), keys 17..32 inserted:
    slots 17..32 are occupied. *)
Definition t34_16 : GroupedSIMDElastic Z Z :=
  run hid (make 34 (1 # 20)) (inserts (seqZ 17 16)).

(** A record that no sequence of operations produces: capacity 4, slot 0
    empty, key 4 (whose probe sequence starts at slot 0) in slot 1. *)
Definition t4_gap : GroupedSIMDElastic Z Z :=
  {| metadata_ := [0; 128; 0; 0];
     table_ := [mkEntry 0 0; mkEntry 4 40; mkEntry 0 0; mkEntry 0 0];
     capacity_ := 4;
     size_ := 1;
     max_inserts_ := 2;
     delta_ := double_of_Q (1 # 2);
     max_probe_limit_ := 4;
     max_group_used_ := 0;
     salt_ := 0 |}.

End Examples.

(** ** Bit masks: count-trailing-zeros and clearing the lowest bit *)

Lemma mask_of_nonneg bs : 0 <= mask_of bs.
Proof. induction bs as [|[] r IH]; simpl; lia. Qed.

Lemma movemask_cmpeq (v : list Z) (b : Z) (n : nat) :
  (length v <= n)%nat ->
  mm_movemask_epi8 (zip_with (fun x y => if x =? y then 255 else 0) v (replicate n b))
  = mask_of ((fun x => x =? b) <$> v).
Proof.
  revert n; induction v as [|x v IH]; intros n Hn; [by destruct n|].
  destruct n as [|n]; simpl in Hn; [lia|].
  simpl. rewrite IH by lia. by destruct (x =? b).
Qed.

Lemma ctz_double x : 0 < x -> builtin_ctz (2 * x) = 1 + builtin_ctz x.
Proof. destruct x; [lia|reflexivity|lia]. Qed.

Lemma ctz_odd r : 0 <= r -> builtin_ctz (1 + 2 * r) = 0.
Proof. destruct r; [reflexivity|reflexivity|lia]. Qed.

Lemma ctz_shifted (off : nat) r :
  0 <= r -> builtin_ctz (2 ^ Z.of_nat off * (1 + 2 * r)) = Z.of_nat off.
Proof.
  intros Hr. induction off as [|off IH].
  - simpl. rewrite Z.mul_1_l. by apply ctz_odd.
  - rewrite Nat2Z.inj_succ, Z.pow_succ_r by lia.
    rewrite <- Z.mul_assoc, ctz_double, IH; [lia|].
    apply Z.mul_pos_pos; [apply Z.pow_pos_nonneg|]; lia.
Qed.

Lemma land_pred_odd r : Z.land (1 + 2 * r) (1 + 2 * r - 1) = 2 * r.
Proof.
  replace (1 + 2 * r - 1) with (2 * r) by lia.
  apply Z.bits_inj'; intros n Hn. rewrite Z.land_spec.
  destruct (Z.eq_dec n 0) as [->|Hne].
  - by rewrite Z.add_comm, Z.testbit_odd_0, Z.testbit_even_0.
  - replace n with (Z.succ (n - 1)) by lia.
    rewrite Z.add_comm, Z.testbit_odd_succ, Z.testbit_even_succ by lia.
    apply andb_diag.
Qed.

Lemma land_pred_double x : Z.land (2 * x) (2 * x - 1) = 2 * Z.land x (x - 1).
Proof.
  replace (2 * x - 1) with (2 * (x - 1) + 1) by lia.
  apply Z.bits_inj'; intros n Hn. rewrite Z.land_spec.
  destruct (Z.eq_dec n 0) as [->|Hne].
  - by rewrite !Z.testbit_even_0.
  - replace n with (Z.succ (n - 1)) by lia.
    rewrite Z.testbit_odd_succ, !Z.testbit_even_succ by lia.
    by rewrite Z.land_spec.
Qed.

Lemma land_pred_shifted (off : nat) r :
  Z.land (2 ^ Z.of_nat off * (1 + 2 * r)) (2 ^ Z.of_nat off * (1 + 2 * r) - 1)
  = 2 ^ Z.of_nat (S off) * r.
Proof.
  induction off as [|off IH].
  - change (2 ^ Z.of_nat 0) with 1. change (2 ^ Z.of_nat 1) with 2.
    rewrite Z.mul_1_l. apply land_pred_odd.
  - rewrite (Nat2Z.inj_succ (S off)), Z.pow_succ_r by lia.
    rewrite <- (Z.mul_assoc 2), <- IH.
    rewrite Nat2Z.inj_succ, Z.pow_succ_r by lia.
    rewrite <- !Z.mul_assoc. apply land_pred_double.
Qed.

Lemma mask_shift_false (off : nat) r :
  2 ^ Z.of_nat off * (Z.b2z false + 2 * r) = 2 ^ Z.of_nat (S off) * r.
Proof. rewrite Nat2Z.inj_succ, Z.pow_succ_r by lia. simpl. lia. Qed.

Lemma shifted_mask_zero (off : nat) bs :
  2 ^ Z.of_nat off * mask_of bs = 0 <-> set_bits (Z.of_nat off) bs = [].
Proof.
  revert off; induction bs as [|b r IH]; intros off; simpl.
  - split; [done|lia].
  - destruct b.
    + split; [|done]. pose proof (mask_of_nonneg r).
      assert (0 < 2 ^ Z.of_nat off) by (apply Z.pow_pos_nonneg; lia).
      simpl. nia.
    + rewrite mask_shift_false, IH. by rewrite Nat2Z.inj_succ, <- Z.add_1_r.
Qed.

Lemma shifted_mask_ctz (off : nat) bs i rest :
  set_bits (Z.of_nat off) bs = i :: rest ->
  builtin_ctz (2 ^ Z.of_nat off * mask_of bs) = i.
Proof.
  revert off; induction bs as [|b r IH]; intros off; simpl; [done|].
  destruct b.
  - intros [= <- _]. simpl Z.b2z. apply ctz_shifted, mask_of_nonneg.
  - rewrite mask_shift_false. intros Hs. apply IH.
    by rewrite Nat2Z.inj_succ, <- Z.add_1_r.
Qed.


(** ** Double-precision arithmetic *)

Section Binary64Facts.

Local Open Scope Q_scope.


(** *** Powers of two *)

Lemma pow2_pos e : 0 < pow2 e.
Proof. by apply Qpower_0_lt. Qed.

Lemma pow2_add a b : pow2 (a + b) == pow2 a * pow2 b.
Proof. apply Qpower_plus. discriminate. Qed.

Lemma pow2_le a b : (a <= b)%Z -> pow2 a <= pow2 b.
Proof. intros. apply Qpower_le_compat_l; [done|discriminate]. Qed.

Lemma pow2_lt a b : (a < b)%Z -> pow2 a < pow2 b.
Proof. intros. apply Qpower_lt_compat_l; [done|reflexivity]. Qed.

Lemma pow2_Z e : (0 <= e)%Z -> pow2 e == inject_Z (2 ^ e).
Proof. intros. unfold pow2. by rewrite Zpower_Qpower. Qed.

Lemma pow2_succ e : pow2 (e + 1) == 2 * pow2 e.
Proof. rewrite pow2_add. change (pow2 1) with 2. ring. Qed.

Lemma pow2_sub a b : pow2 (a - b) == pow2 a / pow2 b.
Proof. apply Qpower_minus. discriminate. Qed.

Lemma Qdiv_pow2_mul q e : q / pow2 e * pow2 e == q.
Proof. pose proof (pow2_pos e). field. lra. Qed.

Lemma ilog2_spec q : 0 < q -> pow2 (ilog2 q) <= q /\ q < pow2 (ilog2 q + 1).
Proof.
  intros Hq. unfold ilog2. destruct q as [n d].
  assert (Hn : (0 < n)%Z) by (unfold Qlt in Hq; simpl in Hq; lia).
  cbn [Qnum Qden].
  set (a := Z.log2 n). set (b := Z.log2 (Z.pos d)).
  destruct (Z.log2_spec n Hn) as [Ha1 Ha2]. fold a in Ha1, Ha2.
  destruct (Z.log2_spec (Z.pos d) ltac:(lia)) as [Hb1 Hb2].
  fold b in Hb1, Hb2.
  assert (Ha0 : (0 <= a)%Z) by apply Z.log2_nonneg.
  assert (Hb0 : (0 <= b)%Z) by apply Z.log2_nonneg.
  assert (Hq' : n # d == inject_Z n / inject_Z (Z.pos d)) by apply Qmake_Qdiv.
  assert (Hd : 0 < inject_Z (Z.pos d)) by (rewrite <- (Zlt_Qlt 0); lia).
  assert (Ea : pow2 a == inject_Z (2 ^ a)) by by apply pow2_Z.
  assert (Eb : pow2 b == inject_Z (2 ^ b)) by by apply pow2_Z.
  assert (Ea1 : pow2 (a + 1) == inject_Z (2 ^ (a + 1)))
    by (apply pow2_Z; lia).
  assert (Eb1 : pow2 (b + 1) == inject_Z (2 ^ (b + 1)))
    by (apply pow2_Z; lia).
  rewrite Zle_Qle in Ha1, Hb1. rewrite Zlt_Qlt in Ha2, Hb2.
  rewrite <- Ea in Ha1. rewrite <- Eb in Hb1.
  rewrite <- Ea1 in Ha2. rewrite <- Eb1 in Hb2.
  rewrite pow2_succ in Ha2, Hb2.
  pose proof (pow2_pos a). pose proof (pow2_pos b).
  set (N := inject_Z n) in *. set (D := inject_Z (Z.pos d)) in *.
  assert (Hk : pow2 (a - b) * pow2 b == pow2 a)
    by (rewrite pow2_sub; field; lra).
  assert (Hqd : (n # d) * D == N) by (rewrite Hq'; field; lra).
  destruct (Qle_bool (pow2 (a - b)) (n # d)) eqn:E.
  - apply Qle_bool_iff in E. split; [done|].
    rewrite pow2_succ. nra.
  - assert (E' : n # d < pow2 (a - b)).
    { apply Qnot_le_lt. intros Hle. apply Qle_bool_iff in Hle. congruence. }
    replace (a - b - 1 + 1)%Z with (a - b)%Z by lia. split; [|done].
    assert (Hk' : pow2 (a - b - 1) * 2 == pow2 (a - b)).
    { replace (a - b)%Z with (a - b - 1 + 1)%Z at 2 by lia.
      rewrite pow2_succ. ring. }
    nra.
Qed.

Lemma round_half_even_near x :
  inject_Z (round_half_even x) - x <= 1 # 2
  /\ x - inject_Z (round_half_even x) <= 1 # 2.
Proof.
  unfold round_half_even.
  pose proof (Qfloor_le x) as H1. pose proof (Qlt_floor x) as H2.
  rewrite inject_Z_plus in H2. change (inject_Z 1) with 1 in H2.
  set (f := Qfloor x) in *.
  destruct (x - inject_Z f ?= 1 # 2) eqn:E.
  - apply Qeq_alt in E. destruct (Z.even f).
    + lra.
    + rewrite inject_Z_plus. change (inject_Z 1) with 1. lra.
  - apply Qlt_alt in E. lra.
  - apply Qgt_alt in E. rewrite inject_Z_plus. change (inject_Z 1) with 1.
    lra.
Qed.

Lemma inject_Z_lt_succ (n m : Z) : inject_Z n < inject_Z m -> inject_Z n + 1 <= inject_Z m.
Proof.
  intros H. rewrite <- Zlt_Qlt in H. change 1 with (inject_Z 1).
  rewrite <- inject_Z_plus, <- Zle_Qle. lia.
Qed.

Lemma round_half_even_le x (n : Z) :
  x <= inject_Z n -> (round_half_even x <= n)%Z.
Proof.
  intros H. destruct (round_half_even_near x) as [H1 H2].
  destruct (Z.le_gt_cases (round_half_even x) n) as [|Hgt]; [done|].
  exfalso. rewrite Zlt_Qlt in Hgt. apply inject_Z_lt_succ in Hgt. lra.
Qed.

Lemma round_half_even_ge x (n : Z) :
  inject_Z n <= x -> (n <= round_half_even x)%Z.
Proof.
  intros H. destruct (round_half_even_near x) as [H1 H2].
  destruct (Z.le_gt_cases n (round_half_even x)) as [|Hgt]; [done|].
  exfalso. rewrite Zlt_Qlt in Hgt. apply inject_Z_lt_succ in Hgt. lra.
Qed.

(** *** Representable numbers and rounding *)

Lemma ulp_exp_ge q : (-1074 <= ulp_exp q)%Z.
Proof. unfold ulp_exp. lia. Qed.

Lemma ulp_exp_cases q :
  (ulp_exp q = ilog2 q - 52 /\ -1074 <= ilog2 q - 52)%Z
  \/ (ulp_exp q = -1074 /\ ilog2 q - 52 < -1074)%Z.
Proof. unfold ulp_exp. lia. Qed.

Lemma scaled_lt q :
  0 < q -> q / pow2 (ulp_exp q) < inject_Z (2 ^ 53).
Proof.
  intros Hq. destruct (ilog2_spec q Hq) as [_ Hlt].
  pose proof (pow2_pos (ulp_exp q)) as He.
  assert (Hk : pow2 (ilog2 q + 1) <= pow2 (53 + ulp_exp q))
    by (apply pow2_le; unfold ulp_exp; lia).
  pose proof (pow2_add 53 (ulp_exp q)) as Ha.
  pose proof (pow2_Z 53 ltac:(lia)) as E53.
  apply Qlt_shift_div_r; [done|]. nra.
Qed.

Lemma scaled_ge q :
  0 < q -> (-1074 <= ilog2 q - 52)%Z ->
  inject_Z (2 ^ 52) <= q / pow2 (ulp_exp q).
Proof.
  intros Hq Hn. destruct (ilog2_spec q Hq) as [Hle _].
  pose proof (pow2_pos (ulp_exp q)) as He.
  assert (Hk : pow2 (ilog2 q) == pow2 (52 + ulp_exp q))
    by (unfold ulp_exp; by replace (52 + Z.max (ilog2 q - 52) (-1074))%Z
                              with (ilog2 q) by lia).
  pose proof (pow2_add 52 (ulp_exp q)) as Ha.
  pose proof (pow2_Z 52 ltac:(lia)) as E52.
  apply Qle_shift_div_l; [done|]. nra.
Qed.

Lemma scaled_pos q : 0 < q -> 0 < q / pow2 (ulp_exp q).
Proof.
  intros Hq. pose proof (pow2_pos (ulp_exp q)).
  apply Qlt_shift_div_l; [done|]. lra.
Qed.

Lemma round_val_mantissa q :
  0 < q ->
  (0 <= round_half_even (q / pow2 (ulp_exp q)) <= 2 ^ 53)%Z.
Proof.
  intros Hq. split.
  - apply round_half_even_ge. change (inject_Z 0) with 0.
    apply Qlt_le_weak. by apply scaled_pos.
  - apply round_half_even_le. apply Qlt_le_weak. by apply scaled_lt.
Qed.

Lemma round_val_format q : 0 < q -> format (round_val q).
Proof.
  intros Hq. exists (round_half_even (q / pow2 (ulp_exp q))), (ulp_exp q).
  split; [apply ulp_exp_ge|]. split; [|done].
  pose proof (round_val_mantissa q Hq). lia.
Qed.

Lemma round_val_nonneg q : 0 < q -> 0 <= round_val q.
Proof.
  intros Hq. unfold round_val. pose proof (pow2_pos (ulp_exp q)).
  pose proof (round_val_mantissa q Hq) as [Hm _].
  rewrite Zle_Qle in Hm. change (inject_Z 0) with 0 in Hm. nra.
Qed.

(** A representable number whose exponent is at least [e] is an integer
    multiple of [2^e]. *)
Lemma format_multiple g m eg e :
  (e <= eg)%Z -> g == inject_Z m * pow2 eg ->
  g == inject_Z (m * 2 ^ (eg - e)) * pow2 e.
Proof.
  intros He Hg. rewrite Hg, inject_Z_mult.
  pose proof (pow2_Z (eg - e) ltac:(lia)) as E1.
  pose proof (pow2_add (eg - e) e) as E2.
  replace (eg - e + e)%Z with eg in E2 by lia.
  rewrite <- E1, E2. ring.
Qed.

(** A representable number with a finer exponent than that of the binade
    [2^k, 2^(k+1)) lies at or below [2^k]. *)
Lemma format_below g m eg k :
  (Z.abs m <= 2 ^ 53)%Z -> (eg < k - 52)%Z -> g == inject_Z m * pow2 eg ->
  g <= pow2 k.
Proof.
  intros Hm He Hg. rewrite Hg.
  assert (Hm' : inject_Z m <= inject_Z (2 ^ 53)) by (rewrite <- Zle_Qle; lia).
  pose proof (pow2_pos eg).
  assert (Hk : pow2 (53 + eg) <= pow2 k) by (apply pow2_le; lia).
  pose proof (pow2_add 53 eg) as Ha.
  pose proof (pow2_Z 53 ltac:(lia)) as E53. nra.
Qed.

Lemma round_half_even_near_below x (n : Z) :
  inject_Z n < inject_Z (round_half_even x) ->
  inject_Z (round_half_even x) - x <= x - inject_Z n.
Proof.
  intros H. apply inject_Z_lt_succ in H.
  destruct (round_half_even_near x). lra.
Qed.

Lemma round_half_even_near_above x (n : Z) :
  inject_Z (round_half_even x) < inject_Z n ->
  x - inject_Z (round_half_even x) <= inject_Z n - x.
Proof.
  intros H. apply inject_Z_lt_succ in H.
  destruct (round_half_even_near x). lra.
Qed.

Lemma round_val_near_below q g :
  0 < q -> format g -> g < round_val q -> round_val q - q <= q - g.
Proof.
  intros Hq (m & eg & Heg & Hm & Hg) Hlt. unfold round_val in *.
  set (e := ulp_exp q) in *. set (x := q / pow2 e) in *.
  pose proof (pow2_pos e) as He.
  assert (Hx : x * pow2 e == q) by apply Qdiv_pow2_mul.
  destruct (Z.le_gt_cases e eg) as [Hle|Hgt].
  - pose proof (format_multiple g m eg e Hle Hg) as Hg'.
    set (n := (m * 2 ^ (eg - e))%Z) in *.
    assert (Hn : inject_Z n < inject_Z (round_half_even x)) by nra.
    pose proof (round_half_even_near_below x n Hn). nra.
  - destruct (ulp_exp_cases q) as [[E Hn]|[E Hn]]; fold e in E; [|lia].
    destruct (ilog2_spec q Hq) as [Hk _].
    pose proof (format_below g m eg (ilog2 q) Hm ltac:(lia) Hg) as Hgk.
    pose proof (scaled_ge q Hq Hn) as Hx52. fold e x in Hx52.
    assert (Hp : pow2 (ilog2 q) == inject_Z (2 ^ 52) * pow2 e).
    { pose proof (pow2_Z 52 ltac:(lia)) as E52.
      pose proof (pow2_add 52 e) as Ha.
      replace (52 + e)%Z with (ilog2 q) in Ha by lia.
      rewrite Ha, E52. reflexivity. }
    destruct (Qlt_le_dec (inject_Z (2 ^ 52)) (inject_Z (round_half_even x)))
      as [Hlt2|Hle2].
    + pose proof (round_half_even_near_below x _ Hlt2). nra.
    + nra.
Qed.

Lemma round_val_near_above q g :
  0 < q -> format g -> round_val q < g -> q - round_val q <= g - q.
Proof.
  intros Hq (m & eg & Heg & Hm & Hg) Hlt. unfold round_val in *.
  set (e := ulp_exp q) in *. set (x := q / pow2 e) in *.
  pose proof (pow2_pos e) as He.
  assert (Hx : x * pow2 e == q) by apply Qdiv_pow2_mul.
  destruct (Z.le_gt_cases e eg) as [Hle|Hgt].
  - pose proof (format_multiple g m eg e Hle Hg) as Hg'.
    set (n := (m * 2 ^ (eg - e))%Z) in *.
    assert (Hn : inject_Z (round_half_even x) < inject_Z n) by nra.
    pose proof (round_half_even_near_above x n Hn). nra.
  - destruct (ulp_exp_cases q) as [[E Hn]|[E Hn]]; fold e in E; [|lia].
    pose proof (format_below g m eg (ilog2 q) Hm ltac:(lia) Hg) as Hgk.
    pose proof (scaled_ge q Hq Hn) as Hx52. fold e x in Hx52.
    assert (Hp : pow2 (ilog2 q) == inject_Z (2 ^ 52) * pow2 e).
    { pose proof (pow2_Z 52 ltac:(lia)) as E52.
      pose proof (pow2_add 52 e) as Ha.
      replace (52 + e)%Z with (ilog2 q) in Ha by lia.
      rewrite Ha, E52. reflexivity. }
    pose proof (round_half_even_ge x (2 ^ 52) Hx52) as Hm52.
    rewrite Zle_Qle in Hm52. nra.
Qed.

Lemma round_val_le q g : 0 < q -> format g -> q <= g -> round_val q <= g.
Proof.
  intros Hq Hf Hle. destruct (Qlt_le_dec g (round_val q)) as [Hlt|]; [|done].
  pose proof (round_val_near_below q g Hq Hf Hlt). lra.
Qed.

Lemma round_val_ge q g : 0 < q -> format g -> g <= q -> g <= round_val q.
Proof.
  intros Hq Hf Hle. destruct (Qlt_le_dec (round_val q) g) as [Hlt|]; [|done].
  pose proof (round_val_near_above q g Hq Hf Hlt). lra.
Qed.

Lemma format_Z (n : Z) : (Z.abs n <= 2 ^ 53)%Z -> format (inject_Z n).
Proof.
  intros. exists n, 0%Z. split; [lia|]. split; [done|].
  change (pow2 0) with 1. ring.
Qed.

Lemma format_pow2 k : (-1074 <= k)%Z -> format (pow2 k).
Proof.
  intros. exists 1%Z, k. split; [done|]. split; [lia|].
  change (inject_Z 1) with 1. ring.
Qed.

#[local] Instance format_proper : Proper (Qeq ==> iff) format.
Proof.
  intros a b E. unfold format. split; intros (m & e & ? & ? & H);
    exists m, e; split_and!; try done; by rewrite <- H || rewrite H.
Qed.

(** *** Rounding of positive and of signed numbers *)

Lemma round_pos_finite q g :
  0 < q -> format g -> q <= g -> g < pow2 1024 ->
  round_pos q = FFin (Qred (round_val q)).
Proof.
  intros Hq Hf Hle Hg. unfold round_pos.
  destruct (Qle_bool (pow2 1024) (round_val q)) eqn:E; [|done].
  apply Qle_bool_iff in E. pose proof (round_val_le q g Hq Hf Hle). lra.
Qed.

Lemma round_pos_inv q r :
  round_pos q = FFin r -> r == round_val q.
Proof.
  unfold round_pos. destruct (Qle_bool (pow2 1024) (round_val q)); [done|].
  intros [= <-]. apply Qred_correct.
Qed.

Lemma rnd_pos q : 0 < q -> rnd q = round_pos q.
Proof. intros Hq. unfold rnd. destruct (Qcompare_spec q 0); [lra|lra|done]. Qed.

Lemma rnd_neg q : q < 0 -> rnd q = fneg (round_pos (- q)).
Proof. intros Hq. unfold rnd. destruct (Qcompare_spec q 0); [lra|done|lra]. Qed.

Lemma rnd_zero q : q == 0 -> rnd q = FFin 0.
Proof. intros Hq. unfold rnd. destruct (Qcompare_spec q 0); [done|lra|lra]. Qed.

Lemma pow2_53_lt_1024 : inject_Z (2 ^ 53) < pow2 1024.
Proof.
  pose proof (pow2_Z 53 ltac:(lia)) as E. pose proof (pow2_lt 53 1024 ltac:(lia)).
  lra.
Qed.

(** Rounding does not cross an integer of magnitude at most [2^53]. *)
Lemma rnd_between (a b : Z) q :
  (Z.abs a <= 2 ^ 53)%Z -> (Z.abs b <= 2 ^ 53)%Z ->
  inject_Z a <= q -> q <= inject_Z b ->
  exists r, rnd q = FFin r /\ inject_Z a <= r /\ r <= inject_Z b.
Proof.
  intros Ha Hb Haq Hqb. pose proof pow2_53_lt_1024 as H53.
  assert (Hb' : inject_Z b <= inject_Z (2 ^ 53)) by (rewrite <- Zle_Qle; lia).
  assert (Ha' : inject_Z (- 2 ^ 53) <= inject_Z a) by (rewrite <- Zle_Qle; lia).
  rewrite inject_Z_opp in Ha'.
  destruct (Q_dec q 0) as [[Hneg|Hpos]|Hz].
  - rewrite rnd_neg by done.
    assert (Hq : 0 < - q) by lra.
    assert (Hfa : format (inject_Z (- a))) by (apply format_Z; lia).
    rewrite (round_pos_finite (- q) (inject_Z (- a)))
      by (try done; rewrite inject_Z_opp; lra).
    eexists. split; [done|]. rewrite Qred_correct.
    pose proof (round_val_le (- q) _ Hq Hfa ltac:(rewrite inject_Z_opp; lra))
      as H1.
    rewrite inject_Z_opp in H1.
    destruct (Z.le_gt_cases b 0) as [Hb0|Hb0].
    + assert (Hfb : format (inject_Z (- b))) by (apply format_Z; lia).
      pose proof (round_val_ge (- q) _ Hq Hfb
                    ltac:(rewrite inject_Z_opp; lra)) as H2.
      rewrite inject_Z_opp in H2. lra.
    + pose proof (round_val_nonneg (- q) Hq).
      rewrite Zlt_Qlt in Hb0. change (inject_Z 0) with 0 in Hb0. lra.
  - rewrite rnd_pos by done.
    assert (Hfb : format (inject_Z b)) by by apply format_Z.
    rewrite (round_pos_finite q (inject_Z b)) by (done || lra).
    eexists. split; [done|]. rewrite Qred_correct.
    pose proof (round_val_le q _ Hpos Hfb Hqb) as H1. split; [|done].
    destruct (Z.le_gt_cases a 0) as [Ha0|Ha0].
    + pose proof (round_val_nonneg q Hpos).
      rewrite Zle_Qle in Ha0. change (inject_Z 0) with 0 in Ha0. lra.
    + assert (Hfa : format (inject_Z a)) by by apply format_Z.
      by apply round_val_ge.
  - rewrite rnd_zero by done. exists 0. split; [done|]. lra.
Qed.

Lemma inject_Z_sub a b : inject_Z (a - b) == inject_Z a - inject_Z b.
Proof. unfold Z.sub. rewrite inject_Z_plus, inject_Z_opp. ring. Qed.

(** *** Doubles below one *)

Lemma decode_below_one d q :
  decode d = FFin q -> 0 < q -> q < 1 -> q <= 1 - pow2 (-53).
Proof.
  unfold decode.
  set (b := (d mod 2 ^ 64)%Z). set (s := (b / 2 ^ 63)%Z).
  set (E := ((b / 2 ^ 52) mod 2 ^ 11)%Z). set (F := (b mod 2 ^ 52)%Z).
  assert (HE : (0 <= E < 2 ^ 11)%Z) by (apply Z.mod_pos_bound; lia).
  assert (HF : (0 <= F < 2 ^ 52)%Z) by (apply Z.mod_pos_bound; lia).
  destruct (Z.eqb_spec E 2047) as [|HE2]; [by destruct (F =? 0)%Z|].
  intros [= <-] Hpos Hlt.
  set (m := if (E =? 0)%Z then F else (2 ^ 52 + F)%Z) in *.
  set (e := if (E =? 0)%Z then (-1074)%Z else (E - 1075)%Z) in *.
  pose proof (pow2_pos e) as He.
  assert (Hm : (0 <= m <= 2 ^ 53 - 1)%Z)
    by (unfold m; destruct (E =? 0)%Z; lia).
  destruct (Z.eqb_spec s 1) as [Hs|Hs].
  { exfalso. rewrite inject_Z_opp in Hpos.
    assert (0 <= inject_Z m) by (rewrite <- (Zle_Qle 0); lia). nra. }
  assert (Hm1 : inject_Z m <= inject_Z (2 ^ 53) - 1).
  { change 1 with (inject_Z 1). rewrite <- inject_Z_sub, <- Zle_Qle. lia. }
  assert (Hm0 : 0 <= inject_Z m) by (rewrite <- (Zle_Qle 0); lia).
  pose proof (pow2_Z 53 ltac:(lia)) as E53.
  pose proof (pow2_add 53 (-53)) as E0. change (pow2 (53 + -53)) with 1 in E0.
  assert (He53 : (e <= -53)%Z -> pow2 e <= pow2 (-53)) by apply pow2_le.
  destruct (Z.le_gt_cases e (-53)) as [Hle|Hgt].
  - specialize (He53 Hle). nra.
  - exfalso. unfold e, m in *. destruct (Z.eqb_spec E 0); [lia|].
    assert (Hp : pow2 (-52) <= pow2 (E - 1075)) by (apply pow2_le; lia).
    pose proof (pow2_Z 52 ltac:(lia)) as E52.
    pose proof (pow2_add 52 (-52)) as E1.
    change (pow2 (52 + -52)) with 1 in E1.
    assert (HF' : inject_Z (2 ^ 52) <= inject_Z (2 ^ 52 + F))
      by (rewrite <- Zle_Qle; lia).
    pose proof (pow2_pos (-52)) as Hp52. pose proof (pow2_pos 52) as Hp52'.
    set (A := inject_Z (2 ^ 52 + F)) in *. set (P := pow2 (E - 1075)) in *.
    set (A0 := inject_Z (2 ^ 52)) in *. set (P0 := pow2 (-52)) in *.
    assert (A0 * P0 <= A * P).
    { apply Qle_trans with (A0 * P).
      - apply Qmult_le_l; lra.
      - apply Qmult_le_r; lra. }
    assert (A0 * P0 == 1) by (rewrite E1, E52; reflexivity).
    lra.
Qed.

(** *** [delta * capacity] *)

Lemma of_size_pos c c' :
  (1 <= c)%Z -> of_size c = FFin c' ->
  c' == round_val (inject_Z c) /\ 1 <= c'.
Proof.
  intros Hc. unfold of_size.
  assert (HC : 0 < inject_Z c) by (rewrite <- (Zlt_Qlt 0); lia).
  rewrite rnd_pos by done. intros Hr. apply round_pos_inv in Hr.
  split; [done|]. rewrite Hr.
  apply (round_val_ge _ 1 HC); [by apply (format_Z 1)|].
  change 1 with (inject_Z 1). rewrite <- Zle_Qle. lia.
Qed.

Lemma round_val_Z c :
  (1 <= c <= 2 ^ 53)%Z -> round_val (inject_Z c) == inject_Z c.
Proof.
  intros Hc.
  assert (HC : 0 < inject_Z c) by (rewrite <- (Zlt_Qlt 0); lia).
  assert (Hf : format (inject_Z c)) by (apply format_Z; lia).
  apply Qle_antisym; [apply round_val_le|apply round_val_ge]; done || lra.
Qed.

Lemma fmul_size_lt d c y :
  (1 <= c)%Z -> 0 < d -> d <= 1 - pow2 (-53) ->
  fmul (FFin d) (of_size c) = FFin y ->
  0 <= y /\ y < inject_Z c.
Proof.
  intros Hc Hd0 Hd1. destruct (of_size c) as [| |c'] eqn:Ec; cbn [fmul];
    [done|by destruct (Qeq_bool d 0)|].
  destruct (of_size_pos c c' Hc Ec) as [Hc' Hc1].
  set (C := inject_Z c) in *.
  assert (HC : 0 < C) by (unfold C; rewrite <- (Zlt_Qlt 0); lia).
  pose proof (pow2_pos (-53)) as Hp53.
  assert (Hq : 0 < d * c') by nra.
  rewrite rnd_pos by done. intros Hy. apply round_pos_inv in Hy.
  set (q' := d * c') in *. set (yv := round_val q') in *.
  split; [rewrite Hy; by apply round_val_nonneg|]. rewrite Hy.
  assert (Hfc : format c') by (rewrite Hc'; by apply round_val_format).
  assert (Hfy : format yv) by by apply round_val_format.
  assert (Hyc : yv <= c') by (apply round_val_le; try done; unfold q'; nra).
  destruct (Qlt_le_dec yv C) as [|Hge]; [done|]. exfalso.
  assert (Heq : yv == c').
  { apply Qle_antisym; [done|].
    destruct (Qlt_le_dec yv c') as [Hlt|]; [|done].
    rewrite Hc' in Hlt.
    pose proof (round_val_near_below C yv HC Hfy Hlt). lra. }
  (* the mantissa and exponent of c' *)
  pose proof (round_val_mantissa C HC) as [_ HM53].
  destruct (ilog2_spec C HC) as [_ Hk].
  assert (Hk0 : (0 <= ilog2 C)%Z).
  { destruct (Z.le_gt_cases 0 (ilog2 C)) as [|Hneg]; [done|]. exfalso.
    assert (pow2 (ilog2 C + 1) <= pow2 0) by (apply pow2_le; lia).
    change (pow2 0) with 1 in *.
    assert (1 <= C) by (unfold C; change 1 with (inject_Z 1);
                        rewrite <- Zle_Qle; lia).
    lra. }
  assert (HE : ulp_exp C = (ilog2 C - 52)%Z) by (unfold ulp_exp; lia).
  pose proof (scaled_ge C HC ltac:(lia)) as Hx52.
  pose proof (round_half_even_ge _ _ Hx52) as HM52.
  unfold round_val in Hc'.
  set (E := ulp_exp C) in *.
  set (M := round_half_even (C / pow2 E)) in *.
  pose proof (pow2_pos E) as HpE.
  pose proof (pow2_Z 53 ltac:(lia)) as E53.
  pose proof (pow2_add 53 (-53)) as E0. change (pow2 (53 + -53)) with 1 in E0.
  assert (Hq' : q' <= c' - c' * pow2 (-53)) by (unfold q'; nra).
  destruct (decide (M = 2 ^ 52 \/ M = 2 ^ 53)%Z) as [Hpow|Hmid].
  - (* c' is a power of two: its predecessor is c' (1 - 2^-53) *)
    set (j := if decide (M = 2 ^ 52)%Z then (52 + E)%Z else (53 + E)%Z).
    assert (Hcj : c' == pow2 j).
    { rewrite Hc'. unfold j. destruct Hpow as [-> | ->].
      - rewrite decide_True by done. rewrite pow2_add.
        by rewrite (pow2_Z 52) by lia.
      - rewrite decide_False by lia. rewrite pow2_add. by rewrite E53. }
    assert (Hj : (0 <= j)%Z) by (unfold j; case_decide; lia).
    set (g := inject_Z (2 ^ 53 - 1) * pow2 (j - 53)).
    assert (Hg : format g).
    { exists (2 ^ 53 - 1)%Z, (j - 53)%Z. split; [lia|]. split; [lia|done]. }
    assert (Hgv : g == c' - c' * pow2 (-53)).
    { pose proof (pow2_add j (-53)) as Ej.
      replace (j + -53)%Z with (j - 53)%Z in Ej by lia.
      assert (E0' : pow2 53 * pow2 (-53) == 1) by (symmetry; exact E0).
      unfold g. rewrite inject_Z_sub. change (inject_Z 1) with 1.
      rewrite Hcj, Ej, <- E53.
      transitivity (pow2 53 * pow2 (-53) * pow2 j - pow2 j * pow2 (-53));
        [ring|]. rewrite E0'. ring. }
    pose proof (round_val_le q' g Hq Hg ltac:(lra)) as Hyg.
    fold yv in Hyg. nra.
  - assert (HM : (2 ^ 52 < M < 2 ^ 53)%Z) by lia.
    set (g := inject_Z (M - 1) * pow2 E).
    assert (Hg : format g).
    { exists (M - 1)%Z, E. split; [apply ulp_exp_ge|]. split; [lia|done]. }
    assert (Hgv : g == c' - pow2 E).
    { unfold g. rewrite inject_Z_sub, Hc'. change (inject_Z 1) with 1. ring. }
    assert (HMq : inject_Z (2 ^ 52) + 1 <= inject_Z M).
    { apply inject_Z_lt_succ. rewrite <- Zlt_Qlt. lia. }
    pose proof (pow2_add 52 (-53)) as E1.
    pose proof (pow2_Z 52 ltac:(lia)) as E52.
    assert (Eh : pow2 (52 + -53) == 1 # 2) by reflexivity.
    assert (Hgap : pow2 E < 2 * (c' * pow2 (-53))).
    { assert (Hh : 1 # 2 < inject_Z M * pow2 (-53)).
      { apply Qlt_le_trans with ((inject_Z (2 ^ 52) + 1) * pow2 (-53)).
        - rewrite <- E52. rewrite <- Eh, E1. lra.
        - apply Qmult_le_r; lra. }
      rewrite Hc'.
      assert (X : 2 * (inject_Z M * pow2 E * pow2 (-53))
                  == 2 * (inject_Z M * pow2 (-53)) * pow2 E) by ring.
      rewrite X. set (h := inject_Z M * pow2 (-53)) in *. nra. }
    assert (Hlt : g < yv) by lra.
    pose proof (round_val_near_below q' g Hq Hg Hlt). fold yv in H. lra.
Qed.

Lemma fmul_size_ge d c y :
  (1 <= c <= 2 ^ 53)%Z -> 0 < d -> d < 1 ->
  fmul (FFin d) (of_size c) = FFin y ->
  inject_Z (Qfloor (d * inject_Z c)) <= y.
Proof.
  intros Hc Hd0 Hd1. destruct (of_size c) as [| |c'] eqn:Ec; cbn [fmul];
    [done|by destruct (Qeq_bool d 0)|].
  destruct (of_size_pos c c' ltac:(lia) Ec) as [Hc' Hc1].
  rewrite round_val_Z in Hc' by done.
  assert (Hq : 0 < d * c') by (apply Qmult_lt_0_compat; lra).
  rewrite rnd_pos by done. intros Hy. apply round_pos_inv in Hy.
  rewrite Hy. apply round_val_ge; [done| |].
  - apply format_Z.
    assert (0 <= Qfloor (d * inject_Z c) <= c)%Z; [|lia]. split.
    + rewrite <- (Qfloor_Z 0). apply Qfloor_resp_le. change (inject_Z 0) with 0.
      apply Qmult_le_0_compat; lra.
    + rewrite <- (Qfloor_Z c) at 2. apply Qfloor_resp_le.
      rewrite <- (Qmult_1_l (inject_Z c)) at 2. apply Qmult_le_r; lra.
  - eapply Qle_trans; [apply Qfloor_le|]. rewrite Hc'. lra.
Qed.

(** *** Conversion to [size_t] *)

Lemma Qfloor_zero y : y == 0 -> Qfloor y = 0%Z.
Proof.
  intros Hy. apply Z.le_antisymm.
  - change 0%Z with (Qfloor 0). apply Qfloor_resp_le. lra.
  - change 0%Z with (Qfloor 0). apply Qfloor_resp_le. lra.
Qed.

Lemma to_size_Some y a :
  0 <= y -> to_size (FFin y) = Some a -> a = Qfloor y.
Proof.
  intros Hy. unfold to_size.
  destruct (Qle_bool y (-1)) eqn:E1; [done|].
  destruct (Qle_bool y 0) eqn:E2.
  - apply Qle_bool_iff in E2. intros [= <-].
    assert (Hy0 : y == 0) by lra. by rewrite Qfloor_zero.
  - destruct (2 ^ 64 <=? Qfloor y)%Z; [done|]. by intros [= <-].
Qed.

Lemma to_size_nonneg x n : to_size x = Some n -> (0 <= n)%Z.
Proof.
  destruct x as [| |q]; try done. unfold to_size.
  destruct (Qle_bool q (-1)); [done|].
  destruct (Qle_bool q 0) eqn:E; [by intros [= <-]|].
  destruct (2 ^ 64 <=? Qfloor q)%Z; [done|]. intros [= <-].
  change 0%Z with (Qfloor 0). apply Qfloor_resp_le.
  apply Qlt_le_weak, Qnot_le_lt. intros Hle. apply Qle_bool_iff in Hle.
  congruence.
Qed.

Lemma to_size_defined y :
  0 <= y -> (Qfloor y < 2 ^ 64)%Z -> to_size (FFin y) = Some (Qfloor y).
Proof.
  intros Hy Hlt. unfold to_size.
  destruct (Qle_bool y (-1)) eqn:E1; [apply Qle_bool_iff in E1; lra|].
  destruct (Qle_bool y 0) eqn:E2.
  - apply Qle_bool_iff in E2. f_equal.
    assert (Hy0 : y == 0) by lra. by rewrite Qfloor_zero.
  - destruct (Z.leb_spec (2 ^ 64) (Qfloor y)); [lia|done].
Qed.

(** *** [C * std::log2(1.0 / delta)] *)

Lemma fdiv_one_between d k :
  0 < d -> (-1074 <= k)%Z -> (k + 1 < 1024)%Z ->
  pow2 k <= / d -> / d <= pow2 (k + 1) ->
  exists x, fdiv (FFin 1) (FFin d) = FFin x
            /\ pow2 k <= x /\ x <= pow2 (k + 1).
Proof.
  intros Hd Hk Hk1 Hlo Hhi. cbn [fdiv].
  assert (Hd0 : Qeq_bool d 0 = false).
  { destruct (Qeq_bool d 0) eqn:E; [|done]. apply Qeq_bool_iff in E. lra. }
  rewrite Hd0.
  assert (Hq : 1 / d == / d) by (field; lra).
  assert (Hpos : 0 < 1 / d) by (rewrite Hq; by apply Qinv_lt_0_compat).
  rewrite rnd_pos by done.
  assert (Hf1 : format (pow2 (k + 1))) by (apply format_pow2; lia).
  assert (Hf0 : format (pow2 k)) by by apply format_pow2.
  rewrite (round_pos_finite (1 / d) (pow2 (k + 1)))
    by (done || lra || (apply pow2_lt; lia)).
  eexists. split; [done|]. rewrite Qred_correct. split.
  - apply round_val_ge; try done. lra.
  - apply round_val_le; try done. lra.
Qed.

Lemma probe_bound_brackets (f : fpval -> fpval) d k :
  log2_brackets f -> 0 < d -> (0 <= k < 1023)%Z ->
  pow2 k <= / d -> / d <= pow2 (k + 1) ->
  exists n,
    to_size (fmul (FFin 4) (f (fdiv (FFin 1) (FFin d)))) = Some n
    /\ (4 * k <= n <= 4 * (k + 1))%Z.
Proof.
  intros Hf Hd Hk Hlo Hhi.
  destruct (fdiv_one_between d k Hd ltac:(lia) ltac:(lia) Hlo Hhi)
    as (x & -> & Hx1 & Hx2).
  destruct (Hf x k ltac:(lia) Hx1 Hx2) as (r & -> & Hr1 & Hr2).
  cbn [fmul].
  destruct (rnd_between (4 * k) (4 * (k + 1)) (4 * r)) as (z & -> & Hz1 & Hz2).
  - lia.
  - lia.
  - rewrite inject_Z_mult. change (inject_Z 4) with 4. lra.
  - rewrite inject_Z_mult. change (inject_Z 4) with 4. lra.
  - assert (Hk0 : 0 <= inject_Z (4 * k))
      by (rewrite <- (Zle_Qle 0); lia).
    assert (Hfl : (4 * k <= Qfloor z <= 4 * (k + 1))%Z).
    { split.
      - rewrite <- (Qfloor_Z (4 * k)). by apply Qfloor_resp_le.
      - rewrite <- (Qfloor_Z (4 * (k + 1))). by apply Qfloor_resp_le. }
    exists (Qfloor z). split; [|done].
    apply to_size_defined; [lra|lia].
Qed.

(** *** The logarithm used for the concrete containers *)

Lemma frac_bits_range n : forall y acc,
  (0 <= acc)%Z ->
  (0 <= frac_bits n y acc < (acc + 1) * 2 ^ Z.of_nat n)%Z.
Proof.
  induction n as [|n IH]; intros y acc Hacc.
  - cbn [frac_bits]. change (2 ^ Z.of_nat 0)%Z with 1%Z. lia.
  - cbn [frac_bits]. rewrite Nat2Z.inj_succ, Z.pow_succ_r by lia.
    match goal with |- context [if ?c then _ else _] => destruct c end.
    + match goal with |- context [frac_bits n ?y' ?a'] =>
        pose proof (IH y' a' ltac:(lia)) end. nia.
    + match goal with |- context [frac_bits n ?y' ?a'] =>
        pose proof (IH y' a' ltac:(lia)) end. nia.
Qed.

Lemma ilog2_between q k :
  0 < q -> pow2 k <= q -> q <= pow2 (k + 1) ->
  (ilog2 q = k \/ (ilog2 q = k + 1 /\ q == pow2 (k + 1)))%Z.
Proof.
  intros Hq Hlo Hhi. destruct (ilog2_spec q Hq) as [H1 H2].
  assert (k < ilog2 q + 1)%Z.
  { apply (Qpower_lt_compat_l_inv 2); [|reflexivity]. fold (pow2 k).
    fold (pow2 (ilog2 q + 1)). lra. }
  assert (ilog2 q <= k + 1)%Z.
  { apply (Qpower_le_compat_l_inv 2); [|reflexivity]. fold (pow2 (k + 1)).
    fold (pow2 (ilog2 q)). lra. }
  destruct (Z.eq_dec (ilog2 q) k) as [|Hne]; [by left|]. right.
  assert (E : ilog2 q = (k + 1)%Z) by lia. split; [done|].
  rewrite E in H1. lra.
Qed.

Lemma log2_rn_brackets : log2_brackets log2_rn.
Proof.
  intros q k Hk Hlo Hhi. pose proof (pow2_pos k) as Hpk.
  assert (Hq : 0 < q) by lra. cbn [log2_rn].
  destruct (Qcompare_spec q 0) as [|?|_]; [lra|lra|].
  unfold log2_pos. set (K := ilog2 q).
  pose proof (pow2_pos K) as HpK.
  destruct (ilog2_between q k Hq Hlo Hhi) as [HK|[HK Hqe]]; fold K in HK.
  - destruct (Qeq_bool (q / pow2 K) 1).
    + exists (inject_Z K). split; [done|]. rewrite HK, <- !Zle_Qle. lia.
    + pose proof (frac_bits_range (Z.to_nat FRAC)
                    (Qfloor (q / pow2 K * pow2 PREC)) 0 ltac:(lia)) as Hb.
      set (lo := frac_bits (Z.to_nat FRAC) _ 0) in *.
      rewrite Z2Nat.id in Hb by done. rewrite Z.add_0_l, Z.mul_1_l in Hb.
      destruct Hb as [Hb0 Hb1]. rewrite Zle_Qle in Hb0.
      rewrite Zlt_Qlt in Hb1. change (inject_Z 0) with 0 in Hb0.
      pose proof (pow2_Z FRAC ltac:(done)) as EF.
      pose proof (pow2_pos FRAC) as HpF.
      assert (Hv0 : 0 <= inject_Z lo / pow2 FRAC)
        by (apply Qle_shift_div_l; lra).
      assert (Hv1 : inject_Z lo / pow2 FRAC <= 1)
        by (apply Qle_shift_div_r; lra).
      rewrite HK.
      apply (rnd_between k (k + 1)); try lia.
      * lra.
      * rewrite inject_Z_plus. change (inject_Z 1) with 1. lra.
  - assert (Hy : Qeq_bool (q / pow2 K) 1 = true).
    { apply Qeq_bool_iff. rewrite Hqe, HK. field.
      pose proof (pow2_pos (k + 1)). lra. }
    rewrite Hy. exists (inject_Z K). split; [done|].
    rewrite HK, <- !Zle_Qle. lia.
Qed.



End Binary64Facts.
(** ** The code and the probe list *)

Section Facts.

Context {K V : Type} `{EqDecision K} `{!Inhabited K} `{!Inhabited V}.
Context {libm : MathLib}.
Variable hasher : K -> Z.

Abbreviation Table := (GroupedSIMDElastic K V).

Lemma match_loop_bits (t : Table) k base bs : forall (off fuel : nat),
  (length bs <= fuel)%nat ->
  match_loop t k base fuel (2 ^ Z.of_nat off * mask_of bs)
  = first_key_match t k (Z.add base) (set_bits (Z.of_nat off) bs).
Proof.
  induction bs as [|b r IH]; intros off fuel Hf.
  - simpl. rewrite Z.mul_0_r. by destruct fuel.
  - destruct b.
    + destruct fuel as [|fuel]; [simpl in Hf; lia|].
      cbn [mask_of set_bits first_key_match match_loop Z.b2z].
      pose proof (mask_of_nonneg r) as Hr.
      assert (0 < 2 ^ Z.of_nat off) by (apply Z.pow_pos_nonneg; lia).
      destruct (Z.eqb_spec (2 ^ Z.of_nat off * (1 + 2 * mask_of r)) 0) as [E|_];
        [nia|].
      rewrite ctz_shifted by done.
      case_bool_decide; [done|].
      rewrite land_pred_shifted, IH by (simpl in Hf; lia).
      by rewrite Nat2Z.inj_succ, <- Z.add_1_r.
    + cbn [mask_of set_bits]. rewrite mask_shift_false, IH by (simpl in Hf; lia).
      by rewrite Nat2Z.inj_succ, <- Z.add_1_r.
Qed.

Lemma collect_loop_bits g base bs : forall (off fuel : nat) cands,
  (length bs <= fuel)%nat ->
  collect_loop g base fuel (2 ^ Z.of_nat off * mask_of bs) cands
  = cands ++ ((fun i => mkCandidate g i (base + i))
                <$> set_bits (Z.of_nat off) bs).
Proof.
  induction bs as [|b r IH]; intros off fuel cands Hf.
  - simpl. rewrite Z.mul_0_r, app_nil_r. by destruct fuel.
  - destruct b.
    + destruct fuel as [|fuel]; [simpl in Hf; lia|].
      cbn [mask_of set_bits collect_loop Z.b2z fmap list_fmap].
      pose proof (mask_of_nonneg r) as Hr.
      assert (0 < 2 ^ Z.of_nat off) by (apply Z.pow_pos_nonneg; lia).
      destruct (Z.eqb_spec (2 ^ Z.of_nat off * (1 + 2 * mask_of r)) 0) as [E|_];
        [nia|].
      rewrite ctz_shifted by done.
      rewrite land_pred_shifted, IH by (simpl in Hf; lia).
      rewrite <- app_assoc. simpl.
      by rewrite Nat2Z.inj_succ, <- Z.add_1_r.
    + cbn [mask_of set_bits]. rewrite mask_shift_false, IH by (simpl in Hf; lia).
      by rewrite Nat2Z.inj_succ, <- Z.add_1_r.
Qed.

Lemma set_bits_seqZ (f : Z -> bool) (n : nat) : forall off : Z,
  set_bits off (f <$> seqZ off (Z.of_nat n)) = List.filter f (seqZ off (Z.of_nat n)).
Proof.
  induction n as [|n IH]; intros off; [done|].
  rewrite seqZ_cons by lia. cbn [fmap list_fmap set_bits List.filter].
  replace (Z.pred (Z.of_nat (S n))) with (Z.of_nat n) by lia.
  rewrite <- Z.add_1_r, IH. by destruct (f off).
Qed.

Lemma loadu_contiguous (t : Table) base :
  0 <= base -> (Z.to_nat base + 16 <= length (metadata_ t))%nat ->
  mm_loadu_si128 (metadata_ t) base
  = (fun i => meta_at t (base + i)) <$> seqZ 0 16.
Proof.
  intros Hb Hlen. unfold mm_loadu_si128. apply list_eq; intros i.
  rewrite list_lookup_fmap.
  destruct (decide (i < 16)%nat) as [Hi|Hi].
  - rewrite lookup_take_lt, lookup_drop by done.
    rewrite lookup_seqZ_lt by lia. simpl. unfold meta_at.
    replace (Z.to_nat (base + (0 + Z.of_nat i))) with (Z.to_nat base + i)%nat by lia.
    destruct (lookup_lt_is_Some_2 (metadata_ t) (Z.to_nat base + i)) as [x Hx]; [lia|].
    by rewrite Hx.
  - rewrite lookup_take_ge, lookup_seqZ_ge by lia. done.
Qed.

Lemma mask_of_loadu (t : Table) base b :
  0 <= base -> (Z.to_nat base + 16 <= length (metadata_ t))%nat ->
  mm_movemask_epi8 (mm_cmpeq_epi8 (mm_loadu_si128 (metadata_ t) base)
                                  (mm_set1_epi8 b))
  = 2 ^ Z.of_nat 0
    * mask_of ((fun i => meta_at t (base + i) =? b) <$> seqZ 0 (Z.of_nat 16)).
Proof.
  intros Hb Hlen. change (2 ^ Z.of_nat 0) with 1. rewrite Z.mul_1_l.
  unfold mm_cmpeq_epi8, mm_set1_epi8.
  rewrite movemask_cmpeq, loadu_contiguous by
    (try done; unfold mm_loadu_si128; rewrite length_take; lia).
  by rewrite <- list_fmap_compose.
Qed.


(** *** Elementary facts *)

Lemma make_metadata_nonzero h : make_metadata h <> EMPTY.
Proof.
  unfold make_metadata, EMPTY, OCCUPIED_BIT. intros E.
  apply Z.lor_eq_0_iff in E as [E _]. done.
Qed.

Lemma hit_not_empty (t : Table) k h idx :
  hit_at t k (make_metadata h) idx = true -> empty_at t idx = false.
Proof.
  unfold hit_at, empty_at. intros [E _]%andb_prop.
  apply Z.eqb_eq in E. rewrite E. apply Z.eqb_neq, make_metadata_nonzero.
Qed.

Lemma slot_in_group_range (t : Table) base i :
  1 <= capacity_ t -> 0 <= slot_in_group t base i < capacity_ t.
Proof. intros. apply Z.mod_pos_bound. lia. Qed.

Lemma group_base_range (t : Table) h g :
  1 <= capacity_ t -> 0 <= group_base t h g < capacity_ t.
Proof. intros. apply Z.mod_pos_bound. lia. Qed.

Lemma slot_contiguous (t : Table) base i :
  0 <= base -> base + GROUP_SIZE <= capacity_ t -> 0 <= i < 16 ->
  slot_in_group t base i = base + i.
Proof.
  unfold slot_in_group, GROUP_SIZE. intros. apply Z.mod_small. lia.
Qed.

Lemma cands_at_contiguous (t : Table) g base :
  0 <= base -> base + GROUP_SIZE <= capacity_ t ->
  cands_at t g base = (fun i => mkCandidate g i (base + i)) <$> seqZ 0 16.
Proof.
  intros Hb Hc. unfold cands_at. apply Forall_fmap_ext_1, Forall_seqZ.
  intros i Hi. unfold GROUP_SIZE in Hi. by rewrite slot_contiguous by lia.
Qed.

Lemma filter_fmap {A B} (P : B -> bool) (f : A -> B) (l : list A) :
  List.filter P (f <$> l) = f <$> List.filter (fun x => P (f x)) l.
Proof.
  induction l as [|x l IH]; [done|]. csimpl.
  destruct (P (f x)); csimpl; by rewrite IH.
Qed.

Lemma cands_at_group (t : Table) g base c :
  c ∈ cands_at t g base ->
  group_idx c = g /\ 0 <= slot_offset c < 16
  /\ table_idx c = slot_in_group t base (slot_offset c).
Proof.
  unfold cands_at. intros (i & -> & Hi)%list_elem_of_fmap.
  apply elem_of_seqZ in Hi. unfold GROUP_SIZE in Hi. simpl. lia.
Qed.

Lemma probe_list_elem (t : Table) h gs c :
  c ∈ probe_list t h gs ->
  group_idx c ∈ gs /\ 0 <= slot_offset c < 16
  /\ table_idx c
     = slot_in_group t (group_base t h (group_idx c)) (slot_offset c).
Proof.
  unfold probe_list. intros (g & Hc & Hg)%list_elem_of_bind.
  apply cands_at_group in Hc as (-> & ? & ?). done.
Qed.

Lemma probe_list_range (t : Table) h gs c :
  1 <= capacity_ t -> c ∈ probe_list t h gs -> 0 <= table_idx c < capacity_ t.
Proof.
  intros Hc (_ & _ & ->)%probe_list_elem. by apply slot_in_group_range.
Qed.

Lemma probe_list_app (t : Table) h gs1 gs2 :
  probe_list t h (gs1 ++ gs2) = probe_list t h gs1 ++ probe_list t h gs2.
Proof. unfold probe_list. apply bind_app. Qed.

Lemma probe_list_cons (t : Table) h g gs :
  probe_list t h (g :: gs)
  = cands_at t g (group_base t h g) ++ probe_list t h gs.
Proof. reflexivity. Qed.

(** *** A contiguous group: the masks and their loops *)

Lemma first_key_match_hits (t : Table) k meta g (slot : Z -> Z) l :
  first_key_match t k slot
    (List.filter (fun i => meta_at t (slot i) =? meta) l)
  = table_idx
      <$> head (hits t k meta ((fun i => mkCandidate g i (slot i)) <$> l)).
Proof.
  unfold hits. induction l as [|i l IH]; [done|].
  cbn [List.filter fmap list_fmap]. unfold hit_at at 1. simpl.
  destruct (meta_at t (slot i) =? meta); simpl; [|done].
  case_bool_decide; simpl; done.
Qed.

Section Contiguous.

Variables (t : Table) (g base : Z).
Hypothesis Hwf : wf t.
Hypothesis Hbase : 0 <= base.
Hypothesis Hfit : base + GROUP_SIZE <= capacity_ t.

Lemma contiguous_in_bounds :
  (Z.to_nat base + 16 <= length (metadata_ t))%nat.
Proof. destruct Hwf as (? & -> & _). unfold GROUP_SIZE in Hfit. lia. Qed.

Lemma simd_match k meta :
  match_loop t k base 16 (match_mask_of t base meta)
  = table_idx <$> head (hits t k meta (cands_at t g base)).
Proof.
  unfold match_mask_of.
  rewrite mask_of_loadu by (done || apply contiguous_in_bounds).
  rewrite match_loop_bits by (rewrite length_fmap, length_seqZ; lia).
  rewrite (set_bits_seqZ _ 16 0), cands_at_contiguous by done.
  apply (first_key_match_hits t k meta g (Z.add base)).
Qed.

Lemma empties_contiguous :
  empties t (cands_at t g base)
  = (fun i => mkCandidate g i (base + i))
      <$> List.filter (fun i => meta_at t (base + i) =? EMPTY) (seqZ 0 16).
Proof.
  rewrite cands_at_contiguous by done. unfold empties.
  by rewrite filter_fmap.
Qed.

Lemma simd_collect cands :
  collect_loop g base 16 (empty_mask_of t base) cands
  = cands ++ empties t (cands_at t g base).
Proof.
  unfold empty_mask_of.
  rewrite mask_of_loadu by (done || apply contiguous_in_bounds).
  rewrite collect_loop_bits by (rewrite length_fmap, length_seqZ; lia).
  by rewrite (set_bits_seqZ _ 16 0), empties_contiguous.
Qed.

Lemma simd_empty_zero :
  empty_mask_of t base = 0 <-> empties t (cands_at t g base) = [].
Proof.
  unfold empty_mask_of.
  rewrite mask_of_loadu by (done || apply contiguous_in_bounds).
  rewrite shifted_mask_zero, (set_bits_seqZ _ 16 0), empties_contiguous.
  change (Z.of_nat 16) with 16.
  split; [by intros ->|]. by intros ?%fmap_nil_inv.
Qed.

Lemma simd_empty_ctz c r :
  empties t (cands_at t g base) = c :: r ->
  base + builtin_ctz (empty_mask_of t base) = table_idx c
  /\ group_idx c = g.
Proof.
  rewrite empties_contiguous. unfold empty_mask_of.
  rewrite mask_of_loadu by (done || apply contiguous_in_bounds).
  destruct (List.filter _ (seqZ 0 16)) as [|i l] eqn:E; [done|].
  intros [= <- _]. split; [|done]. cbn [table_idx]. f_equal.
  eapply shifted_mask_ctz. rewrite (set_bits_seqZ _ 16 0). exact E.
Qed.

End Contiguous.


(** *** Scalar and match-first scans of a list of positions *)

Lemma scan_list_app (t : Table) k meta l1 l2 :
  scan_list t k meta (l1 ++ l2)
  = match scan_list t k meta l1 with
    | Some a => Some a
    | None => scan_list t k meta l2
    end.
Proof.
  induction l1 as [|c l1 IH]; [done|]. simpl.
  destruct (empty_at t (table_idx c)); [done|].
  destruct (hit_at t k meta (table_idx c)); done.
Qed.

Lemma hits_app (t : Table) k meta l1 l2 :
  hits t k meta (l1 ++ l2) = hits t k meta l1 ++ hits t k meta l2.
Proof. apply List.filter_app. Qed.

Lemma empties_app (t : Table) l1 l2 :
  empties t (l1 ++ l2) = empties t l1 ++ empties t l2.
Proof. apply List.filter_app. Qed.

Lemma scalar_scan_list (t : Table) k meta base g offs :
  scalar_scan t k meta base g offs
  = scan_list t k meta
      ((fun i => mkCandidate g i (slot_in_group t base i)) <$> offs).
Proof.
  induction offs as [|i offs IH]; [done|]. csimpl.
  unfold empty_at, hit_at. by rewrite IH.
Qed.

Lemma fallback_loop_list (t : Table) k h meta gs :
  fallback_loop t k h meta gs = scan_list t k meta (probe_list t h gs).
Proof.
  induction gs as [|g gs IH]; [done|].
  rewrite probe_list_cons, scan_list_app. cbn [fallback_loop].
  by rewrite scalar_scan_list, IH.
Qed.

Lemma first_group_list (t : Table) k h meta :
  wf t ->
  first_group t k h meta
  = if group_base t h 0 + GROUP_SIZE <=? capacity_ t
    then simd_list t k meta (cands_at t 0 (group_base t h 0))
    else scan_list t k meta (cands_at t 0 (group_base t h 0)).
Proof.
  intros Hwf. unfold first_group.
  pose proof (group_base_range t h 0 (proj1 Hwf)) as [Hb _].
  destruct (Z.leb_spec (group_base t h 0 + GROUP_SIZE) (capacity_ t))
    as [Hfit|_]; [|apply scalar_scan_list].
  rewrite (simd_match t 0) by done. unfold simd_list.
  destruct (hits t k meta (cands_at t 0 (group_base t h 0))) as [|c r];
    [|done]. simpl.
  destruct (empties t (cands_at t 0 (group_base t h 0))) as [|c r] eqn:E.
  - apply (simd_empty_zero t 0) in E; [|done..]. by rewrite E.
  - destruct (simd_empty_ctz t 0 _ Hwf Hb Hfit c r E) as [-> ->].
    destruct (Z.eqb_spec (empty_mask_of t (group_base t h 0)) 0) as [Z0|_];
      [|done].
    apply (simd_empty_zero t 0) in Z0; [|done..]. by rewrite Z0 in E.
Qed.

(** *** The candidate window *)

Lemma collect_loop_length g base fuel : forall mask cands,
  (length (collect_loop g base fuel mask cands) <= length cands + fuel)%nat.
Proof.
  induction fuel as [|fuel IH]; intros mask cands; simpl; [lia|].
  destruct (mask =? 0); [lia|].
  etrans; [apply IH|]. rewrite length_app. simpl. lia.
Qed.

Lemma scalar_collect_length (t : Table) k meta base g offs : forall cands,
  (length match scalar_collect t k meta base g offs cands with
          | inl (_, cs) => cs
          | inr cs => cs
          end
   <= length cands + length offs)%nat.
Proof.
  induction offs as [|i offs IH]; intros cands; simpl; [lia|].
  destruct (meta_at t _ =? EMPTY).
  - etrans; [apply IH|]. rewrite length_app. simpl. lia.
  - destruct (_ && _); simpl; [lia|]. etrans; [apply IH|]. lia.
Qed.

Lemma window_loop_bound (t : Table) k h meta gs : forall cands,
  (length cands + 16 * length gs <= 128)%nat ->
  (length (recorded (window_loop t k h meta gs cands))
   <= length cands + 16 * length gs)%nat
  /\ stopped_by_cap (window_loop t k h meta gs cands) = false.
Proof.
  induction gs as [|g gs IH]; intros cands Hlen.
  - simpl. split; [lia|done].
  - cbn [window_loop]. cbn [length] in *.
    destruct (Z.ltb_spec (Z.of_nat (length cands)) 128) as [_|?]; [|lia].
    destruct (group_base t h g + GROUP_SIZE <=? capacity_ t).
    + destruct (match_loop t k (group_base t h g) 16
                  (match_mask_of t (group_base t h g) meta));
        cbn [recorded stopped_by_cap]; [split; [lia|done]|].
      pose proof (collect_loop_length g (group_base t h g) 16
                    (empty_mask_of t (group_base t h g)) cands).
      destruct (IH (collect_loop g (group_base t h g) 16
                      (empty_mask_of t (group_base t h g)) cands)) as [? ?];
        [lia|]. split; [lia|done].
    + pose proof (scalar_collect_length t k meta (group_base t h g) g
                    (seqZ 0 GROUP_SIZE) cands) as Hs.
      rewrite length_seqZ in Hs.
      change (Z.to_nat GROUP_SIZE) with 16%nat in Hs.
      destruct (scalar_collect t k meta (group_base t h g) g
                  (seqZ 0 GROUP_SIZE) cands) as [[idx cs]|cs];
        cbn [recorded stopped_by_cap]; [split; [lia|done]|].
      destruct (IH cs) as [? ?]; [lia|]. split; [lia|done].
Qed.

Lemma max_groups_to_check_le (t : Table) : max_groups_to_check t <= 8.
Proof.
  unfold max_groups_to_check.
  destruct (load_high t);
    [destruct (Z.gtb_spec 8 (max_groups t))
    |destruct (Z.gtb_spec 4 (max_groups t))]; lia.
Qed.

Lemma scalar_collect_list (t : Table) k meta base g offs :
  meta <> EMPTY -> forall cands,
  let l := (fun i => mkCandidate g i (slot_in_group t base i)) <$> offs in
  match hits t k meta l with
  | c :: _ => exists cs,
      scalar_collect t k meta base g offs cands = inl (table_idx c, cs)
  | [] =>
      scalar_collect t k meta base g offs cands
      = inr (cands ++ empties t l)
  end.
Proof.
  intros Hmeta. induction offs as [|i offs IH]; intros cands; csimpl.
  - by rewrite app_nil_r.
  - unfold hits, empties in *. csimpl. unfold hit_at at 1, empty_at at 1.
    cbn [table_idx].
    destruct (Z.eqb_spec (meta_at t (slot_in_group t base i)) EMPTY) as [E|E].
    + rewrite E. destruct (Z.eqb_spec EMPTY meta) as [?|_]; [done|]. simpl.
      specialize (IH (cands ++ [mkCandidate g i (slot_in_group t base i)])).
      simpl in IH. destruct (List.filter _ _); [|done].
      by rewrite IH, <- app_assoc.
    + destruct (_ && _); simpl; [by eexists|]. apply IH.
Qed.

Lemma window_loop_list (t : Table) k h meta gs :
  wf t -> meta <> EMPTY -> forall cands,
  (length cands + 16 * length gs <= 128)%nat ->
  match hits t k meta (probe_list t h gs) with
  | c :: _ => exists cs,
      window_loop t k h meta gs cands = WUpdated (table_idx c) cs
  | [] =>
      window_loop t k h meta gs cands
      = WDone (cands ++ empties t (probe_list t h gs)) false
  end.
Proof.
  intros Hwf Hmeta. induction gs as [|g gs IH]; intros cands Hlen.
  - simpl. by rewrite app_nil_r.
  - rewrite probe_list_cons, hits_app, empties_app.
    cbn [window_loop]. simpl in Hlen.
    destruct (Z.ltb_spec (Z.of_nat (length cands)) 128) as [_|?]; [|lia].
    pose proof (group_base_range t h g (proj1 Hwf)) as [Hb _].
    pose proof (filter_length_le (fun c => empty_at t (table_idx c))
                  (cands_at t g (group_base t h g))) as Hle.
    unfold cands_at in Hle at 2. rewrite length_fmap, length_seqZ in Hle.
    change (Z.to_nat GROUP_SIZE) with 16%nat in Hle.
    fold (empties t (cands_at t g (group_base t h g))) in Hle.
    destruct (Z.leb_spec (group_base t h g + GROUP_SIZE) (capacity_ t))
      as [Hfit|_].
    + rewrite (simd_match t g) by done.
      destruct (hits t k meta (cands_at t g (group_base t h g))) as [|c r];
        cbn [fmap option_fmap option_map head app]; [|by eexists].
      rewrite (simd_collect t g) by done.
      specialize (IH (cands ++ empties t (cands_at t g (group_base t h g)))).
      rewrite length_app in IH.
      destruct (hits t k meta (probe_list t h gs)); [|apply IH; lia].
      rewrite IH by lia. by rewrite <- app_assoc.
    + pose proof (scalar_collect_list t k meta (group_base t h g) g
                    (seqZ 0 GROUP_SIZE) Hmeta cands) as Hs.
      cbv zeta in Hs. fold (cands_at t g (group_base t h g)) in Hs.
      destruct (hits t k meta (cands_at t g (group_base t h g))) as [|c r];
        cbn [app].
      * rewrite Hs.
        specialize (IH (cands ++ empties t (cands_at t g (group_base t h g)))).
        rewrite length_app in IH.
        destruct (hits t k meta (probe_list t h gs)); [|apply IH; lia].
        rewrite IH by lia. by rewrite <- app_assoc.
      * destruct Hs as [cs ->]. by eexists.
Qed.


(** *** The best candidate is the first one recorded *)

Lemma lex_lt_asym c1 c2 : lex_lt c1 c2 -> ~ lex_lt c2 c1.
Proof. unfold lex_lt. lia. Qed.

Lemma best_loop_first cands indices :
  (forall i, i ∈ indices -> ~ lex_lt (cands !!! i) (cands !!! 0%nat)) ->
  best_loop cands indices 0 = 0%nat.
Proof.
  induction indices as [|i indices IH]; intros Hall; [done|].
  cbn [best_loop].
  destruct (_ || _) eqn:E.
  - exfalso. apply (Hall i); [left|]. unfold lex_lt.
    apply orb_prop in E as [E|E]; [left; lia|right].
    apply andb_prop in E as [E1 E2]. lia.
  - apply IH. intros j Hj. apply Hall. by right.
Qed.

Lemma best_candidate_sorted c l :
  StronglySorted lex_lt (c :: l) -> best_candidate (c :: l) = c.
Proof.
  intros [_ Hall]%StronglySorted_inv. unfold best_candidate.
  rewrite best_loop_first; [done|].
  intros i Hi%elem_of_seq. cbn [length] in Hi.
  rewrite lookup_total_cons_ne_0 by lia.
  apply lex_lt_asym. cbn. rewrite Forall_forall in Hall. apply Hall.
  apply list_elem_of_lookup_total_2. lia.
Qed.

Lemma seq_sorted n : forall s, StronglySorted lt (seq s n).
Proof.
  induction n as [|n IH]; intros s; simpl; constructor; [apply IH|].
  apply Forall_forall. intros x Hx%elem_of_seq. lia.
Qed.

Lemma seqZ_sorted a n : StronglySorted Z.lt (seqZ a n).
Proof.
  unfold seqZ. eapply StronglySorted_fmap; [|apply seq_sorted].
  intros x y Hxy. simpl in Hxy. lia.
Qed.

Lemma cands_at_sorted (t : Table) g base :
  StronglySorted lex_lt (cands_at t g base).
Proof.
  unfold cands_at. eapply StronglySorted_fmap; [|apply seqZ_sorted].
  intros x y Hxy. right. simpl. lia.
Qed.

Lemma probe_list_sorted (t : Table) h a n :
  StronglySorted lex_lt (probe_list t h (seqZ a n)).
Proof.
  remember (Z.to_nat n) as m eqn:Hm. revert a n Hm.
  induction m as [|m IH]; intros a n Hm.
  - rewrite seqZ_nil by lia. constructor.
  - rewrite seqZ_cons, probe_list_cons by lia.
    apply StronglySorted_app_2;
      [|apply cands_at_sorted|apply IH; lia].
    intros x1 x2 (E1 & _)%cands_at_group (E2 & _)%probe_list_elem.
    apply elem_of_seqZ in E2. left. lia.
Qed.

Lemma filter_sorted {A} (R : A -> A -> Prop) f l :
  StronglySorted R l -> StronglySorted R (List.filter f l).
Proof.
  induction 1 as [|x l _ IH Hall]; simpl; [constructor|].
  destruct (f x); [|done]. constructor; [done|].
  rewrite Forall_forall in *. intros y Hy.
  apply list_elem_of_In, filter_In in Hy as [Hy _].
  by apply Hall, list_elem_of_In.
Qed.

(** *** insert on the probe list *)

Lemma insert_action_list (t : Table) k :
  wf t ->
  let h := hash_with_salt hasher t k in
  let meta := make_metadata h in
  let w := max_groups_to_check t in
  insert_action hasher t k
  = match first_group t k h meta with
    | Some a => Some a
    | None =>
        match simd_list t k meta (probe_list t h (seqZ 1 (w - 1))) with
        | Some a => Some a
        | None =>
            scan_list t k meta (probe_list t h (seqZ w (max_groups t - w)))
        end
    end.
Proof.
  intros Hwf h meta w. unfold insert_action. fold h meta w.
  destruct (first_group t k h meta); [done|].
  unfold window, EARLY_EXIT_GROUPS. fold w.
  pose proof (max_groups_to_check_le t) as Hw. fold w in Hw.
  pose proof (window_loop_list t k h meta (seqZ 1 (w - 1)) Hwf
                (make_metadata_nonzero h) []) as Hwin.
  rewrite length_seqZ in Hwin. cbn [length app] in Hwin.
  specialize (Hwin ltac:(lia)). unfold simd_list.
  destruct (hits t k meta (probe_list t h (seqZ 1 (w - 1)))) as [|c r].
  - rewrite Hwin.
    pose proof (filter_sorted lex_lt (fun c => empty_at t (table_idx c)) _
                  (probe_list_sorted t h 1 (w - 1))) as Hs.
    fold (empties t (probe_list t h (seqZ 1 (w - 1)))) in Hs.
    destruct (empties t (probe_list t h (seqZ 1 (w - 1)))) as [|c r].
    + simpl. apply fallback_loop_list.
    + cbn [length]. destruct (Z.ltb_spec 0 (Z.of_nat (S (length r))));
        [|lia]. by rewrite best_candidate_sorted.
  - destruct Hwin as [cs ->]. done.
Qed.

(** *** Slot-by-slot order against match-first order *)

Lemma hits_nil (t : Table) k meta l :
  hits t k meta l = []
  <-> Forall (fun c => hit_at t k meta (table_idx c) = false) l.
Proof.
  unfold hits. induction l as [|c l IH]; simpl; [by split|].
  rewrite Forall_cons. destruct (hit_at t k meta (table_idx c)).
  - split; [done|]. by intros [? _].
  - rewrite IH. split; [done|]. by intros [_ ?].
Qed.

Lemma empties_nil (t : Table) l :
  empties t l = []
  <-> Forall (fun c => empty_at t (table_idx c) = false) l.
Proof.
  unfold empties. induction l as [|c l IH]; simpl; [by split|].
  rewrite Forall_cons. destruct (empty_at t (table_idx c)).
  - split; [done|]. by intros [? _].
  - rewrite IH. split; [done|]. by intros [_ ?].
Qed.

Lemma scan_list_None (t : Table) k meta l :
  scan_list t k meta l = None
  <-> hits t k meta l = [] /\ empties t l = [].
Proof.
  rewrite hits_nil, empties_nil.
  induction l as [|c l IH]; simpl; [by split|].
  rewrite !Forall_cons.
  destruct (empty_at t (table_idx c)); [split; [done|by intros [_ [? _]]]|].
  destruct (hit_at t k meta (table_idx c));
    [split; [done|by intros [[? _] _]]|].
  rewrite IH. split; [by intros [? ?]|by intros [[_ ?] [_ ?]]].
Qed.

Lemma simd_list_None (t : Table) k meta l :
  simd_list t k meta l = None
  <-> hits t k meta l = [] /\ empties t l = [].
Proof.
  unfold simd_list.
  destruct (hits t k meta l); [|split; [done|by intros [? _]]].
  destruct (empties t l); [done|]. split; [done|by intros [_ ?]].
Qed.

Lemma simd_scan_no_hits (t : Table) k meta l :
  hits t k meta l = [] -> simd_list t k meta l = scan_list t k meta l.
Proof.
  unfold simd_list. intros Hh. rewrite Hh. apply hits_nil in Hh.
  unfold empties. induction Hh as [|c l Hc _ IH]; simpl; [done|].
  rewrite Hc. by destruct (empty_at t (table_idx c)).
Qed.

Lemma scan_overwrite_simd (t : Table) k meta l idx :
  scan_list t k meta l = Some (Overwrite idx) ->
  simd_list t k meta l = Some (Overwrite idx).
Proof.
  unfold simd_list, hits, empties. induction l as [|c l IH]; simpl; [done|].
  destruct (empty_at t (table_idx c)); [done|].
  destruct (hit_at t k meta (table_idx c)); [done|]. apply IH.
Qed.

Lemma scan_overwrite_hit (t : Table) k meta l idx :
  scan_list t k meta l = Some (Overwrite idx) ->
  exists c, c ∈ l /\ table_idx c = idx /\ hit_at t k meta idx = true
            /\ empty_at t idx = false.
Proof.
  induction l as [|c l IH]; simpl; [done|].
  destruct (empty_at t (table_idx c)) eqn:E; [done|].
  destruct (hit_at t k meta (table_idx c)) eqn:Hh.
  - intros [= <-]. exists c. split; [left|done].
  - intros (c' & ? & ?)%IH. exists c'. split; [by right|done].
Qed.

(** When a slot of the probe list holds the key only after positions that
    are all occupied, or no slot holds it, [insert] acts on the first
    position that is empty or holds the key. *)
Lemma insert_action_scan (t : Table) k :
  wf t ->
  let h := hash_with_salt hasher t k in
  let meta := make_metadata h in
  let w := max_groups_to_check t in
  let L := cands_at t 0 (group_base t h 0)
           ++ probe_list t h (seqZ 1 (w - 1))
           ++ probe_list t h (seqZ w (max_groups t - w)) in
  (exists idx, scan_list t k meta L = Some (Overwrite idx))
  \/ hits t k meta L = [] ->
  insert_action hasher t k = scan_list t k meta L.
Proof.
  intros Hwf h meta w L HG. rewrite insert_action_list by done.
  fold h meta w. rewrite first_group_list by done. unfold L in *.
  rewrite !scan_list_app.
  set (A := cands_at t 0 (group_base t h 0)) in *.
  set (B := probe_list t h (seqZ 1 (w - 1))) in *.
  set (C := probe_list t h (seqZ w (max_groups t - w))) in *.
  destruct HG as [[idx HG]|HG].
  - rewrite !scan_list_app in HG.
    destruct (scan_list t k meta A) as [[i|i g]|] eqn:EA.
    + rewrite (scan_overwrite_simd _ _ _ _ _ EA). by destruct (_ <=? _).
    + done.
    + apply scan_list_None in EA as EA'. apply simd_list_None in EA'.
      rewrite EA'. destruct (scan_list t k meta B) as [[i|i g]|] eqn:EB.
      * rewrite (scan_overwrite_simd _ _ _ _ _ EB). by destruct (_ <=? _).
      * done.
      * apply scan_list_None in EB as EB'. apply simd_list_None in EB'.
        rewrite EB'. by destruct (_ <=? _).
  - rewrite !hits_app in HG.
    apply app_eq_nil in HG as [HA [HB _]%app_eq_nil].
    rewrite !simd_scan_no_hits by done. by destruct (_ <=? _).
Qed.


(** *** Reading the vectors after a write *)

Lemma default_lookup_insert {A} (d x : A) (l : list A) (i j : nat) :
  default d (<[i:=x]> l !! j)
  = if decide (i = j /\ (i < length l)%nat) then x else default d (l !! j).
Proof.
  case_decide as H.
  - destruct H as [-> ?]. by rewrite list_lookup_insert_eq.
  - destruct (decide (i = j)) as [->|].
    + rewrite list_insert_ge by lia. done.
    + by rewrite list_lookup_insert_ne.
Qed.

Section Writes.

Variables (t : Table) (idx : Z).
Hypothesis Hwf : wf t.
Hypothesis Hidx : 0 <= idx < capacity_ t.

Lemma meta_at_place g meta k v s :
  0 <= s ->
  meta_at (place t idx g meta k v) s
  = if decide (s = idx) then meta else meta_at t s.
Proof.
  intros Hs. unfold meta_at. cbn [metadata_ place].
  rewrite default_lookup_insert. destruct Hwf as (? & Hm & _).
  repeat case_decide; try done; lia.
Qed.

Lemma entry_at_place g meta k v s :
  0 <= s ->
  entry_at (place t idx g meta k v) s
  = if decide (s = idx) then mkEntry k v else entry_at t s.
Proof.
  intros Hs. unfold entry_at. cbn [table_ place].
  rewrite default_lookup_insert. destruct Hwf as (? & _ & Hm).
  repeat case_decide; try done; lia.
Qed.

Lemma entry_at_overwrite v s :
  0 <= s ->
  entry_at (overwrite t idx v) s
  = if decide (s = idx) then mkEntry (key (entry_at t idx)) v
    else entry_at t s.
Proof.
  intros Hs. unfold entry_at at 1. cbn [table_ overwrite].
  rewrite default_lookup_insert. destruct Hwf as (? & _ & Hm).
  repeat case_decide; try done; lia.
Qed.

Lemma key_at_overwrite v s :
  0 <= s -> key (entry_at (overwrite t idx v) s) = key (entry_at t s).
Proof.
  intros Hs. rewrite entry_at_overwrite by done.
  case_decide; by subst.
Qed.

Lemma wf_place g meta k v : wf (place t idx g meta k v).
Proof.
  destruct Hwf as (? & ? & ?). unfold wf. cbn.
  by rewrite !length_insert.
Qed.

Lemma wf_overwrite v : wf (overwrite t idx v).
Proof.
  destruct Hwf as (? & ? & ?). unfold wf. cbn. by rewrite !length_insert.
Qed.

Lemma empty_at_place_mono g meta k v s :
  meta <> EMPTY -> 0 <= s ->
  empty_at t s = false -> empty_at (place t idx g meta k v) s = false.
Proof.
  intros Hm Hs He. unfold empty_at in *. rewrite meta_at_place by done.
  case_decide; [by apply Z.eqb_neq|done].
Qed.

End Writes.

Lemma count_insert (l : list Z) : forall (i : nat) (b : Z),
  l !! i = Some EMPTY -> b <> EMPTY ->
  (length (List.filter (fun m => Z.eqb m EMPTY) (<[i:=b]> l)) + 1
   = length (List.filter (fun m => Z.eqb m EMPTY) l))%nat.
Proof.
  induction l as [|x l IH]; intros [|i] b Hl Hb; simplify_eq/=.
  - destruct (Z.eqb_spec b EMPTY); [done|]. lia.
  - destruct (x =? EMPTY); simpl; rewrite <- (IH i b) by done; lia.
Qed.

(** *** Splitting the probe sequence into the phases of [insert] *)

Lemma max_groups_to_check_range (t : Table) :
  1 <= max_groups t -> 1 <= max_groups_to_check t <= max_groups t.
Proof.
  unfold max_groups_to_check. intros.
  destruct (load_high t);
    [destruct (Z.gtb_spec 8 (max_groups t))
    |destruct (Z.gtb_spec 4 (max_groups t))]; lia.
Qed.

Lemma probe_list_split (t : Table) h a n1 n2 :
  0 <= n1 -> 0 <= n2 ->
  probe_list t h (seqZ a (n1 + n2))
  = probe_list t h (seqZ a n1) ++ probe_list t h (seqZ (a + n1) n2).
Proof. intros. by rewrite seqZ_app, probe_list_app. Qed.

Lemma probe_list_phases (t : Table) h w :
  1 <= w <= max_groups t ->
  cands_at t 0 (group_base t h 0)
  ++ probe_list t h (seqZ 1 (w - 1))
  ++ probe_list t h (seqZ w (max_groups t - w))
  = probe_list t h (seqZ 0 (max_groups t)).
Proof.
  intros Hw. rewrite (seqZ_cons 0) by lia. rewrite probe_list_cons.
  f_equal. replace (Z.pred (max_groups t)) with ((w - 1) + (max_groups t - w))
    by lia.
  rewrite probe_list_split by lia. do 2 f_equal. f_equal. lia.
Qed.

Lemma scan_place_split (t : Table) k meta l idx g :
  scan_list t k meta l = Some (Place idx g) ->
  exists l1 c l2,
    l = l1 ++ c :: l2 /\ table_idx c = idx /\ group_idx c = g
    /\ empty_at t idx = true
    /\ Forall (fun c' => empty_at t (table_idx c') = false) l1.
Proof.
  induction l as [|c l IH]; simpl; [done|].
  destruct (empty_at t (table_idx c)) eqn:E.
  - intros [= <- <-]. by exists [], c, l.
  - destruct (hit_at t k meta (table_idx c)); [done|].
    intros (l1 & c' & l2 & -> & ? & ? & ? & ?)%IH.
    exists (c :: l1), c', l2. split_and!; try done. by constructor.
Qed.

Lemma scan_full_prefix (t : Table) k meta l1 c l2 :
  Forall (fun c' => empty_at t (table_idx c') = false) l1 ->
  empty_at t (table_idx c) = false ->
  hit_at t k meta (table_idx c) = true ->
  exists idx, scan_list t k meta (l1 ++ c :: l2) = Some (Overwrite idx).
Proof.
  intros Hall He Hh. induction Hall as [|c' l1 Hc' _ IH]; simpl.
  - rewrite He, Hh. by eexists.
  - rewrite Hc'. destruct (hit_at t k meta (table_idx c')); [by eexists|].
    apply IH.
Qed.


(** *** Stored keys *)

Lemma hit_is_stored (t : Table) k meta s :
  meta <> EMPTY -> hit_at t k meta s = true ->
  empty_at t s = false /\ key (entry_at t s) = k.
Proof.
  unfold hit_at, empty_at. intros Hm [E1 E2]%andb_prop.
  apply Z.eqb_eq in E1. apply bool_decide_eq_true in E2.
  split; [|done]. rewrite E1. by apply Z.eqb_neq.
Qed.

Lemma stored_hit (t : Table) s :
  Inv hasher t -> 0 <= s < capacity_ t -> empty_at t s = false ->
  hit_at t (key (entry_at t s))
         (make_metadata (hash_with_salt hasher t (key (entry_at t s)))) s
  = true.
Proof.
  intros HI Hs He. destruct (inv_stored _ _ HI s Hs He) as [Hm _].
  unfold hit_at. rewrite Hm, Z.eqb_refl. by apply bool_decide_eq_true.
Qed.

Lemma stored_split (t : Table) s :
  Inv hasher t -> 0 <= s < capacity_ t -> empty_at t s = false ->
  exists l1 c l2,
    probe_list t (hash_with_salt hasher t (key (entry_at t s)))
               (seqZ 0 (max_groups t))
    = l1 ++ c :: l2
    /\ table_idx c = s
    /\ Forall (fun c' => empty_at t (table_idx c') = false) l1.
Proof.
  intros HI Hs He.
  destruct (inv_stored _ _ HI s Hs He) as [_ (l1 & c & l2 & HL & Hc & Hall)].
  pose proof (inv_groups _ _ HI) as Hg.
  exists l1, c, (l2 ++ probe_list t
                   (hash_with_salt hasher t (key (entry_at t s)))
                   (seqZ (0 + (max_group_used_ t + 1))
                         (max_groups t - (max_group_used_ t + 1)))).
  split; [|done].
  replace (max_groups t)
    with ((max_group_used_ t + 1) + (max_groups t - (max_group_used_ t + 1)))
    at 1 by lia.
  rewrite probe_list_split, HL by lia. by rewrite <- app_assoc.
Qed.

Lemma insert_action_present (t : Table) s :
  Inv hasher t -> 0 <= s < capacity_ t -> empty_at t s = false ->
  insert_action hasher t (key (entry_at t s)) = Some (Overwrite s).
Proof.
  intros HI Hs He. pose proof (inv_wf _ _ HI) as Hwf.
  pose proof (inv_groups _ _ HI) as Hg.
  destruct (stored_split t s HI Hs He) as (l1 & c & l2 & HL & Hc & Hall).
  pose proof (stored_hit t s HI Hs He) as Hh.
  set (k := key (entry_at t s)) in *.
  set (h := hash_with_salt hasher t k) in *.
  destruct (scan_full_prefix t k (make_metadata h) l1 c l2 Hall)
    as [idx Hscan]; [by rewrite Hc..|].
  pose proof (insert_action_scan t k Hwf) as Hact. cbv zeta in Hact.
  fold h in Hact.
  rewrite probe_list_phases, HL in Hact
    by (apply max_groups_to_check_range; lia).
  rewrite Hact, Hscan by (left; by eexists). do 2 f_equal.
  apply scan_overwrite_hit in Hscan as (c' & Hin & Hidx & Hhit & Hne).
  rewrite <- HL in Hin. apply probe_list_range in Hin; [|apply Hwf].
  apply hit_is_stored in Hhit as [_ Hk]; [|apply make_metadata_nonzero].
  apply (inv_unique _ _ HI); try done; by rewrite <- Hidx.
Qed.

Lemma no_hits_absent (t : Table) k s :
  Inv hasher t ->
  hits t k (make_metadata (hash_with_salt hasher t k))
       (probe_list t (hash_with_salt hasher t k) (seqZ 0 (max_groups t)))
  = [] ->
  0 <= s < capacity_ t -> empty_at t s = false ->
  key (entry_at t s) <> k.
Proof.
  intros HI Hh Hs He <-.
  destruct (stored_split t s HI Hs He) as (l1 & c & l2 & HL & Hc & Hall).
  rewrite HL in Hh. apply hits_nil, Forall_app in Hh as [_ Hh].
  apply Forall_cons in Hh as [Hh _].
  rewrite Hc, stored_hit in Hh; done.
Qed.

Lemma insert_action_absent (t : Table) k :
  Inv hasher t ->
  hits t k (make_metadata (hash_with_salt hasher t k))
       (probe_list t (hash_with_salt hasher t k) (seqZ 0 (max_groups t)))
  = [] ->
  insert_action hasher t k
  = scan_list t k (make_metadata (hash_with_salt hasher t k))
      (probe_list t (hash_with_salt hasher t k) (seqZ 0 (max_groups t))).
Proof.
  intros HI Hh. pose proof (inv_groups _ _ HI) as Hg.
  pose proof (insert_action_scan t k (inv_wf _ _ HI)) as Hact.
  cbv zeta in Hact.
  rewrite probe_list_phases in Hact
    by (apply max_groups_to_check_range; lia).
  apply Hact. by right.
Qed.

(** *** The invariant is preserved *)

Lemma inv_overwrite (t : Table) s v :
  Inv hasher t -> 0 <= s < capacity_ t -> Inv hasher (overwrite t s v).
Proof.
  intros HI Hs. pose proof (inv_wf _ _ HI) as Hwf.
  destruct HI as [_ Hlim Hg Hst Hun Hcnt Hmi Hsz]. split.
  - by apply wf_overwrite.
  - exact Hlim.
  - exact Hg.
  - intros s' Hs' He'. cbn [capacity_ overwrite] in Hs'.
    destruct (Hst s' Hs' He') as [Hm Hsp].
    unfold stored_ok. rewrite key_at_overwrite by (done || lia).
    split; [exact Hm|exact Hsp].
  - intros s1 s2 Hs1 Hs2 He1 He2. cbn [capacity_ overwrite] in Hs1, Hs2.
    rewrite !key_at_overwrite by (done || lia).
    by apply Hun.
  - exact Hcnt.
  - exact Hmi.
  - exact Hsz.
Qed.

Lemma inv_place (t : Table) k v idx g :
  Inv hasher t -> size_ t < max_inserts_ t ->
  hits t k (make_metadata (hash_with_salt hasher t k))
       (probe_list t (hash_with_salt hasher t k) (seqZ 0 (max_groups t)))
  = [] ->
  scan_list t k (make_metadata (hash_with_salt hasher t k))
    (probe_list t (hash_with_salt hasher t k) (seqZ 0 (max_groups t)))
  = Some (Place idx g) ->
  Inv hasher
      (place t idx g (make_metadata (hash_with_salt hasher t k)) k v).
Proof.
  intros HI Hsize Hh Hscan. pose proof (inv_wf _ _ HI) as Hwf.
  pose proof (inv_groups _ _ HI) as Hg.
  set (h := hash_with_salt hasher t k) in *.
  set (meta := make_metadata h) in *.
  assert (Hmeta : meta <> EMPTY) by apply make_metadata_nonzero.
  apply scan_place_split in Hscan
    as (l1 & c & l2 & HL & Hc & Hcg & Hempty & Hall).
  assert (Hin : c ∈ probe_list t h (seqZ 0 (max_groups t)))
    by (rewrite HL; apply elem_of_app; right; left).
  pose proof (probe_list_range t h _ c (proj1 Hwf) Hin) as Hidx.
  rewrite Hc in Hidx.
  apply probe_list_elem in Hin as (Hgin & _). rewrite Hcg in Hgin.
  apply elem_of_seqZ in Hgin.
  set (t' := place t idx g meta k v).
  set (mgu' := if g >? max_group_used_ t then g else max_group_used_ t).
  assert (Hmgu : max_group_used_ t <= mgu' /\ g <= mgu' < max_groups t)
    by (unfold mgu'; destruct (Z.gtb_spec g (max_group_used_ t)); lia).
  assert (Hmono : forall s, 0 <= s -> empty_at t s = false ->
                            empty_at t' s = false)
    by (intros; by apply empty_at_place_mono).
  assert (Hmono_all : forall l : list Candidate,
             (forall c', c' ∈ l -> 0 <= table_idx c') ->
             Forall (fun c' => empty_at t (table_idx c') = false) l ->
             Forall (fun c' => empty_at t' (table_idx c') = false) l).
  { intros l Hr Hl. rewrite Forall_forall in *. intros c' Hc'.
    apply Hmono; [by apply Hr|by apply Hl]. }
  assert (Hold : forall s, 0 <= s < capacity_ t -> s <> idx ->
                           empty_at t' s = empty_at t s
                           /\ entry_at t' s = entry_at t s).
  { intros s Hs Hne. unfold empty_at, t'.
    rewrite meta_at_place, entry_at_place by (done || lia).
    by rewrite !decide_False by done. }
  assert (Hnew_entry : entry_at t' idx = mkEntry k v)
    by (unfold t'; by rewrite entry_at_place, decide_True by (done || lia)).
  assert (Hnew_meta : meta_at t' idx = meta)
    by (unfold t'; by rewrite meta_at_place, decide_True by (done || lia)).
  split.
  - by apply wf_place.
  - exact (inv_limit _ _ HI).
  - change (max_group_used_ t') with mgu'.
    change (max_groups t') with (max_groups t). lia.
  - intros s Hs He. change (capacity_ t') with (capacity_ t) in Hs.
    unfold stored_ok. cbv zeta. change (max_group_used_ t') with mgu'.
    destruct (decide (s = idx)) as [->|Hne].
    + rewrite Hnew_entry. cbn [key].
      change (hash_with_salt hasher t' k) with h.
      split; [exact Hnew_meta|].
      change (probe_list t' h) with (probe_list t h).
      assert (HL' : probe_list t h (seqZ 0 (max_groups t))
                    = probe_list t h (seqZ 0 (mgu' + 1))
                      ++ probe_list t h (seqZ (0 + (mgu' + 1))
                                              (max_groups t - (mgu' + 1)))).
      { rewrite <- probe_list_split by lia. do 2 f_equal. lia. }
      rewrite HL in HL'. symmetry in HL'.
      apply app_eq_inv in HL' as [(r & Hr1 & Hr2)|(r & Hr1 & Hr2)].
      * destruct r as [|c0 r].
        -- exfalso. simpl in Hr2.
           assert (Hin2 : c ∈ probe_list t h
                            (seqZ (0 + (mgu' + 1))
                                  (max_groups t - (mgu' + 1))))
             by (rewrite <- Hr2; left).
           apply probe_list_elem in Hin2 as (Hin2 & _).
           apply elem_of_seqZ in Hin2. lia.
        -- simpl in Hr2. injection Hr2 as <- _.
           exists l1, c, r. split_and!; [done..|].
           apply Hmono_all; [|done]. intros c' Hc'.
           eapply (probe_list_range t h (seqZ 0 (mgu' + 1)));
             [apply Hwf|]. rewrite Hr1. apply elem_of_app. by left.
      * exfalso.
        assert (Hin2 : c ∈ probe_list t h
                         (seqZ (0 + (mgu' + 1))
                               (max_groups t - (mgu' + 1))))
          by (rewrite Hr2; apply elem_of_app; right; left).
        apply probe_list_elem in Hin2 as (Hin2 & _).
        apply elem_of_seqZ in Hin2. lia.
    + destruct (Hold s Hs Hne) as [He' Hent]. rewrite He' in He.
      rewrite Hent.
      change (hash_with_salt hasher t' (key (entry_at t s)))
        with (hash_with_salt hasher t (key (entry_at t s))).
      destruct (inv_stored _ _ HI s Hs He)
        as [Hm (l1' & c' & l2' & HL' & Hc' & Hall')].
      split.
      { unfold t'. rewrite meta_at_place, decide_False by (done || lia).
        exact Hm. }
      set (h' := hash_with_salt hasher t (key (entry_at t s))) in *.
      change (probe_list t' h') with (probe_list t h').
      exists l1', c',
        (l2' ++ probe_list t h' (seqZ (0 + (max_group_used_ t + 1))
                                      (mgu' - max_group_used_ t))).
      split_and!; [|done|].
      * replace (mgu' + 1)
          with ((max_group_used_ t + 1) + (mgu' - max_group_used_ t)) by lia.
        rewrite probe_list_split, HL' by lia. by rewrite <- app_assoc.
      * apply Hmono_all; [|done]. intros c0 Hc0.
        eapply (probe_list_range t h' (seqZ 0 (max_group_used_ t + 1)));
          [apply Hwf|]. rewrite HL'. apply elem_of_app. by left.
  - intros s1 s2 Hs1 Hs2 He1 He2 Hk.
    change (capacity_ t') with (capacity_ t) in Hs1, Hs2.
    assert (Hnew : forall s, 0 <= s < capacity_ t -> s <> idx ->
                             empty_at t' s = false ->
                             key (entry_at t' s) <> k).
    { intros s Hs Hne He. destruct (Hold s Hs Hne) as [He' ->].
      rewrite He' in He. by apply no_hits_absent. }
    assert (Hkidx : key (entry_at t' idx) = k) by by rewrite Hnew_entry.
    destruct (decide (s1 = idx)) as [->|Hn1];
      destruct (decide (s2 = idx)) as [->|Hn2]; [done|..].
    + exfalso. apply (Hnew s2 Hs2 Hn2 He2). by rewrite <- Hk.
    + exfalso. apply (Hnew s1 Hs1 Hn1 He1). by rewrite Hk.
    + destruct (Hold s1 Hs1 Hn1) as [E1 K1].
      destruct (Hold s2 Hs2 Hn2) as [E2 K2].
      rewrite E1 in He1. rewrite E2 in He2. rewrite K1, K2 in Hk.
      by apply (inv_unique _ _ HI).
  - pose proof (inv_count _ _ HI) as Hcount.
    unfold empty_count in *. cbn [metadata_ capacity_ size_ place t'].
    assert (Hl : metadata_ t !! Z.to_nat idx = Some EMPTY).
    { destruct Hwf as (_ & Hm & _).
      destruct (lookup_lt_is_Some_2 (metadata_ t) (Z.to_nat idx))
        as [x Hx]; [lia|].
      unfold empty_at, meta_at in Hempty. rewrite Hx in Hempty.
      simpl in Hempty. apply Z.eqb_eq in Hempty. by subst. }
    pose proof (count_insert (metadata_ t) (Z.to_nat idx) meta Hl Hmeta).
    lia.
  - exact (inv_max_inserts _ _ HI).
  - pose proof (inv_size _ _ HI). change (size_ t') with (size_ t + 1).
    change (max_inserts_ t') with (max_inserts_ t). lia.
Qed.


(** *** What [insert] does on a container satisfying the invariant *)

Lemma hits_cons_stored (t : Table) k h gs c r :
  wf t -> hits t k (make_metadata h) (probe_list t h gs) = c :: r ->
  0 <= table_idx c < capacity_ t
  /\ empty_at t (table_idx c) = false
  /\ key (entry_at t (table_idx c)) = k.
Proof.
  intros Hwf Hh.
  assert (Hin : In c (hits t k (make_metadata h) (probe_list t h gs)))
    by (rewrite Hh; by left).
  apply filter_In in Hin as [Hin Hhit]. apply list_elem_of_In in Hin.
  split; [by eapply probe_list_range; [apply Hwf|]|].
  by eapply hit_is_stored; [apply make_metadata_nonzero|].
Qed.

Lemma insert_spec (t : Table) k v :
  Inv hasher t -> insert_outcome hasher t k v (insert hasher t k v).
Proof.
  intros HI. pose proof (inv_wf _ _ HI) as Hwf. unfold insert.
  destruct (Z.geb_spec (size_ t) (max_inserts_ t)) as [Hge|Hlt];
    [by constructor|].
  set (h := hash_with_salt hasher t k). set (meta := make_metadata h).
  destruct (hits t k meta (probe_list t h (seqZ 0 (max_groups t))))
    as [|c r] eqn:Hh.
  - pose proof (fun s => no_hits_absent t k s HI Hh) as Habs.
    rewrite insert_action_absent by done. fold h meta.
    destruct (scan_list t k meta (probe_list t h (seqZ 0 (max_groups t))))
      as [[idx|idx g]|] eqn:Hscan.
    + apply scan_overwrite_hit in Hscan as (c & Hin & <- & Hhit & _).
      apply hits_nil in Hh. rewrite Forall_forall in Hh.
      apply Hh in Hin. congruence.
    + simpl. pose proof Hscan as Hsp.
      apply scan_place_split in Hsp as (l1 & c & l2 & HL & Hc & Hcg & He & _).
      assert (Hin : c ∈ probe_list t h (seqZ 0 (max_groups t)))
        by (rewrite HL; apply elem_of_app; right; left).
      pose proof (probe_list_range t h _ c (proj1 Hwf) Hin) as Hidx.
      apply probe_list_elem in Hin as (Hgin & _).
      apply elem_of_seqZ in Hgin. rewrite Hc in Hidx. rewrite Hcg in Hgin.
      apply insert_placed; done || lia.
    + by apply insert_exhausted.
  - destruct (hits_cons_stored t k h _ c r Hwf Hh) as (Hs & He & Hk).
    pose proof (insert_action_present t (table_idx c) HI Hs He) as Hact.
    rewrite Hk in Hact. rewrite Hact. simpl. by apply insert_updated.
Qed.

Lemma inv_insert (t : Table) k v :
  Inv hasher t -> Inv hasher (insert hasher t k v).1.
Proof.
  intros HI.
  destruct (insert_spec t k v HI)
    as [Hge|s Hlt Hs He Hk|idx g Hlt Habs Hscan Hidx He Hg|Hlt Habs Hscan];
    simpl; try done.
  - by apply inv_overwrite.
  - apply inv_place; try done.
    apply hits_nil, Forall_forall. intros c Hc.
    destruct (hit_at t k _ (table_idx c)) eqn:Hhit; [|done].
    apply hit_is_stored in Hhit as [He' Hk]; [|apply make_metadata_nonzero].
    exfalso. eapply Habs; [|done..].
    eapply probe_list_range; [apply HI|done].
Qed.

(** *** Construction *)

Lemma filter_replicate_empty n :
  List.filter (fun m => m =? EMPTY) (replicate n EMPTY) = replicate n EMPTY.
Proof. induction n as [|n IH]; [done|]. simpl. by rewrite IH. Qed.

Lemma new_construct capacity delta salt (t : Table) :
  new capacity delta salt = Some t
  <-> construct capacity delta salt = Constructed t.
Proof.
  unfold new. destruct (construct capacity delta salt); split; congruence.
Qed.

(** What the guard of the constructor lets through and the conversions
    accept: a finite [delta] strictly between 0 and 1. *)
Lemma new_delta capacity delta salt (t : Table) :
  new capacity delta salt = Some t ->
  exists d, decode delta = FFin d /\ (0 < d)%Q /\ (d < 1)%Q.
Proof.
  unfold new, construct. destruct (capacity =? 0); [done|].
  destruct (fle (decode delta) (FFin 0) || fle (FFin 1) (decode delta))
    eqn:Hg; [done|].
  apply orb_false_elim in Hg as [Hg0 Hg1].
  unfold trunc_delta_capacity.
  destruct (decode delta) as [|s|d] eqn:Hd.
  - done.
  - cbn [fmul]. destruct (of_size capacity) as [| |b]; cbn [to_size];
      [done|done|]. by destruct (Qeq_bool b 0).
  - intros _. exists d. split; [done|]. cbn [fle] in Hg0, Hg1. split.
    + apply Qnot_le_lt. intros Hle. apply Qle_bool_iff in Hle. congruence.
    + apply Qnot_le_lt. intros Hle. apply Qle_bool_iff in Hle. congruence.
Qed.

Lemma trunc_delta_capacity_range capacity delta d a :
  1 <= capacity -> decode delta = FFin d -> (0 < d)%Q -> (d < 1)%Q ->
  trunc_delta_capacity capacity delta = Some a ->
  0 <= a <= capacity - 1.
Proof.
  intros Hc Hd H0 H1. unfold trunc_delta_capacity. rewrite Hd.
  destruct (fmul (FFin d) (of_size capacity)) as [| |y] eqn:Hy; try done.
  intros Ha. pose proof (to_size_nonneg _ _ Ha) as Ha0.
  destruct (fmul_size_lt d capacity y Hc H0
              (decode_below_one delta d Hd H0 H1) Hy) as [Hy0 Hy1].
  apply to_size_Some in Ha; [|done]. subst a. split; [done|].
  assert (Qfloor y < capacity); [|lia]. rewrite Zlt_Qlt.
  eapply Qle_lt_trans; [apply Qfloor_le|done].
Qed.

Lemma new_Some capacity delta salt (t : Table) :
  0 <= capacity -> new capacity delta salt = Some t ->
  exists a n,
    1 <= capacity
    /\ trunc_delta_capacity capacity delta = Some a
    /\ trunc_probe_bound delta = Some n
    /\ 0 <= a <= capacity - 1 /\ 0 <= n
    /\ t = {| metadata_ := replicate (Z.to_nat capacity) EMPTY;
              table_ := replicate (Z.to_nat capacity)
                                  (mkEntry inhabitant inhabitant);
              capacity_ := capacity;
              size_ := 0;
              max_inserts_ := capacity - a;
              delta_ := delta;
              max_probe_limit_ :=
                (let m := if n <? GROUP_SIZE then GROUP_SIZE else n in
                 if m >? capacity then capacity else m);
              max_group_used_ := 0;
              salt_ := salt |}.
Proof.
  intros Hc Hnew.
  destruct (new_delta capacity delta salt t Hnew) as (d & Hd & Hd0 & Hd1).
  revert Hnew. unfold new, construct.
  destruct (Z.eqb_spec capacity 0) as [|Hne]; [done|].
  destruct (fle (decode delta) (FFin 0) || fle (FFin 1) (decode delta));
    [done|].
  destruct (trunc_delta_capacity capacity delta) as [a|] eqn:Ha; [|done].
  destruct (trunc_probe_bound delta) as [n|] eqn:Hn; [|done].
  intros [= <-]. exists a, n.
  split; [lia|]. split; [done|]. split; [done|]. split.
  { by apply (trunc_delta_capacity_range capacity delta d); [lia|..]. }
  split; [|done]. by apply (to_size_nonneg _ _ Hn).
Qed.

Lemma inv_new capacity delta salt (t : Table) :
  0 <= capacity -> new capacity delta salt = Some t -> Inv hasher t.
Proof.
  intros Hc Hnew.
  destruct (new_Some _ _ _ _ Hc Hnew)
    as (a & n & Hc1 & _ & _ & Ha & Hn & ->).
  assert (Hempty : forall s, 0 <= s < capacity ->
             replicate (Z.to_nat capacity) EMPTY !! Z.to_nat s = Some EMPTY)
    by (intros; apply lookup_replicate_2; lia).
  split; cbn [capacity_ size_ max_inserts_ delta_ max_probe_limit_
              max_group_used_].
  - unfold wf. cbn. rewrite !length_replicate. lia.
  - unfold GROUP_SIZE.
    destruct (Z.ltb_spec n 16);
      match goal with |- context [?a >? ?b] =>
        destruct (Z.gtb_spec a b) end; lia.
  - unfold max_groups, GROUP_SIZE.
    cbn [capacity_ max_probe_limit_].
    match goal with |- context [(?a + 16 - 1) / 16 <? _] =>
      assert (1 <= (a + 16 - 1) / 16) end.
    { apply Z.div_le_lower_bound; [lia|].
      destruct (Z.ltb_spec n 16);
        match goal with |- context [?a >? ?b] =>
          destruct (Z.gtb_spec a b) end; lia. }
    assert (1 <= (capacity + 16 - 1) / 16)
      by (apply Z.div_le_lower_bound; lia).
    match goal with |- context [?a <? ?b] =>
      destruct (Z.ltb_spec a b) end; lia.
  - intros s Hs He. unfold empty_at, meta_at in He. cbn in He.
    rewrite Hempty in He by done. done.
  - intros s1 s2 Hs1 _ He _ _. unfold empty_at, meta_at in He. cbn in He.
    rewrite Hempty in He by done. done.
  - unfold empty_count. cbn [metadata_].
    rewrite filter_replicate_empty, length_replicate. lia.
  - lia.
  - lia.
Qed.

Lemma inv_step (t : Table) op :
  Inv hasher t -> Inv hasher (step hasher t op).
Proof.
  intros HI. destruct op as [k v|k|k|k]; simpl; try done.
  - by apply inv_insert.
  - unfold index. destruct (find_slot hasher t k); simpl; [done|].
    by apply inv_insert.
Qed.

Lemma reachable_inv (t : Table) : reachable hasher t -> Inv hasher t.
Proof.
  induction 1 as [capacity delta salt t Hc Hnew|t op _ IH].
  - by eapply inv_new.
  - by apply inv_step.
Qed.


(** *** find on the probe list *)

Lemma find_scalar_list (t : Table) k meta base g offs :
  find_scalar t k meta base offs
  = find_list t k meta
      ((fun i => mkCandidate g i (slot_in_group t base i)) <$> offs).
Proof.
  induction offs as [|i offs IH]; [done|]. csimpl.
  unfold empty_at, hit_at. by rewrite IH.
Qed.

Lemma find_simd_eq (t : Table) k meta g base :
  wf t -> 0 <= base -> base + GROUP_SIZE <= capacity_ t ->
  find_simd t k meta base = find_simd_list t k meta (cands_at t g base).
Proof.
  intros Hwf Hb Hfit. unfold find_simd, find_simd_list.
  rewrite (simd_match t g) by done.
  destruct (hits t k meta (cands_at t g base)) as [|c r]; [|done].
  cbn [fmap option_fmap option_map head].
  destruct (empties t (cands_at t g base)) as [|c r] eqn:E.
  - apply (simd_empty_zero t g) in E; [|done..]. by rewrite E.
  - destruct (Z.eqb_spec (empty_mask_of t base) 0) as [Z0|_]; [|done].
    apply (simd_empty_zero t g) in Z0; [|done..]. by rewrite Z0 in E.
Qed.

Lemma find_group_list (t : Table) k h meta g :
  wf t ->
  find_group t k h meta g
  = if group_base t h g + GROUP_SIZE <=? capacity_ t
    then find_simd_list t k meta (cands_at t g (group_base t h g))
    else find_list t k meta (cands_at t g (group_base t h g)).
Proof.
  intros Hwf. unfold find_group.
  pose proof (group_base_range t h g (proj1 Hwf)) as [Hb _].
  destruct (Z.leb_spec (group_base t h g + GROUP_SIZE) (capacity_ t));
    [by apply find_simd_eq|apply find_scalar_list].
Qed.

Lemma find_list_full (t : Table) k meta l :
  Forall (fun c => empty_at t (table_idx c) = false) l ->
  (exists c, c ∈ l /\ hit_at t k meta (table_idx c) = true
             /\ find_list t k meta l = GFound (table_idx c))
  \/ (hits t k meta l = [] /\ find_list t k meta l = GNext).
Proof.
  unfold hits. induction 1 as [|c l Hc _ IH]; simpl; [by right|].
  rewrite Hc. destruct (hit_at t k meta (table_idx c)) eqn:Hh.
  - left. exists c. split; [left|done].
  - destruct IH as [(c' & ? & ? & ?)|[? ?]]; [left|by right].
    exists c'. split; [by right|done].
Qed.

Lemma find_list_prefix (t : Table) k meta l1 c l2 :
  Forall (fun c' => empty_at t (table_idx c') = false) l1 ->
  empty_at t (table_idx c) = false ->
  hit_at t k meta (table_idx c) = true ->
  exists c', c' ∈ l1 ++ c :: l2 /\ hit_at t k meta (table_idx c') = true
             /\ find_list t k meta (l1 ++ c :: l2) = GFound (table_idx c').
Proof.
  intros Hall He Hh. induction Hall as [|c0 l1 Hc0 _ IH]; simpl.
  - rewrite He, Hh. exists c. split; [left|done].
  - rewrite Hc0. destruct (hit_at t k meta (table_idx c0)) eqn:Hh0.
    + exists c0. split; [left|done].
    + destruct IH as (c' & ? & ? & ?). exists c'. split; [by right|done].
Qed.

Lemma find_simd_list_full (t : Table) k meta l :
  Forall (fun c => empty_at t (table_idx c) = false) l ->
  (exists c, c ∈ l /\ hit_at t k meta (table_idx c) = true
             /\ find_simd_list t k meta l = GFound (table_idx c))
  \/ (hits t k meta l = [] /\ find_simd_list t k meta l = GNext).
Proof.
  intros Hall. unfold find_simd_list.
  destruct (hits t k meta l) as [|c r] eqn:Hh.
  - right. apply empties_nil in Hall. by rewrite Hall.
  - left. exists c.
    assert (Hin : In c (hits t k meta l)) by (rewrite Hh; by left).
    apply filter_In in Hin as [Hin Hhit]. by apply list_elem_of_In in Hin.
Qed.

Lemma find_simd_list_hit (t : Table) k meta l c :
  c ∈ l -> hit_at t k meta (table_idx c) = true ->
  exists c', c' ∈ l /\ hit_at t k meta (table_idx c') = true
             /\ find_simd_list t k meta l = GFound (table_idx c').
Proof.
  intros Hin Hhit. unfold find_simd_list.
  destruct (hits t k meta l) as [|c' r] eqn:Hh.
  - apply hits_nil in Hh. rewrite Forall_forall in Hh.
    apply Hh in Hin. congruence.
  - exists c'.
    assert (Hin' : In c' (hits t k meta l)) by (rewrite Hh; by left).
    apply filter_In in Hin' as [Hin' Hhit'].
    by apply list_elem_of_In in Hin'.
Qed.

Lemma find_loop_prefix (t : Table) k h meta :
  wf t -> forall gs l1 c l2,
  probe_list t h gs = l1 ++ c :: l2 ->
  Forall (fun c' => empty_at t (table_idx c') = false) l1 ->
  empty_at t (table_idx c) = false ->
  hit_at t k meta (table_idx c) = true ->
  exists c', c' ∈ probe_list t h gs
             /\ hit_at t k meta (table_idx c') = true
             /\ find_loop t k h meta gs = Some (table_idx c').
Proof.
  intros Hwf. induction gs as [|g gs IH]; intros l1 c l2 HL Hall He Hh.
  - by destruct l1.
  - rewrite probe_list_cons in *. cbn [find_loop].
    rewrite find_group_list by done.
    set (A := cands_at t g (group_base t h g)) in *.
    assert (Hfull : Forall (fun c' => empty_at t (table_idx c') = false) A ->
              (exists c', c' ∈ A /\ hit_at t k meta (table_idx c') = true
                          /\ (if group_base t h g + GROUP_SIZE <=? capacity_ t
                              then find_simd_list t k meta A
                              else find_list t k meta A)
                             = GFound (table_idx c'))
              \/ (if group_base t h g + GROUP_SIZE <=? capacity_ t
                  then find_simd_list t k meta A
                  else find_list t k meta A) = GNext).
    { intros HA. destruct (_ <=? _).
      - destruct (find_simd_list_full t k meta A HA) as [?|[_ ?]];
          [by left|by right].
      - destruct (find_list_full t k meta A HA) as [?|[_ ?]];
          [by left|by right]. }
    apply app_eq_inv in HL as [(r & Hr1 & Hr2)|(r & Hr1 & Hr2)].
    + destruct r as [|c0 r].
      * rewrite app_nil_r in Hr1. subst l1. simpl in Hr2.
        destruct (Hfull Hall) as [(c' & Hin & Hhit & ->) | ->].
        -- exists c'. split; [apply elem_of_app; by left|done].
        -- destruct (IH [] c l2 (eq_sym Hr2)) as (c' & ? & ? & ?);
             [by constructor|done..|].
           exists c'. split; [apply elem_of_app; by right|done].
      * simpl in Hr2. injection Hr2 as -> Hr2.
        assert (exists c', c' ∈ A /\ hit_at t k meta (table_idx c') = true
                  /\ (if group_base t h g + GROUP_SIZE <=? capacity_ t
                      then find_simd_list t k meta A
                      else find_list t k meta A) = GFound (table_idx c'))
          as (c' & Hin & Hhit & ->).
        { destruct (_ <=? _).
          - apply (find_simd_list_hit t k meta A c0); [|done].
            rewrite Hr1. apply elem_of_app. right. left.
          - rewrite Hr1. by apply find_list_prefix. }
        exists c'. split; [apply elem_of_app; by left|done].
    + subst l1. apply Forall_app in Hall as [HA Hr].
      destruct (Hfull HA) as [(c' & Hin & Hhit & ->) | ->].
      * exists c'. split; [apply elem_of_app; by left|done].
      * destruct (IH r c l2 Hr2) as (c' & ? & ? & ?); [done..|].
        exists c'. split; [apply elem_of_app; by right|done].
Qed.

Lemma find_slot_stored (t : Table) s :
  Inv hasher t -> 0 <= s < capacity_ t -> empty_at t s = false ->
  find_slot hasher t (key (entry_at t s)) = Some s.
Proof.
  intros HI Hs He. pose proof (inv_wf _ _ HI) as Hwf.
  destruct (inv_stored _ _ HI s Hs He) as [_ (l1 & c & l2 & HL & Hc & Hall)].
  pose proof (stored_hit t s HI Hs He) as Hh.
  unfold find_slot.
  set (k := key (entry_at t s)) in *.
  set (h := hash_with_salt hasher t k) in *.
  destruct (find_loop_prefix t k h (make_metadata h) Hwf _ l1 c l2 HL Hall)
    as (c' & Hin & Hhit & ->); [by rewrite Hc..|].
  f_equal. apply probe_list_range in Hin; [|apply Hwf].
  apply hit_is_stored in Hhit as [He' Hk]; [|apply make_metadata_nonzero].
  by apply (inv_unique _ _ HI).
Qed.

Lemma find_stored (t : Table) s :
  Inv hasher t -> 0 <= s < capacity_ t -> empty_at t s = false ->
  find hasher t (key (entry_at t s)) = Some (value (entry_at t s)).
Proof. intros. unfold find. by rewrite find_slot_stored. Qed.


(** *** The SIMD lookup on the slots of a group *)

Lemma match_loop_wrapped_bits (t : Table) k base bs : forall (off fuel : nat),
  (length bs <= fuel)%nat ->
  match_loop_wrapped t k base fuel (2 ^ Z.of_nat off * mask_of bs)
  = first_key_match t k (slot_in_group t base) (set_bits (Z.of_nat off) bs).
Proof.
  induction bs as [|b r IH]; intros off fuel Hf.
  - simpl. rewrite Z.mul_0_r. by destruct fuel.
  - destruct b.
    + destruct fuel as [|fuel]; [simpl in Hf; lia|].
      cbn [mask_of set_bits first_key_match match_loop_wrapped Z.b2z].
      pose proof (mask_of_nonneg r) as Hr.
      assert (0 < 2 ^ Z.of_nat off) by (apply Z.pow_pos_nonneg; lia).
      destruct (Z.eqb_spec (2 ^ Z.of_nat off * (1 + 2 * mask_of r)) 0)
        as [E|_]; [nia|].
      rewrite ctz_shifted by done.
      case_bool_decide; [done|].
      rewrite land_pred_shifted, IH by (simpl in Hf; lia).
      by rewrite Nat2Z.inj_succ, <- Z.add_1_r.
    + cbn [mask_of set_bits].
      rewrite mask_shift_false, IH by (simpl in Hf; lia).
      by rewrite Nat2Z.inj_succ, <- Z.add_1_r.
Qed.

Lemma mask_of_gather (t : Table) base b :
  mm_movemask_epi8 (mm_cmpeq_epi8 (gather t base) (mm_set1_epi8 b))
  = 2 ^ Z.of_nat 0
    * mask_of ((fun i => meta_at t (slot_in_group t base i) =? b)
                 <$> seqZ 0 (Z.of_nat 16)).
Proof.
  change (2 ^ Z.of_nat 0) with 1. rewrite Z.mul_1_l.
  unfold mm_cmpeq_epi8, mm_set1_epi8, gather.
  rewrite movemask_cmpeq by (by rewrite length_fmap, length_seqZ).
  by rewrite <- list_fmap_compose.
Qed.

Lemma find_simd_wrapped_list (t : Table) k meta g base :
  find_simd_wrapped t k meta base
  = find_simd_list t k meta (cands_at t g base).
Proof.
  unfold find_simd_wrapped, find_simd_list. rewrite !mask_of_gather.
  rewrite match_loop_wrapped_bits by (rewrite length_fmap, length_seqZ; lia).
  rewrite (set_bits_seqZ _ 16 0).
  rewrite (first_key_match_hits t k meta g (slot_in_group t base)).
  change (seqZ 0 (Z.of_nat 16)) with (seqZ 0 GROUP_SIZE).
  fold (cands_at t g base).
  destruct (hits t k meta (cands_at t g base)) as [|c r]; [|done].
  cbn [fmap option_fmap option_map head].
  set (m := 2 ^ Z.of_nat 0
            * mask_of ((fun i => meta_at t (slot_in_group t base i) =? EMPTY)
                         <$> seqZ 0 GROUP_SIZE)).
  assert (Hz : m = 0 <-> empties t (cands_at t g base) = []).
  { unfold m. change GROUP_SIZE with (Z.of_nat 16).
    rewrite shifted_mask_zero, (set_bits_seqZ _ 16 0).
    unfold empties, cands_at. rewrite filter_fmap. unfold empty_at.
    cbn [table_idx]. change (Z.of_nat 16) with GROUP_SIZE.
    split; [by intros ->|]. by intros ?%fmap_nil_inv. }
  destruct (empties t (cands_at t g base)) as [|c r].
  - rewrite (proj2 Hz eq_refl). done.
  - destruct (Z.eqb_spec m 0) as [Z0|_]; [|done]. by apply Hz in Z0.
Qed.

(** On a contiguous group it is the SIMD branch of [find]. *)
Lemma find_simd_wrapped_contiguous (t : Table) k meta base :
  wf t -> 0 <= base -> base + GROUP_SIZE <= capacity_ t ->
  find_simd_wrapped t k meta base = find_simd t k meta base.
Proof.
  intros. by rewrite (find_simd_wrapped_list t k meta 0),
            (find_simd_eq t k meta 0).
Qed.

Lemma find_list_no_hits (t : Table) k meta l :
  hits t k meta l = [] ->
  find_list t k meta l = find_simd_list t k meta l.
Proof.
  unfold find_simd_list. intros Hh. rewrite Hh. apply hits_nil in Hh.
  unfold empties. induction Hh as [|c l Hc _ IH]; simpl; [done|].
  rewrite Hc. destruct (empty_at t (table_idx c)); [done|].
  rewrite IH. done.
Qed.

(** *** Fields that no operation changes, and the high-water mark *)

Lemma insert_fields (t : Table) k v :
  capacity_ (insert hasher t k v).1 = capacity_ t
  /\ delta_ (insert hasher t k v).1 = delta_ t
  /\ max_inserts_ (insert hasher t k v).1 = max_inserts_ t
  /\ max_probe_limit_ (insert hasher t k v).1 = max_probe_limit_ t
  /\ max_group_used_ t <= max_group_used_ (insert hasher t k v).1.
Proof.
  unfold insert.
  destruct (size_ t >=? max_inserts_ t); [by split_and!|].
  destruct (insert_action hasher t k) as [[idx|idx g]|]; simpl;
    [by split_and!| |by split_and!].
  split_and!; try done. destruct (Z.gtb_spec g (max_group_used_ t)); lia.
Qed.

Lemma step_fields (t : Table) op :
  capacity_ (step hasher t op) = capacity_ t
  /\ delta_ (step hasher t op) = delta_ t
  /\ max_inserts_ (step hasher t op) = max_inserts_ t
  /\ max_probe_limit_ (step hasher t op) = max_probe_limit_ t
  /\ max_group_used_ t <= max_group_used_ (step hasher t op).
Proof.
  destruct op as [k v|k|k|k]; simpl; try by split_and!.
  - apply insert_fields.
  - unfold index. destruct (find_slot hasher t k); simpl; [by split_and!|].
    apply insert_fields.
Qed.

Lemma run_fields (t : Table) ops :
  capacity_ (run hasher t ops) = capacity_ t
  /\ delta_ (run hasher t ops) = delta_ t
  /\ max_inserts_ (run hasher t ops) = max_inserts_ t
  /\ max_probe_limit_ (run hasher t ops) = max_probe_limit_ t
  /\ max_group_used_ t <= max_group_used_ (run hasher t ops).
Proof.
  revert t. induction ops as [|op ops IH]; intros t; simpl;
    [by split_and!|].
  destruct (IH (step hasher t op)) as (-> & -> & -> & -> & ?).
  destruct (step_fields t op) as (-> & -> & -> & -> & ?).
  split_and!; try done. lia.
Qed.

Lemma reachable_run (t : Table) ops :
  reachable hasher t -> reachable hasher (run hasher t ops).
Proof.
  revert t. induction ops as [|op ops IH]; intros t Hr; simpl; [done|].
  apply IH. by constructor.
Qed.

(** *** Exhausted and non-exhausted probe sequences *)

Lemma probe_list_mem (t : Table) h gs g i :
  g ∈ gs -> 0 <= i < GROUP_SIZE ->
  mkCandidate g i (slot_in_group t (group_base t h g) i)
  ∈ probe_list t h gs.
Proof.
  intros Hg Hi. unfold probe_list. apply list_elem_of_bind. exists g.
  split; [|done]. unfold cands_at.
  apply (list_elem_of_fmap_2
           (fun i => mkCandidate g i (slot_in_group t (group_base t h g) i))).
  apply elem_of_seqZ. lia.
Qed.

Lemma probe_exhausted_scan (t : Table) k :
  scan_list t k (key_meta hasher t k)
    (probe_list t (hash_with_salt hasher t k) (seqZ 0 (max_groups t)))
  = None
  <-> probe_exhausted hasher t k.
Proof.
  rewrite scan_list_None, hits_nil, empties_nil, !Forall_forall.
  unfold probe_exhausted, probe_slot. split.
  - intros [Hh He] g i Hg Hi.
    pose proof (probe_list_mem t (hash_with_salt hasher t k)
                  (seqZ 0 (max_groups t)) g i) as Hin.
    rewrite elem_of_seqZ in Hin. specialize (Hin ltac:(lia) Hi).
    split; [apply (He _ Hin)|apply (Hh _ Hin)].
  - intros Hall. split; intros c (Hg & Hi & ->)%probe_list_elem;
      apply elem_of_seqZ in Hg; apply Hall; unfold GROUP_SIZE; lia.
Qed.

Lemma probe_has_empty_not_exhausted (t : Table) k :
  probe_has_empty hasher t k -> ~ probe_exhausted hasher t k.
Proof.
  intros (g & i & Hg & Hi & He) Hex.
  destruct (Hex g i Hg Hi) as [He' _]. congruence.
Qed.

Lemma absent_stored_somewhere (t : Table) k :
  stored_somewhere t k = false -> absent t k.
Proof.
  unfold stored_somewhere, absent. intros Hb s Hs He Hk.
  assert (existsb (fun s => negb (empty_at t s)
                            && bool_decide (key (entry_at t s) = k))
                  (seqZ 0 (capacity_ t)) = true); [|congruence].
  apply existsb_exists. exists s. split.
  - apply list_elem_of_In, elem_of_seqZ. lia.
  - rewrite He. simpl. by apply bool_decide_eq_true.
Qed.

Lemma cdiv_group a : (a + GROUP_SIZE - 1) / GROUP_SIZE = cdiv a GROUP_SIZE.
Proof.
  unfold cdiv, GROUP_SIZE.
  pose proof (Z.div_mod a 16 ltac:(lia)).
  pose proof (Z.mod_pos_bound a 16 ltac:(lia)).
  pose proof (Z.div_mod (- a) 16 ltac:(lia)).
  pose proof (Z.mod_pos_bound (- a) 16 ltac:(lia)).
  pose proof (Z.div_mod (a + 16 - 1) 16 ltac:(lia)).
  pose proof (Z.mod_pos_bound (a + 16 - 1) 16 ltac:(lia)).
  lia.
Qed.

(** *** The probe bound of the constructor and the exact one *)

Lemma trunc_delta_capacity_ge capacity delta d a :
  1 <= capacity <= 2 ^ 53 ->
  decode delta = FFin d -> (0 < d)%Q -> (d < 1)%Q ->
  trunc_delta_capacity capacity delta = Some a ->
  Qfloor (d * inject_Z capacity) <= a.
Proof.
  intros Hc Hd H0 H1. unfold trunc_delta_capacity. rewrite Hd.
  destruct (fmul (FFin d) (of_size capacity)) as [| |y] eqn:Hy; try done.
  intros Ha.
  destruct (fmul_size_lt d capacity y ltac:(lia) H0
              (decode_below_one delta d Hd H0 H1) Hy) as [Hy0 _].
  apply to_size_Some in Ha; [|done]. subst a.
  pose proof (fmul_size_ge d capacity y Hc H0 H1 Hy) as Hge.
  apply Qfloor_resp_le in Hge. by rewrite Qfloor_Z in Hge.
Qed.

Lemma trunc_probe_bound_brackets delta d k :
  log2_brackets std_log2 ->
  decode delta = FFin d -> (0 < d)%Q -> 0 <= k < 1023 ->
  (pow2 k <= / d)%Q -> (/ d <= pow2 (k + 1))%Q ->
  exists n, trunc_probe_bound delta = Some n /\ 4 * k <= n <= 4 * (k + 1).
Proof.
  intros Hlaw Hd H0 Hk Hlo Hhi. unfold trunc_probe_bound, C_const.
  rewrite Hd. by apply probe_bound_brackets.
Qed.

Lemma inv_delta_ge_1 delta :
  (0 < delta)%Q -> (delta < 1)%Q -> (1 <= Qpower (1 / delta) 4)%Q.
Proof.
  intros H0 H1. apply Qpower_1_le; [|done].
  unfold Qdiv. rewrite Qmult_1_l. apply Qle_shift_inv_l; [done|].
  rewrite Qmult_1_l. by apply Qlt_le_weak.
Qed.

Lemma ceil_probe_bound_spec delta :
  (0 < delta)%Q -> (delta < 1)%Q ->
  (Qpower (1 / delta) 4 <= inject_Z (2 ^ ceil_probe_bound delta))%Q
  /\ forall n, 0 <= n ->
       (Qpower (1 / delta) 4 <= inject_Z (2 ^ n))%Q ->
       ceil_probe_bound delta <= n.
Proof.
  intros H0 H1. pose proof (inv_delta_ge_1 delta H0 H1) as Hx.
  unfold ceil_probe_bound.
  set (x := Qpower (1 / delta) 4) in *.
  assert (Hm : 1 <= Qceiling x).
  { rewrite <- (Qceiling_Z 1). by apply Qceiling_resp_le. }
  split.
  - eapply Qle_trans; [apply Qle_ceiling|]. rewrite <- Zle_Qle.
    apply Z.log2_log2_up_spec. lia.
  - intros n Hn Hle. apply Qceiling_resp_le in Hle.
    rewrite Qceiling_Z in Hle.
    destruct (Z.eq_dec (Qceiling x) 1) as [->|Hne]; [by simpl|].
    apply Z.log2_up_le_pow2; lia.
Qed.


(** *** Sixteen rounds are enough for a sixteen-lane mask *)

Lemma match_loop_fuel (t : Table) k base (v : list Z) b fuel :
  (length v <= 16)%nat -> (16 <= fuel)%nat ->
  match_loop t k base fuel
             (mm_movemask_epi8 (mm_cmpeq_epi8 v (mm_set1_epi8 b)))
  = match_loop t k base 16
               (mm_movemask_epi8 (mm_cmpeq_epi8 v (mm_set1_epi8 b))).
Proof.
  intros Hv Hf. unfold mm_cmpeq_epi8, mm_set1_epi8.
  rewrite movemask_cmpeq by done.
  rewrite <- (Z.mul_1_l (mask_of _)). change 1 with (2 ^ Z.of_nat 0).
  by rewrite !match_loop_bits by (rewrite length_fmap; lia).
Qed.

Lemma collect_loop_fuel g base (v : list Z) b fuel cands :
  (length v <= 16)%nat -> (16 <= fuel)%nat ->
  collect_loop g base fuel
               (mm_movemask_epi8 (mm_cmpeq_epi8 v (mm_set1_epi8 b))) cands
  = collect_loop g base 16
                 (mm_movemask_epi8 (mm_cmpeq_epi8 v (mm_set1_epi8 b))) cands.
Proof.
  intros Hv Hf. unfold mm_cmpeq_epi8, mm_set1_epi8.
  rewrite movemask_cmpeq by done.
  rewrite <- (Z.mul_1_l (mask_of _)). change 1 with (2 ^ Z.of_nat 0).
  by rewrite !collect_loop_bits by (rewrite length_fmap; lia).
Qed.


End Facts.

(** ** Properties of the container *)

Section Properties.

Context {K V : Type} `{EqDecision K} `{!Inhabited K} `{!Inhabited V}.
Context {libm : MathLib}.
Variable hasher : K -> Z.

Abbreviation Table := (GroupedSIMDElastic K V).

(** C1.  On a reachable container, when [insert(k, v)] returns [true] a
    following [find(k)] returns the value [v].  Moreover every occupied
    slot of the resulting container is the slot [find] returns for the key
    it holds, and it lies within the first [max_group_used + 1] groups of
    that key's probe sequence, so the depth limit of the lookup does not make
    it miss a stored key. *)
Theorem insert_find_roundtrip (t : Table) (k : K) (v : V) :
  reachable hasher t ->
  (insert hasher t k v).2 = true ->
  find hasher (insert hasher t k v).1 k = Some v
  /\ forall s,
       0 <= s < capacity_ (insert hasher t k v).1 ->
       meta_at (insert hasher t k v).1 s <> EMPTY ->
       find_slot hasher (insert hasher t k v).1
                 (key (entry_at (insert hasher t k v).1 s)) = Some s
       /\ exists g i,
            0 <= g <= max_group_used_ (insert hasher t k v).1
            /\ 0 <= i < GROUP_SIZE
            /\ probe_slot hasher (insert hasher t k v).1
                          (key (entry_at (insert hasher t k v).1 s)) g i = s.
Proof.
  intros Hr Hok. pose proof (reachable_inv hasher t Hr) as HI.
  pose proof (inv_insert hasher t k v HI) as HI'.
  pose proof (inv_wf _ _ HI) as Hwf. split.
  - destruct (insert_spec hasher t k v HI)
      as [Hge|s Hlt Hs He Hk|idx g Hlt Habs Hscan Hidx He Hg|Hlt Habs Hscan];
      simpl in *; try done.
    + pose proof (find_stored hasher (overwrite t s v) s HI' Hs He) as Hf.
      rewrite entry_at_overwrite, decide_True in Hf by (done || lia).
      simpl in Hf. by rewrite Hk in Hf.
    + set (t' := place t idx g (make_metadata (hash_with_salt hasher t k)) k v)
        in *.
      assert (Hent : entry_at t' idx = mkEntry k v)
        by (unfold t'; by rewrite entry_at_place, decide_True by (done || lia)).
      assert (He' : empty_at t' idx = false).
      { unfold empty_at, t'. rewrite meta_at_place, decide_True by (done || lia).
        apply Z.eqb_neq, make_metadata_nonzero. }
      pose proof (find_stored hasher t' idx HI' Hidx He') as Hf.
      by rewrite Hent in Hf.
  - intros s Hs Hm. set (t' := (insert hasher t k v).1) in *.
    assert (He : empty_at t' s = false) by by apply Z.eqb_neq.
    split; [by apply find_slot_stored|].
    destruct (inv_stored _ _ HI' s Hs He) as [_ (l1 & c & l2 & HL & Hc & _)].
    assert (Hin : c ∈ probe_list t'
                    (hash_with_salt hasher t' (key (entry_at t' s)))
                    (seqZ 0 (max_group_used_ t' + 1)))
      by (rewrite HL; apply elem_of_app; right; left).
    apply probe_list_elem in Hin as (Hg & Hi & Hidx).
    apply elem_of_seqZ in Hg.
    exists (group_idx c), (slot_offset c). unfold probe_slot, GROUP_SIZE.
    split_and!; lia.
Qed.

(** C2.  On a reachable container [max_group_used] is at most
    [total_groups - 1], where [total_groups] is the smaller of the ceilings
    of [max_probe_limit / 16] and [capacity / 16], and no operation and no
    sequence of operations decreases [max_group_used]. *)
Theorem max_group_used_bounded_monotone (t : Table) :
  reachable hasher t ->
  max_groups t
  = Z.min (cdiv (max_probe_limit_ t) GROUP_SIZE) (cdiv (capacity_ t) GROUP_SIZE)
  /\ max_group_used_ t <= max_groups t - 1
  /\ (forall op, max_group_used_ t <= max_group_used_ (step hasher t op))
  /\ (forall ops, max_group_used_ t <= max_group_used_ (run hasher t ops)).
Proof.
  intros Hr. pose proof (reachable_inv hasher t Hr) as HI.
  pose proof (inv_groups _ _ HI). split_and!.
  - unfold max_groups. rewrite !cdiv_group.
    destruct (Z.ltb_spec (cdiv (max_probe_limit_ t) GROUP_SIZE)
                         (cdiv (capacity_ t) GROUP_SIZE)); lia.
  - lia.
  - intros op. apply step_fields.
  - intros ops. apply run_fields.
Qed.

(** C3 (as amended).  On a reachable container [insert(k, v)] returns
    [false] exactly when the size has reached [max_inserts] or no slot of
    the first [total_groups] groups of the probe sequence of [k] is empty or
    holds [k]; and whenever it returns [false] the container is unchanged. *)
Theorem insert_false_iff (t : Table) (k : K) (v : V) :
  reachable hasher t ->
  ((insert hasher t k v).2 = false
   <-> max_inserts_ t <= size_ t \/ probe_exhausted hasher t k)
  /\ ((insert hasher t k v).2 = false -> (insert hasher t k v).1 = t).
Proof.
  intros Hr. pose proof (reachable_inv hasher t Hr) as HI.
  pose proof (inv_wf _ _ HI) as Hwf.
  destruct (insert_spec hasher t k v HI)
    as [Hge|s Hlt Hs He Hk|idx g Hlt Habs Hscan Hidx He Hg|Hlt Habs Hscan];
    simpl.
  - split; [|done]. split; [by left|done].
  - split; [|done]. split; [done|]. intros [?|Hex]; [lia|]. exfalso.
    destruct (stored_split hasher t s HI Hs He) as (l1 & c & l2 & HL & Hc & _).
    rewrite Hk in HL.
    assert (Hin : c ∈ probe_list t (hash_with_salt hasher t k)
                    (seqZ 0 (max_groups t)))
      by (rewrite HL; apply elem_of_app; right; left).
    apply probe_list_elem in Hin as (Hgin & Hi & Hidx).
    apply elem_of_seqZ in Hgin.
    destruct (Hex (group_idx c) (slot_offset c)) as [_ Hno];
      [lia|unfold GROUP_SIZE; lia|].
    unfold probe_slot, key_meta in Hno. rewrite <- Hidx, Hc in Hno.
    pose proof (stored_hit hasher t s HI Hs He) as Hh. rewrite Hk in Hh.
    congruence.
  - split; [|done]. split; [done|]. intros [?|Hex]; [lia|]. exfalso.
    apply probe_exhausted_scan in Hex. unfold key_meta in Hex. congruence.
  - split; [|done]. split; [|done]. intros _. right.
    by apply probe_exhausted_scan.
Qed.

(** C4.  When the size has reached [max_inserts], [insert(k, v)] returns
    [false] and leaves the whole container as it was, for every key, stored
    or not; a following [find] of any key gives what it gave before. *)
Theorem insert_refused_at_cap (t : Table) (k : K) (v : V) :
  max_inserts_ t <= size_ t ->
  insert hasher t k v = (t, false)
  /\ forall k', find hasher (insert hasher t k v).1 k' = find hasher t k'.
Proof.
  intros Hge. unfold insert.
  destruct (Z.geb_spec (size_ t) (max_inserts_ t)); [done|lia].
Qed.

(** C5.  On a reachable container, for a key whose first group wraps the
    end of the array, the scalar lookup of that group gives the result the
    SIMD lookup gives on the same sixteen slots. *)
Theorem wrapping_group_lookup_agrees (t : Table) (k : K) :
  reachable hasher t ->
  capacity_ t
  < group_base t (hash_with_salt hasher t k) 0 + GROUP_SIZE ->
  find_scalar t k (key_meta hasher t k)
              (group_base t (hash_with_salt hasher t k) 0)
              (seqZ 0 GROUP_SIZE)
  = find_simd_wrapped t k (key_meta hasher t k)
                      (group_base t (hash_with_salt hasher t k) 0).
Proof.
  intros Hr _. pose proof (reachable_inv hasher t Hr) as HI.
  pose proof (inv_wf _ _ HI) as Hwf. pose proof (inv_groups _ _ HI) as Hg.
  unfold key_meta. set (h := hash_with_salt hasher t k).
  set (meta := make_metadata h).
  rewrite (find_scalar_list t k meta _ 0), (find_simd_wrapped_list t k meta 0).
  fold (cands_at t 0 (group_base t h 0)).
  set (A := cands_at t 0 (group_base t h 0)).
  destruct (hits t k meta A) as [|c r] eqn:Hh; [by apply find_list_no_hits|].
  assert (HA : probe_list t h (seqZ 0 (max_groups t))
               = A ++ probe_list t h (seqZ 1 (Z.pred (max_groups t))))
    by (rewrite (seqZ_cons 0) by lia; apply probe_list_cons).
  assert (Hin : In c (hits t k meta A)) by (rewrite Hh; by left).
  apply filter_In in Hin as [Hin Hhit]. apply list_elem_of_In in Hin.
  assert (Hs : 0 <= table_idx c < capacity_ t).
  { eapply (probe_list_range t h (seqZ 0 (max_groups t))); [apply Hwf|].
    rewrite HA. apply elem_of_app. by left. }
  pose proof Hhit as Hst.
  apply hit_is_stored in Hst as [He Hk]; [|apply make_metadata_nonzero].
  assert (Hfound : exists c', hit_at t k meta (table_idx c') = true
                              /\ 0 <= table_idx c' < capacity_ t
                              /\ find_list t k meta A = GFound (table_idx c')).
  { destruct (stored_split hasher t (table_idx c) HI Hs He)
      as (l1 & c0 & l2 & HL & Hc0 & Hall).
    rewrite Hk in HL. fold h in HL. rewrite HA in HL.
    apply app_eq_inv in HL as [(r' & Hr1 & Hr2)|(r' & Hr1 & Hr2)].
    - destruct r' as [|c1 r'].
      + rewrite app_nil_r in Hr1. subst l1.
        destruct (find_list_full t k meta A Hall)
          as [(c' & Hin' & Hhit' & ->)|[Hno _]]; [|congruence].
        exists c'. split; [done|]. split; [|done].
        eapply (probe_list_range t h (seqZ 0 (max_groups t))); [apply Hwf|].
        rewrite HA. apply elem_of_app. by left.
      + simpl in Hr2. injection Hr2 as <- _.
        destruct (find_list_prefix t k meta l1 c0 r' Hall)
          as (c' & Hin' & Hhit' & Hf); [by rewrite Hc0..|].
        rewrite <- Hr1 in Hf, Hin'. exists c'. split; [done|]. split; [|done].
        eapply (probe_list_range t h (seqZ 0 (max_groups t))); [apply Hwf|].
        rewrite HA. apply elem_of_app. by left.
    - subst l1. apply Forall_app in Hall as [Hall _].
      destruct (find_list_full t k meta A Hall)
        as [(c' & Hin' & Hhit' & ->)|[Hno _]]; [|congruence].
      exists c'. split; [done|]. split; [|done].
      eapply (probe_list_range t h (seqZ 0 (max_groups t))); [apply Hwf|].
      rewrite HA. apply elem_of_app. by left. }
  destruct Hfound as (c' & Hhit' & Hs' & ->).
  unfold find_simd_list. rewrite Hh. f_equal.
  apply hit_is_stored in Hhit' as [He' Hk']; [|apply make_metadata_nonzero].
  apply (inv_unique _ _ HI); try done. congruence.
Qed.

(** C6 (as amended).  Construction with capacity [C >= 1] and a double
    [delta] in (0,1) sets [max_probe_limit = min(C, max(16, n))], where [n]
    is the double [4.0 * std::log2(1.0 / delta)] converted to [size_t]: the
    product is truncated, the lower clamp is applied first and the clamp to
    [C] last.  With a [std::log2] that maps [2^k, 2^(k+1)] into [k, k+1],
    [n] lies between [4k] and [4(k+1)] when [2^k <= 1/delta <= 2^(k+1)]. *)
Theorem max_probe_limit_clamped (capacity : Z) (delta : double) (salt : Z)
        (t : Table) :
  0 <= capacity ->
  new capacity delta salt = Some t ->
  exists n,
    trunc_probe_bound delta = Some n /\ 0 <= n
    /\ max_probe_limit_ t = Z.min capacity (Z.max GROUP_SIZE n)
    /\ (log2_brackets std_log2 ->
        forall k, 0 <= k < 1023 ->
          (pow2 k <= / B2Q delta)%Q -> (/ B2Q delta <= pow2 (k + 1))%Q ->
          4 * k <= n <= 4 * (k + 1)).
Proof.
  intros Hc Hnew.
  destruct (new_delta capacity delta salt t Hnew) as (d & Hd & Hd0 & Hd1).
  destruct (new_Some capacity delta salt t Hc Hnew)
    as (a & n & Hc1 & _ & Hn & _ & Hn0 & ->).
  exists n. split; [done|]. split; [done|]. split.
  - cbn [max_probe_limit_]. unfold GROUP_SIZE.
    destruct (Z.ltb_spec n 16);
      match goal with |- context [?a >? ?b] => destruct (Z.gtb_spec a b) end;
      lia.
  - intros Hlaw k Hk Hlo Hhi. unfold B2Q in Hlo, Hhi. rewrite Hd in Hlo, Hhi.
    destruct (trunc_probe_bound_brackets delta d k Hlaw Hd Hd0 Hk Hlo Hhi)
      as (n' & Hn' & Hb).
    congruence.
Qed.

(** C7 (as amended).  For a container constructed with a capacity
    [1 <= C <= 2^53] and a double [delta] in (0,1), after every successful
    insert the size is at most [C - floor(delta * C)], the number of empty
    metadata bytes is [C] minus the size, and so at least
    [floor(delta * C)] slots are empty; [delta * C] is the exact product of
    the value of the double and [C]. *)
Theorem spare_capacity_floor (capacity : Z) (delta : double) (salt : Z)
        (t0 : Table) (ops : list operation) (k : K) (v : V) :
  0 <= capacity <= 2 ^ 53 ->
  new capacity delta salt = Some t0 ->
  (insert hasher (run hasher t0 ops) k v).2 = true ->
  size_ (insert hasher (run hasher t0 ops) k v).1
  <= capacity - Qfloor (B2Q delta * inject_Z capacity)
  /\ empty_count (insert hasher (run hasher t0 ops) k v).1
     = capacity - size_ (insert hasher (run hasher t0 ops) k v).1
  /\ Qfloor (B2Q delta * inject_Z capacity)
     <= empty_count (insert hasher (run hasher t0 ops) k v).1.
Proof.
  intros Hc Hnew _.
  assert (Hr : reachable hasher (run hasher t0 ops))
    by (apply reachable_run; eapply reachable_new; [|done]; lia).
  pose proof (inv_insert hasher _ k v (reachable_inv hasher _ Hr)) as HI.
  destruct (insert_fields hasher (run hasher t0 ops) k v)
    as (Hcap & _ & Hmax & _).
  destruct (run_fields hasher t0 ops) as (Hcap0 & _ & Hmax0 & _).
  destruct (new_delta capacity delta salt t0 Hnew) as (d & Hd & Hd0 & Hd1).
  destruct (new_Some capacity delta salt t0 ltac:(lia) Hnew)
    as (a & n & Hc1 & Ha & _ & _ & _ & Ht0).
  pose proof (trunc_delta_capacity_ge capacity delta d a ltac:(lia)
                Hd Hd0 Hd1 Ha) as Hge.
  assert (capacity_ t0 = capacity) by by subst t0.
  assert (max_inserts_ t0 = capacity - a) by by subst t0.
  pose proof (inv_count _ _ HI) as Hcount.
  pose proof (inv_size _ _ HI) as Hsize.
  unfold B2Q. rewrite Hd. lia.
Qed.

(** C8 (as amended).  The base index of group [j] is
    [((h + 16 * j) mod 2^64) mod C], the sum being a 64-bit unsigned sum,
    and the slot at offset [k] of the group is [(base + k) mod C].  The
    base is [(h + 16 * j) mod C] whenever the sum does not wrap
    ([h + 16 * j < 2^64]) or [C] divides [2^64].  These are the positions
    [insert] stores at and [find] reads: on a reachable container every
    occupied slot is such a slot of the salted hash of its key, at a group
    not above [max_group_used]. *)
Theorem group_base_linear (t : Table) (h j k : Z) :
  group_base t h j = ((h + 16 * j) mod 2 ^ 64) mod capacity_ t
  /\ slot_in_group t (group_base t h j) k
     = (((h + 16 * j) mod 2 ^ 64) mod capacity_ t + k) mod capacity_ t
  /\ (0 <= h + 16 * j < 2 ^ 64 \/ (capacity_ t | 2 ^ 64) ->
      group_base t h j = (h + 16 * j) mod capacity_ t)
  /\ (reachable hasher t ->
      forall s, 0 <= s < capacity_ t -> empty_at t s = false ->
        exists g i,
          0 <= g <= max_group_used_ t /\ 0 <= i < 16
          /\ s = (((hash_with_salt hasher t (key (entry_at t s)) + 16 * g)
                     mod 2 ^ 64) mod capacity_ t + i) mod capacity_ t).
Proof.
  assert (E : forall h j,
             group_base t h j = ((h + 16 * j) mod 2 ^ 64) mod capacity_ t)
    by done.
  split; [done|]. split; [unfold slot_in_group; by rewrite E|]. split.
  - intros Hcase. rewrite E. destruct Hcase as [Hs|[q Hq]].
    + by rewrite (Z.mod_small (h + 16 * j)) by lia.
    + destruct (Z.eq_dec (capacity_ t) 0) as [E0|Hne].
      * rewrite E0 in Hq. lia.
      * assert (Hqc : q * capacity_ t <> 0) by lia.
        rewrite Hq, (Z.mod_eq (h + 16 * j) (q * capacity_ t)) by done.
        replace (h + 16 * j
                 - q * capacity_ t * ((h + 16 * j) / (q * capacity_ t)))
          with (h + 16 * j
                + - (q * ((h + 16 * j) / (q * capacity_ t))) * capacity_ t)
          by ring.
        by apply Z.mod_add.
  - intros Hr s Hs He. pose proof (reachable_inv hasher t Hr) as HI.
    destruct (inv_stored _ _ HI s Hs He) as [_ (l1 & c & l2 & HL & Hc & _)].
    assert (Hin : c ∈ probe_list t
                    (hash_with_salt hasher t (key (entry_at t s)))
                    (seqZ 0 (max_group_used_ t + 1)))
      by (rewrite HL; apply elem_of_app; right; left).
    apply probe_list_elem in Hin as (Hgin & Hoff & Hidx).
    apply elem_of_seqZ in Hgin.
    exists (group_idx c), (slot_offset c).
    split; [lia|]. split; [done|].
    etrans; [symmetry; exact Hc|]. rewrite Hidx.
    unfold slot_in_group. by rewrite E.
Qed.

(** C9 (as amended).  On a reachable container whose size is
    [max_inserts - 1], [insert(k, v)] of a key that is not stored returns
    [true] exactly when some slot of the first [total_groups] groups of the
    probe sequence of [k] is empty; after it has succeeded the size is
    [max_inserts] and every further insert returns [false]. *)
Theorem insert_one_below_cap (t : Table) (k : K) (v : V) :
  reachable hasher t ->
  size_ t = max_inserts_ t - 1 ->
  absent t k ->
  ((insert hasher t k v).2 = true <-> probe_has_empty hasher t k)
  /\ ((insert hasher t k v).2 = true ->
      size_ (insert hasher t k v).1 = max_inserts_ t
      /\ forall k' v',
           (insert hasher (insert hasher t k v).1 k' v').2 = false).
Proof.
  intros Hr Hsz Habs. pose proof (reachable_inv hasher t Hr) as HI.
  pose proof (inv_wf _ _ HI) as Hwf.
  destruct (insert_spec hasher t k v HI)
    as [Hge|s Hlt Hs He Hk|idx g Hlt _ Hscan Hidx He Hg|Hlt _ Hscan];
    simpl.
  - lia.
  - by destruct (Habs s Hs He).
  - split.
    + split; [|done]. intros _.
      apply scan_place_split in Hscan as (l1 & c & l2 & HL & Hc & Hcg & _).
      assert (Hin : c ∈ probe_list t (hash_with_salt hasher t k)
                      (seqZ 0 (max_groups t)))
        by (rewrite HL; apply elem_of_app; right; left).
      apply probe_list_elem in Hin as (Hgin & Hi & Hidx').
      apply elem_of_seqZ in Hgin.
      exists (group_idx c), (slot_offset c). unfold probe_slot, GROUP_SIZE.
      split_and!; try lia. by rewrite <- Hidx', Hc.
    + intros _. split; [lia|]. intros k' v'. unfold insert at 1.
      cbn [size_ max_inserts_ place].
      destruct (Z.geb_spec (size_ t + 1) (max_inserts_ t)); [done|lia].
  - split; [|done]. split; [done|]. intros Hemp. exfalso.
    apply (probe_has_empty_not_exhausted hasher t k Hemp).
    by apply probe_exhausted_scan.
Qed.

(** C10.  In every call of [insert] the candidate window records at most
    112 candidates (at most seven groups of sixteen slots), so every write
    [candidates[num_candidates++]] goes to an index below 128, and the
    128-entry bound is never what ends the collection loop. *)
Theorem candidate_buffer_never_full (t : Table) (k : K) :
  (length (recorded (window t k (hash_with_salt hasher t k)
                            (key_meta hasher t k))) <= 112)%nat
  /\ (forall i c,
        recorded (window t k (hash_with_salt hasher t k)
                         (key_meta hasher t k)) !! i = Some c ->
        (i < 128)%nat)
  /\ stopped_by_cap (window t k (hash_with_salt hasher t k)
                            (key_meta hasher t k)) = false.
Proof.
  unfold window, EARLY_EXIT_GROUPS.
  pose proof (max_groups_to_check_le t) as Hw.
  destruct (window_loop_bound t k (hash_with_salt hasher t k)
              (key_meta hasher t k)
              (seqZ 1 (max_groups_to_check t - 1)) [])
    as [Hlen Hcap]; [rewrite length_seqZ; cbn [length]; lia|].
  rewrite length_seqZ in Hlen. cbn [length] in Hlen.
  split_and!; [lia| |done].
  intros i c Hi%lookup_lt_Some. lia.
Qed.

End Properties.

(** ** The properties on concrete containers *)

Import Examples.

Lemma reachable_make (capacity : Z) (delta : Q) :
  0 <= capacity ->
  new capacity (double_of_Q delta) 0 = Some (make capacity delta) ->
  reachable hid (make capacity delta).
Proof. intros Hc Hnew. by eapply reachable_new. Qed.

Lemma reachable_t20_17 : reachable hid t20_17.
Proof. apply reachable_run, reachable_make; [lia|vm_compute; reflexivity]. Qed.

Lemma reachable_t4_full : reachable hid t4_full.
Proof. apply reachable_run, reachable_make; [lia|vm_compute; reflexivity]. Qed.

Lemma reachable_t25_22 : reachable hid t25_22.
Proof. apply reachable_run, reachable_make; [lia|vm_compute; reflexivity]. Qed.

Lemma reachable_t34_16 : reachable hid t34_16.
Proof. apply reachable_run, reachable_make; [lia|vm_compute; reflexivity]. Qed.

Lemma examples_log2_brackets : log2_brackets (std_log2 (MathLib:=examples_log2)).
Proof. exact log2_rn_brackets. Qed.

(** The vectors of a new container hold value-initialized entries. *)
Lemma t20_value_initialized :
  table_ t20 = replicate 20 (mkEntry 0 0)
  /\ metadata_ t20 = replicate 20 EMPTY.
Proof. vm_compute. by split. Qed.

Lemma reachable_t100 : reachable hid t100.
Proof. apply reachable_run, reachable_make; [lia|vm_compute; reflexivity]. Qed.

(** Capacity 20, keys 0..16 stored: key 17 is inserted into a wrapping
    group and found again. *)
Lemma insert_find_roundtrip_witness :
  reachable hid t20_17
  /\ (insert hid t20_17 17 170).2 = true
  /\ find hid (insert hid t20_17 17 170).1 17 = Some 170.
Proof.
  assert (Hok : (insert hid t20_17 17 170).2 = true) by (vm_compute; reflexivity).
  split; [exact reachable_t20_17|]. split; [exact Hok|].
  exact (proj1 (insert_find_roundtrip hid t20_17 17 170 reachable_t20_17 Hok)).
Defined.

(** Capacity 100 with three groups per key and the high-water mark at 2. *)
Lemma max_group_used_bounded_monotone_witness :
  reachable hid t100
  /\ max_group_used_ t100 <= max_groups t100 - 1
  /\ max_group_used_ t100 <= max_group_used_ (run hid t100 (inserts [7; 8])).
Proof.
  split; [exact reachable_t100|].
  destruct (max_group_used_bounded_monotone hid t100 reachable_t100)
    as (_ & Hb & _ & Hm).
  split; [exact Hb|exact (Hm (inserts [7; 8]))].
Defined.

(** C3 as stated fails: at the cap, re-inserting the stored key 1 returns
    [false] and changes nothing although the key is present in the first
    group. *)
Lemma insert_false_iff_cap_only_fails :
  ~ (insert hid t4_full 1 99 = (t4_full, false)
     <-> max_inserts_ t4_full <= size_ t4_full
         /\ ~ present_in_window hid t4_full 1).
Proof.
  intros [Hlr _]. destruct Hlr as [_ Hn]; [vm_compute; reflexivity|].
  apply Hn. exists 0, 0. vm_compute. by split_and!.
Qed.

Lemma insert_false_iff_witness :
  reachable hid t4_full
  /\ ((insert hid t4_full 1 99).2 = false
      <-> max_inserts_ t4_full <= size_ t4_full
          \/ probe_exhausted hid t4_full 1).
Proof.
  split; [exact reachable_t4_full|].
  exact (proj1 (insert_false_iff hid t4_full 1 99 reachable_t4_full)).
Defined.

(** Capacity 4 at its cap of two keys: updating the stored key 1 is
    refused. *)
Lemma insert_refused_at_cap_witness :
  max_inserts_ t4_full <= size_ t4_full
  /\ insert hid t4_full 1 99 = (t4_full, false)
  /\ find hid (insert hid t4_full 1 99).1 1 = find hid t4_full 1.
Proof.
  assert (Hge : max_inserts_ t4_full <= size_ t4_full) by (vm_compute; discriminate).
  split; [exact Hge|].
  destruct (insert_refused_at_cap hid t4_full 1 99 Hge) as [He Hf].
  split; [exact He|exact (Hf 1)].
Defined.

(** Reachability is used: on the record [t4_gap], with an empty slot before
    the slot that holds the key, the scalar lookup is absent and the SIMD
    lookup finds the key. *)
Lemma wrapping_group_lookup_differs :
  capacity_ t4_gap
  < group_base t4_gap (hash_with_salt hid t4_gap 4) 0 + GROUP_SIZE
  /\ find_scalar t4_gap 4 (key_meta hid t4_gap 4)
                 (group_base t4_gap (hash_with_salt hid t4_gap 4) 0)
                 (seqZ 0 GROUP_SIZE)
     = GAbsent
  /\ find_simd_wrapped t4_gap 4 (key_meta hid t4_gap 4)
                       (group_base t4_gap (hash_with_salt hid t4_gap 4) 0)
     = GFound 1.
Proof. vm_compute. by split_and!. Qed.

Lemma wrapping_group_lookup_agrees_witness :
  reachable hid t4_full
  /\ capacity_ t4_full
     < group_base t4_full (hash_with_salt hid t4_full 2) 0 + GROUP_SIZE
  /\ find_scalar t4_full 2 (key_meta hid t4_full 2)
                 (group_base t4_full (hash_with_salt hid t4_full 2) 0)
                 (seqZ 0 GROUP_SIZE)
     = find_simd_wrapped t4_full 2 (key_meta hid t4_full 2)
                         (group_base t4_full (hash_with_salt hid t4_full 2) 0).
Proof.
  assert (Hw : capacity_ t4_full
               < group_base t4_full (hash_with_salt hid t4_full 2) 0
                 + GROUP_SIZE) by (vm_compute; reflexivity).
  split; [exact reachable_t4_full|]. split; [exact Hw|].
  exact (wrapping_group_lookup_agrees hid t4_full 2 reachable_t4_full Hw).
Defined.

(** C6 as stated fails: with capacity 10 and delta 0.5 the constructor sets
    the limit to 10, the formula gives 16; with capacity 100 and delta 0.05
    the constructor sets 17, the formula gives 18. *)
Lemma max_probe_limit_not_max_of_min :
  new 10 (double_of_Q (1 # 2)) 0 = Some (make 10 (1 # 2))
  /\ max_probe_limit_ (make 10 (1 # 2)) = 10
  /\ clamp_max_of_min 10 (B2Q (double_of_Q (1 # 2))) = 16
  /\ new 100 (double_of_Q (1 # 20)) 0 = Some (make 100 (1 # 20))
  /\ max_probe_limit_ (make 100 (1 # 20)) = 17
  /\ clamp_max_of_min 100 (B2Q (double_of_Q (1 # 20))) = 18.
Proof. vm_compute. by split_and!. Qed.

Lemma max_probe_limit_clamped_witness :
  0 <= 100
  /\ new 100 (double_of_Q (1 # 20)) 0 = Some (make 100 (1 # 20))
  /\ exists n,
       trunc_probe_bound (double_of_Q (1 # 20)) = Some n /\ 0 <= n
       /\ max_probe_limit_ (make 100 (1 # 20))
          = Z.min 100 (Z.max GROUP_SIZE n)
       /\ 4 * 4 <= n <= 4 * (4 + 1).
Proof.
  assert (Hc : 0 <= 100) by lia.
  assert (Hnew : new 100 (double_of_Q (1 # 20)) 0 = Some (make 100 (1 # 20)))
    by (vm_compute; reflexivity).
  assert (Hk : 0 <= 4 < 1023) by lia.
  assert (Hlo : (pow2 4 <= / B2Q (double_of_Q (1 # 20)))%Q)
    by (vm_compute; discriminate).
  assert (Hhi : (/ B2Q (double_of_Q (1 # 20)) <= pow2 (4 + 1))%Q)
    by (vm_compute; discriminate).
  split; [exact Hc|]. split; [exact Hnew|].
  destruct (max_probe_limit_clamped 100 (double_of_Q (1 # 20)) 0 _
              Hc Hnew) as (n & Hn & Hn0 & Hm & Hb).
  exists n. split; [exact Hn|]. split; [exact Hn0|]. split; [exact Hm|].
  exact (Hb examples_log2_brackets 4 Hk Hlo Hhi).
Defined.

(** The truncation is that of the rounded double, not of the exact value:
    for the double after 1/32 the quotient [1.0 / delta] rounds to the
    double before 32, its logarithm rounds to 5, and the constructor gets
    20, while [4 * log2(1 / delta)] is below 20. *)
Lemma probe_bound_of_rounded_double :
  double_of_Q (1 # 32) + 1 = 4584664420663164929
  /\ trunc_probe_bound (double_of_Q (1 # 32) + 1) = Some 20
  /\ Z.log2 (Qfloor (Qpower (1 / B2Q (double_of_Q (1 # 32) + 1)) 4)) = 19.
Proof. vm_compute. by split_and!. Qed.

(** C7 as stated fails: capacity 25, delta 0.1; the 23rd insert succeeds
    and leaves 2 empty slots, fewer than the ceiling 3 of [delta * 25]. *)
Lemma spare_capacity_ceiling_fails :
  reachable hid t25_22
  /\ capacity_ t25_22 = 25 /\ delta_ t25_22 = double_of_Q (1 # 10)
  /\ (insert hid t25_22 22 0).2 = true
  /\ empty_count (insert hid t25_22 22 0).1 = 2
  /\ size_ (insert hid t25_22 22 0).1 = 23
  /\ Qceiling (B2Q (double_of_Q (1 # 10)) * inject_Z 25) = 3.
Proof. split; [exact reachable_t25_22|]. vm_compute. by split_and!. Qed.

Lemma spare_capacity_floor_witness :
  0 <= 25 <= 2 ^ 53
  /\ new 25 (double_of_Q (1 # 10)) 0 = Some (make 25 (1 # 10))
  /\ (insert hid (run hid (make 25 (1 # 10)) (inserts (seqZ 0 22))) 22 0).2
     = true
  /\ Qfloor (B2Q (double_of_Q (1 # 10)) * inject_Z 25)
     <= empty_count
          (insert hid (run hid (make 25 (1 # 10)) (inserts (seqZ 0 22)))
                  22 0).1.
Proof.
  assert (Hc : 0 <= 25 <= 2 ^ 53) by lia.
  assert (Hnew : new 25 (double_of_Q (1 # 10)) 0 = Some (make 25 (1 # 10)))
    by (vm_compute; reflexivity).
  assert (Hok : (insert hid (run hid (make 25 (1 # 10))
                                 (inserts (seqZ 0 22))) 22 0).2 = true)
    by (vm_compute; reflexivity).
  split; [exact Hc|]. split; [exact Hnew|]. split; [exact Hok|].
  exact (proj2 (proj2 (spare_capacity_floor hid 25 (double_of_Q (1 # 10)) 0 _
                         (inserts (seqZ 0 22)) 22 0 Hc Hnew Hok))).
Defined.

(** The product is the rounded one: with capacity 100 and delta 0.57 the
    double nearest to 0.57 is below 57/100, the product rounds to a double
    below 57, and the constructor keeps 56 slots free. *)
Lemma spare_capacity_of_rounded_double :
  trunc_delta_capacity 100 (double_of_Q (57 # 100)) = Some 56
  /\ max_inserts_ (make 100 (57 # 100)) = 44
  /\ trunc_delta_capacity 10 (double_of_Q (3 # 10)) = Some 3
  /\ Qfloor (B2Q (double_of_Q (3 # 10)) * 10) = 2.
Proof. vm_compute. by split_and!. Qed.

(** Above [2^53] the capacity itself is rounded: [2^63 + 1023] becomes
    [2^63], and with delta 0.5 the constructor keeps [2^62] slots free,
    fewer than the floor of the exact product. *)
Lemma spare_capacity_of_rounded_capacity :
  of_size (2 ^ 63 + 1023) = FFin (inject_Z (2 ^ 63))
  /\ trunc_delta_capacity (2 ^ 63 + 1023) (double_of_Q (1 # 2))
     = Some (2 ^ 62)
  /\ Qfloor (B2Q (double_of_Q (1 # 2)) * inject_Z (2 ^ 63 + 1023))
     = 2 ^ 62 + 511.
Proof. vm_compute. by split_and!. Qed.

(** C8 as stated fails: capacity 34 with two groups per key, slots 17..32
    occupied.  The key [2^64 - 1] hashes to itself; its group 0 is slots
    17..32 and is full, so [insert] goes on to group 1.  The 64-bit sum
    [h + 16] wraps to 15: group 1 starts at slot 15, where the key is
    stored, while [(h + 16) mod 34] is 33 and slot 33 stays empty. *)
Lemma group_base_wraps :
  reachable hid t34_16
  /\ max_groups t34_16 = 2
  /\ hash_with_salt hid t34_16 (2 ^ 64 - 1) = 2 ^ 64 - 1
  /\ group_base t34_16 (2 ^ 64 - 1) 0 = 17
  /\ forallb (fun s => negb (empty_at t34_16 s)) (seqZ 17 16) = true
  /\ group_base t34_16 (2 ^ 64 - 1) 1 = 15
  /\ (2 ^ 64 - 1 + 16 * 1) mod capacity_ t34_16 = 33
  /\ (insert hid t34_16 (2 ^ 64 - 1) 7).2 = true
  /\ entry_at (insert hid t34_16 (2 ^ 64 - 1) 7).1 15
     = mkEntry (2 ^ 64 - 1) 7
  /\ empty_at (insert hid t34_16 (2 ^ 64 - 1) 7).1 15 = false
  /\ empty_at (insert hid t34_16 (2 ^ 64 - 1) 7).1 33 = true
  /\ max_group_used_ (insert hid t34_16 (2 ^ 64 - 1) 7).1 = 1.
Proof. split; [exact reachable_t34_16|]. vm_compute. by split_and!. Qed.

Lemma group_base_linear_witness :
  group_base t34_16 (2 ^ 64 - 1) 1
  = ((2 ^ 64 - 1 + 16 * 1) mod 2 ^ 64) mod capacity_ t34_16
  /\ slot_in_group t34_16 (group_base t34_16 (2 ^ 64 - 1) 1) 3
     = (((2 ^ 64 - 1 + 16 * 1) mod 2 ^ 64) mod capacity_ t34_16 + 3)
       mod capacity_ t34_16
  /\ group_base t34_16 5 1 = (5 + 16 * 1) mod capacity_ t34_16.
Proof.
  assert (Hs : 0 <= 5 + 16 * 1 < 2 ^ 64 \/ (capacity_ t34_16 | 2 ^ 64))
    by (left; lia).
  split; [exact (proj1 (group_base_linear hid t34_16 (2 ^ 64 - 1) 1 3))|].
  split; [exact (proj1 (proj2 (group_base_linear hid t34_16
                                 (2 ^ 64 - 1) 1 3)))|].
  exact (proj1 (proj2 (proj2 (group_base_linear hid t34_16 5 1 3))) Hs).
Defined.

(** C9 as stated fails: capacity 20, delta 1/10, keys 0..16 stored (one
    below the cap of 18); key 20 is not stored, its only group (slots 0..15)
    is full, and its insert returns [false]. *)
Lemma insert_one_below_cap_can_fail :
  reachable hid t20_17
  /\ size_ t20_17 = max_inserts_ t20_17 - 1
  /\ absent t20_17 20
  /\ (insert hid t20_17 20 5).2 = false.
Proof.
  split; [exact reachable_t20_17|]. split; [by vm_compute|].
  split; [by apply absent_stored_somewhere|by vm_compute].
Qed.

Lemma insert_one_below_cap_witness :
  reachable hid t25_22
  /\ size_ t25_22 = max_inserts_ t25_22 - 1
  /\ absent t25_22 22
  /\ ((insert hid t25_22 22 0).2 = true <-> probe_has_empty hid t25_22 22).
Proof.
  assert (Hsz : size_ t25_22 = max_inserts_ t25_22 - 1)
    by (vm_compute; reflexivity).
  assert (Habs : absent t25_22 22)
    by (apply absent_stored_somewhere; vm_compute; reflexivity).
  split; [exact reachable_t25_22|]. split; [exact Hsz|]. split; [exact Habs|].
  exact (proj1 (insert_one_below_cap hid t25_22 22 0 reachable_t25_22 Hsz Habs)).
Defined.

(** The record [t4_gap] on which the two lookups differ violates the
    invariant, so no construction followed by operations produces it. *)
Lemma t4_gap_unreachable : ~ reachable hid t4_gap.
Proof.
  intros Hr%reachable_inv.
  destruct (inv_stored _ _ Hr 1) as [_ (l1 & c & l2 & HL & Hc & Hall)];
    [done..|].
  destruct l1 as [|c0 l1].
  - vm_compute in HL. injection HL as <- _. vm_compute in Hc. done.
  - vm_compute in HL. injection HL as <- _.
    apply Forall_cons in Hall as [He _]. vm_compute in He. done.
Qed.

(** ** Further facts about lookups, writes and the probe order *)

Section MoreFacts.

Context {K V : Type} `{EqDecision K} `{!Inhabited K} `{!Inhabited V}.
Context {libm : MathLib}.
Variable hasher : K -> Z.

Abbreviation Table := (GroupedSIMDElastic K V).

(** *** What a successful lookup has seen *)

Lemma find_list_found (t : Table) k meta l idx :
  find_list t k meta l = GFound idx ->
  exists c, c ∈ l /\ table_idx c = idx /\ hit_at t k meta idx = true.
Proof.
  induction l as [|c l IH]; simpl; [done|].
  destruct (empty_at t (table_idx c)); [done|].
  destruct (hit_at t k meta (table_idx c)) eqn:Hh.
  - intros [= <-]. exists c. split; [left|done].
  - intros (c' & ? & ?)%IH. exists c'. split; [by right|done].
Qed.

Lemma find_simd_list_found (t : Table) k meta l idx :
  find_simd_list t k meta l = GFound idx ->
  exists c, c ∈ l /\ table_idx c = idx /\ hit_at t k meta idx = true.
Proof.
  unfold find_simd_list.
  destruct (hits t k meta l) as [|c r] eqn:Hh;
    [by destruct (empties t l)|].
  intros [= <-]. exists c.
  assert (Hin : In c (hits t k meta l)) by (rewrite Hh; by left).
  apply filter_In in Hin as [Hin Hhit]. by apply list_elem_of_In in Hin.
Qed.

Lemma find_loop_found (t : Table) k h meta gs idx :
  wf t -> find_loop t k h meta gs = Some idx ->
  exists c, c ∈ probe_list t h gs /\ table_idx c = idx
            /\ hit_at t k meta idx = true.
Proof.
  intros Hwf. induction gs as [|g gs IH]; [done|].
  cbn [find_loop]. rewrite find_group_list, probe_list_cons by done.
  destruct (group_base t h g + GROUP_SIZE <=? capacity_ t).
  - destruct (find_simd_list t k meta (cands_at t g (group_base t h g)))
      as [i| |] eqn:E; [|done|].
    + intros [= <-]. apply find_simd_list_found in E as (c & ? & ?).
      exists c. split; [apply elem_of_app; by left|done].
    + intros (c & ? & ?)%IH. exists c. split; [apply elem_of_app; by right|done].
  - destruct (find_list t k meta (cands_at t g (group_base t h g)))
      as [i| |] eqn:E; [|done|].
    + intros [= <-]. apply find_list_found in E as (c & ? & ?).
      exists c. split; [apply elem_of_app; by left|done].
    + intros (c & ? & ?)%IH. exists c. split; [apply elem_of_app; by right|done].
Qed.

Lemma find_slot_sound (t : Table) k idx :
  wf t -> find_slot hasher t k = Some idx ->
  0 <= idx < capacity_ t /\ empty_at t idx = false
  /\ key (entry_at t idx) = k.
Proof.
  intros Hwf (c & Hin & <- & Hhit)%find_loop_found; [|done].
  split; [by eapply probe_list_range; [apply Hwf|]|].
  by eapply hit_is_stored; [apply make_metadata_nonzero|].
Qed.

Lemma find_slot_absent (t : Table) k :
  wf t -> absent t k -> find_slot hasher t k = None.
Proof.
  intros Hwf Habs. destruct (find_slot hasher t k) as [idx|] eqn:E; [|done].
  apply find_slot_sound in E as (Hs & He & Hk); [|done].
  by destruct (Habs idx Hs He).
Qed.

Lemma find_slot_None (t : Table) k :
  Inv hasher t -> find_slot hasher t k = None -> absent t k.
Proof.
  intros HI Hf s Hs He Hk.
  pose proof (find_slot_stored hasher t s HI Hs He) as Hf'.
  rewrite Hk in Hf'. congruence.
Qed.

(** *** What a write leaves alone *)

Lemma insert_slot_persist (t : Table) k v s :
  Inv hasher t -> 0 <= s < capacity_ t -> empty_at t s = false ->
  meta_at (insert hasher t k v).1 s = meta_at t s
  /\ key (entry_at (insert hasher t k v).1 s) = key (entry_at t s)
  /\ (key (entry_at t s) <> k ->
      entry_at (insert hasher t k v).1 s = entry_at t s).
Proof.
  intros HI Hs He. pose proof (inv_wf _ _ HI) as Hwf.
  destruct (insert_spec hasher t k v HI)
    as [Hge|s0 Hlt Hs0 He0 Hk|idx g Hlt Habs Hscan Hidx Hemp Hg|Hlt Habs Hscan];
    simpl; try done.
  - split; [done|]. split; [by apply key_at_overwrite; [|lia..]|].
    intros Hne. rewrite entry_at_overwrite by (done || lia).
    rewrite decide_False; [done|]. intros ->. congruence.
  - assert (s <> idx) by (intros ->; congruence).
    rewrite meta_at_place, entry_at_place by (done || lia).
    by rewrite !decide_False by done.
Qed.

Lemma step_slot_persist (t : Table) op s :
  Inv hasher t -> 0 <= s < capacity_ t -> empty_at t s = false ->
  meta_at (step hasher t op) s = meta_at t s
  /\ key (entry_at (step hasher t op) s) = key (entry_at t s).
Proof.
  intros HI Hs He. destruct op as [k v|k|k|k]; simpl; try done.
  - by destruct (insert_slot_persist t k v s HI Hs He) as (? & ? & _).
  - unfold index. destruct (find_slot hasher t k); simpl; [done|].
    by destruct (insert_slot_persist t k inhabitant s HI Hs He) as (? & ? & _).
Qed.

(** *** The position a new key is placed at *)

Lemma scan_place_first (t : Table) k meta h n idx g :
  scan_list t k meta (probe_list t h (seqZ 0 n)) = Some (Place idx g) ->
  exists i,
    0 <= g < n /\ 0 <= i < GROUP_SIZE
    /\ idx = slot_in_group t (group_base t h g) i
    /\ empty_at t idx = true
    /\ forall g' i', 0 <= g' -> 0 <= i' < GROUP_SIZE ->
         probes_before g' i' g i ->
         empty_at t (slot_in_group t (group_base t h g') i') = false.
Proof.
  intros Hscan.
  apply scan_place_split in Hscan
    as (l1 & c & l2 & HL & Hc & Hcg & He & Hall).
  assert (Hin : c ∈ probe_list t h (seqZ 0 n))
    by (rewrite HL; apply elem_of_app; right; left).
  apply probe_list_elem in Hin as (Hg & Hi & Hidx).
  apply elem_of_seqZ in Hg. rewrite Hcg in *.
  exists (slot_offset c). unfold GROUP_SIZE.
  split; [lia|]. split; [lia|]. split; [congruence|]. split; [done|].
  intros g' i' Hg' Hi' Hbefore.
  pose proof (probe_list_mem t h (seqZ 0 n) g' i') as Hmem.
  rewrite elem_of_seqZ in Hmem.
  assert (Hg'n : 0 <= g' < 0 + n) by (unfold probes_before in Hbefore; lia).
  specialize (Hmem Hg'n Hi'). rewrite HL in Hmem.
  apply elem_of_app in Hmem as [Hmem|Hmem].
  - rewrite Forall_forall in Hall. by apply (Hall _ Hmem).
  - exfalso. pose proof (probe_list_sorted t h 0 n) as Hs. rewrite HL in Hs.
    apply StronglySorted_app_1_r, StronglySorted_inv in Hs as [_ Hs].
    apply elem_of_cons in Hmem as [Hmem|Hmem].
    + rewrite <- Hmem in Hcg. simpl in Hcg.
      assert (slot_offset c = i') by (by rewrite <- Hmem).
      unfold probes_before in Hbefore. lia.
    + rewrite Forall_forall in Hs. apply Hs in Hmem.
      unfold lex_lt in Hmem. simpl in Hmem.
      unfold probes_before in Hbefore. lia.
Qed.

(** *** Bits of a mask *)

Lemma mask_of_testbit bs : forall i : nat,
  Z.testbit (mask_of bs) (Z.of_nat i) = default false (bs !! i).
Proof.
  induction bs as [|b r IH]; intros i; simpl.
  - by rewrite Z.testbit_0_l.
  - destruct i as [|i].
    + apply Z.add_b2z_double_bit0.
    + rewrite Nat2Z.inj_succ, Z.add_comm, Z.testbit_succ_r by lia. apply IH.
Qed.

Lemma mask_of_bound bs : 0 <= mask_of bs < 2 ^ Z.of_nat (length bs).
Proof.
  induction bs as [|b r IH]; [simpl; lia|].
  cbn [mask_of length]. rewrite Nat2Z.inj_succ, Z.pow_succ_r by lia.
  destruct b; simpl; lia.
Qed.

(** *** The metadata byte *)

Lemma hash_fragment_mod h : hash_fragment h = (h / 2 ^ 57) mod 128.
Proof.
  unfold hash_fragment. rewrite Z.shiftr_div_pow2 by lia.
  change 127 with (Z.ones 7). by rewrite Z.land_ones by lia.
Qed.

Lemma land_128_low x : 0 <= x < 128 -> Z.land 128 x = 0.
Proof.
  intros Hx. apply Z.bits_inj'; intros n Hn.
  rewrite Z.land_spec, Z.bits_0.
  destruct (Z.eq_dec n 7) as [->|Hne].
  - assert (Z.testbit x 7 = false) as ->; [|apply andb_false_r].
    apply Z.testbit_false; [lia|]. by rewrite Z.div_small by lia.
  - change 128 with (2 ^ 7). by rewrite Z.pow2_bits_false by done.
Qed.

Lemma make_metadata_sum h : make_metadata h = 128 + hash_fragment h.
Proof.
  unfold make_metadata, OCCUPIED_BIT. symmetry. apply Z.add_nocarry_lor.
  apply land_128_low. rewrite hash_fragment_mod. apply Z.mod_pos_bound. lia.
Qed.

(** *** Counting *)

Lemma filter_ext_Forall {A} (f g : A -> bool) (l : list A) :
  Forall (fun x => f x = g x) l -> List.filter f l = List.filter g l.
Proof.
  induction 1 as [|x l Hx _ IH]; simpl; [done|]. by rewrite Hx, IH.
Qed.

Lemma empty_count_pos (t : Table) :
  wf t -> 0 < empty_count t ->
  exists s, 0 <= s < capacity_ t /\ empty_at t s = true.
Proof.
  intros (Hc & Hm & _) Hpos. unfold empty_count in Hpos.
  destruct (List.filter (fun m => m =? EMPTY) (metadata_ t)) as [|x r] eqn:E;
    [simpl in Hpos; lia|].
  assert (Hin : In x (List.filter (fun m => m =? EMPTY) (metadata_ t)))
    by (rewrite E; by left).
  apply filter_In in Hin as [Hin Hx].
  apply list_elem_of_In, list_elem_of_lookup in Hin as [i Hi].
  pose proof (lookup_lt_Some _ _ _ Hi) as Hlt.
  exists (Z.of_nat i). split; [lia|].
  unfold empty_at, meta_at. by rewrite Nat2Z.id, Hi.
Qed.

(** *** Lookups through [find] and [contains] *)

Lemma find_Some (t : Table) k v :
  find hasher t k = Some v
  <-> exists s, find_slot hasher t k = Some s /\ value (entry_at t s) = v.
Proof.
  unfold find. destruct (find_slot hasher t k) as [s|]; simpl.
  - split; [intros [= <-]; by exists s|]. by intros (s' & [= <-] & ->).
  - split; [done|]. by intros (s' & ? & _).
Qed.

Lemma find_None (t : Table) k :
  find hasher t k = None <-> find_slot hasher t k = None.
Proof. unfold find. by destruct (find_slot hasher t k). Qed.

Lemma contains_true (t : Table) k :
  contains hasher t k = true <-> is_Some (find_slot hasher t k).
Proof. unfold contains. apply bool_decide_eq_true. Qed.

Lemma contains_false (t : Table) k :
  contains hasher t k = false <-> find_slot hasher t k = None.
Proof.
  unfold contains. rewrite bool_decide_eq_false.
  destruct (find_slot hasher t k) as [s|].
  - split; [|done]. intros Hn. destruct Hn. by eexists.
  - split; [done|]. by intros _ [? ?].
Qed.

Lemma find_slot_holds (t : Table) k s :
  Inv hasher t ->
  find_slot hasher t k = Some s
  <-> 0 <= s < capacity_ t /\ empty_at t s = false
      /\ key (entry_at t s) = k.
Proof.
  intros HI. split.
  - apply find_slot_sound, HI.
  - intros (Hs & He & <-). by apply find_slot_stored.
Qed.

(** *** Construction *)

Lemma max_inserts_range capacity delta salt (t : Table) :
  0 <= capacity -> new capacity delta salt = Some t ->
  1 <= max_inserts_ t <= capacity.
Proof.
  intros Hc Hnew.
  destruct (new_Some capacity delta salt t Hc Hnew)
    as (a & n & _ & _ & _ & Ha & _ & ->).
  cbn [max_inserts_]. lia.
Qed.

Lemma new_all_empty capacity delta salt (t : Table) s :
  0 <= capacity -> new capacity delta salt = Some t ->
  0 <= s < capacity_ t -> empty_at t s = true.
Proof.
  intros Hc Hnew Hs.
  destruct (new_Some capacity delta salt t Hc Hnew)
    as (a & n & _ & _ & _ & _ & _ & ->).
  unfold empty_at, meta_at. cbn in *.
  by rewrite lookup_replicate_2 by lia.
Qed.

Lemma new_absent capacity delta salt (t : Table) k :
  0 <= capacity -> new capacity delta salt = Some t -> absent t k.
Proof.
  intros Hc Hnew s Hs He.
  rewrite (new_all_empty capacity delta salt t s Hc Hnew Hs) in He. done.
Qed.

(** *** Small tables and large [delta] *)

Lemma small_table_slot_in_group (t : Table) base s :
  1 <= capacity_ t <= GROUP_SIZE -> 0 <= s < capacity_ t ->
  exists i, 0 <= i < GROUP_SIZE /\ slot_in_group t base i = s.
Proof.
  intros Hc Hs. exists ((s - base) mod capacity_ t).
  pose proof (Z.mod_pos_bound (s - base) (capacity_ t) ltac:(lia)).
  split; [lia|]. unfold slot_in_group.
  rewrite Zplus_mod_idemp_r. replace (base + (s - base)) with s by lia.
  apply Z.mod_small. lia.
Qed.

Lemma trunc_probe_bound_large_delta delta d n :
  log2_brackets std_log2 ->
  decode delta = FFin d -> (d < 1)%Q -> (1 # 16 <= d)%Q ->
  trunc_probe_bound delta = Some n -> n <= 16.
Proof.
  intros Hlaw Hd H1 H16 Hn.
  assert (H0 : (0 < d)%Q) by (eapply Qlt_le_trans; [|apply H16]; done).
  assert (Hx0 : (1 <= / d)%Q).
  { apply Qle_shift_inv_l; [done|]. rewrite Qmult_1_l. by apply Qlt_le_weak. }
  assert (Hx1 : (/ d <= 16)%Q).
  { apply Qle_shift_inv_r; [done|]. rewrite Qmult_comm.
    apply (Qle_trans _ ((1 # 16) * 16)); [unfold Qle; simpl; lia|].
    by apply Qmult_le_compat_r. }
  assert (Hpos : (0 < / d)%Q) by by apply Qinv_lt_0_compat.
  destruct (ilog2_spec (/ d) Hpos) as [Hlo Hhi].
  set (K0 := ilog2 (/ d)) in *.
  assert (HK0 : 0 <= K0).
  { destruct (Z.le_gt_cases 0 K0) as [|Hneg]; [done|]. exfalso.
    assert (Hle : (pow2 (K0 + 1) <= pow2 0)%Q) by (apply pow2_le; lia).
    change (pow2 0) with 1%Q in Hle.
    apply (Qlt_irrefl (/ d)). eapply Qlt_le_trans; [exact Hhi|].
    by eapply Qle_trans. }
  assert (HK4 : K0 <= 4).
  { apply (Qpower_le_compat_l_inv 2); [|reflexivity]. fold (pow2 K0).
    change (2 ^ 4)%Q with 16%Q. by eapply Qle_trans. }
  assert (Hbr : exists k, 0 <= k <= 3
                /\ (pow2 k <= / d)%Q /\ (/ d <= pow2 (k + 1))%Q).
  { destruct (Z.eq_dec K0 4) as [E4|Hne].
    - exists 3. split; [lia|]. rewrite E4 in Hlo. split.
      + eapply Qle_trans; [|exact Hlo]. apply pow2_le. lia.
      + exact Hx1.
    - exists K0. split; [lia|]. split; [done|]. by apply Qlt_le_weak. }
  destruct Hbr as (k & Hk & Hklo & Hkhi).
  destruct (trunc_probe_bound_brackets delta d k Hlaw Hd H0
              ltac:(lia) Hklo Hkhi) as (n' & Hn' & Hb).
  assert (n = n') by congruence. lia.
Qed.



(** *** What [insert] does to its own key and to the others *)

Lemma insert_false_same (t : Table) k v :
  (insert hasher t k v).2 = false -> (insert hasher t k v).1 = t.
Proof.
  unfold insert. destruct (size_ t >=? max_inserts_ t); [done|].
  by destruct (insert_action hasher t k).
Qed.

Lemma insert_true_holds (t : Table) k v :
  Inv hasher t -> (insert hasher t k v).2 = true ->
  exists s, holds (insert hasher t k v).1 s k v.
Proof.
  intros HI. pose proof (inv_wf _ _ HI) as Hwf.
  destruct (insert_spec hasher t k v HI)
    as [Hge|s Hlt Hs He Hk|idx g Hlt Ha Hscan Hidx He Hgr|Hlt Ha Hscan];
    cbn [fst snd]; try done; intros _.
  - exists s. unfold holds. split; [done|]. split; [done|].
    rewrite entry_at_overwrite, decide_True by (done || lia). done.
  - exists idx. unfold holds. split; [done|]. split.
    + unfold empty_at. rewrite meta_at_place, decide_True by (done || lia).
      apply Z.eqb_neq, make_metadata_nonzero.
    + rewrite entry_at_place, decide_True by (done || lia). done.
Qed.

Lemma insert_absent_other (t : Table) k v k' :
  Inv hasher t -> k' <> k -> absent t k' ->
  absent (insert hasher t k v).1 k'.
Proof.
  intros HI Hne Habs. pose proof (inv_wf _ _ HI) as Hwf.
  destruct (insert_spec hasher t k v HI)
    as [Hge|s Hlt Hs He Hk|idx g Hlt Ha Hscan Hidx He Hgr|Hlt Ha Hscan];
    cbn [fst]; try done.
  - intros s' Hs' He'.
    change (capacity_ (overwrite t s v)) with (capacity_ t) in Hs'.
    rewrite key_at_overwrite by (done || lia). by apply Habs.
  - intros s' Hs' He'. cbn [capacity_ place] in Hs'.
    unfold empty_at in He'. rewrite meta_at_place in He' by (done || lia).
    rewrite entry_at_place by (done || lia).
    case_decide; [simpl; congruence|]. by apply Habs.
Qed.

Lemma insert_find_slot_other (t : Table) k v k' :
  Inv hasher t -> k' <> k ->
  find_slot hasher (insert hasher t k v).1 k' = find_slot hasher t k'
  /\ find hasher (insert hasher t k v).1 k' = find hasher t k'.
Proof.
  intros HI Hne. pose proof (inv_insert hasher t k v HI) as HI'.
  assert (Hcap : capacity_ (insert hasher t k v).1 = capacity_ t)
    by apply insert_fields.
  destruct (find_slot hasher t k') as [s|] eqn:Hf.
  - pose proof Hf as Hh. apply find_slot_holds in Hh as (Hs & He & Hk);
      [|done].
    destruct (insert_slot_persist t k v s HI Hs He) as (Hm & Hkey & Hent).
    assert (Hf' : find_slot hasher (insert hasher t k v).1 k' = Some s).
    { apply find_slot_holds; [done|]. rewrite Hcap. split; [done|]. split.
      - unfold empty_at in *. by rewrite Hm.
      - by rewrite Hkey. }
    split; [done|]. unfold find. rewrite Hf', Hf. simpl.
    rewrite Hent; [done|congruence].
  - pose proof (find_slot_None t k' HI Hf) as Habs.
    pose proof (insert_absent_other t k v k' HI Hne Habs) as Habs'.
    pose proof (find_slot_absent _ _ (inv_wf _ _ HI') Habs') as Hf'.
    split; [done|]. unfold find. by rewrite Hf', Hf.
Qed.

Lemma find_holds (t : Table) k v :
  Inv hasher t -> find hasher t k = Some v <-> exists s, holds t s k v.
Proof.
  intros HI. rewrite find_Some. unfold holds. split.
  - intros (s & Hf & Hv). exists s.
    apply find_slot_holds in Hf as (? & ? & ?); done.
  - intros (s & Hs & He & Hk & Hv). exists s. split; [|done].
    by apply find_slot_holds.
Qed.

(** *** Occupied bytes *)

Lemma filter_length_compl {A} (f : A -> bool) (l : list A) :
  (length (List.filter f l) + length (List.filter (fun x => negb (f x)) l)
   = length l)%nat.
Proof.
  induction l as [|x l IH]; [done|]. simpl.
  destruct (f x); simpl; lia.
Qed.

Lemma meta_occupied_bit (t : Table) :
  Inv hasher t ->
  Forall (fun m => Z.testbit m 7 = negb (m =? EMPTY)) (metadata_ t).
Proof.
  intros HI. pose proof (inv_wf _ _ HI) as (Hc & Hm & _).
  apply Forall_lookup_2. intros i m Hl.
  pose proof (lookup_lt_Some _ _ _ Hl) as Hi.
  destruct (Z.eqb_spec m EMPTY) as [->|Hne]; [done|]. cbn [negb].
  assert (Hmeta : meta_at t (Z.of_nat i) = m)
    by (unfold meta_at; by rewrite Nat2Z.id, Hl).
  destruct (inv_stored _ _ HI (Z.of_nat i)) as [Hs _]; [lia| |].
  - unfold empty_at. rewrite Hmeta. by apply Z.eqb_neq.
  - rewrite <- Hmeta, Hs. unfold make_metadata, OCCUPIED_BIT.
    by rewrite Z.lor_spec.
Qed.

Lemma occupied_count_size (t : Table) :
  Inv hasher t -> occupied_count t = size_ t.
Proof.
  intros HI. pose proof (inv_wf _ _ HI) as (Hc & Hm & _).
  pose proof (inv_count _ _ HI) as Hcount.
  unfold occupied_count, empty_count in *.
  rewrite (filter_ext_Forall _ (fun m => negb (m =? EMPTY)) _
             (meta_occupied_bit t HI)).
  pose proof (filter_length_compl (fun m => m =? EMPTY) (metadata_ t)). lia.
Qed.

(** *** The scan for the best candidate *)

Lemma best_loop_min (cands : list Candidate) : forall indices best_i seen,
  (best_i < length cands)%nat ->
  Forall (fun i => (i < length cands)%nat) indices ->
  (forall j, j ∈ best_i :: seen ->
             ~ lex_lt (cands !!! j) (cands !!! best_i)) ->
  (best_loop cands indices best_i < length cands)%nat
  /\ forall j, j ∈ best_i :: seen ++ indices ->
       ~ lex_lt (cands !!! j) (cands !!! best_loop cands indices best_i).
Proof.
  induction indices as [|i rest IH]; intros best_i seen Hb Hall Hmin.
  - simpl. rewrite app_nil_r. done.
  - apply Forall_cons in Hall as [Hi Hrest]. cbn [best_loop]. cbv zeta.
    set (ci := cands !!! i) in *. set (cb := cands !!! best_i) in *.
    destruct ((group_idx ci <? group_idx cb)
              || ((group_idx ci =? group_idx cb)
                  && (slot_offset ci <? slot_offset cb))) eqn:E.
    + assert (Hlt : lex_lt ci cb).
      { unfold lex_lt. apply orb_true_iff in E as [E|E]; [left; lia|].
        apply andb_true_iff in E as [E1 E2]. right. lia. }
      destruct (IH i (best_i :: seen) Hi Hrest) as [Hlen Hres].
      * intros j Hj. fold ci. apply elem_of_cons in Hj as [->|Hj].
        { fold ci. unfold lex_lt. lia. }
        specialize (Hmin j Hj). fold cb in Hmin. unfold lex_lt in *. lia.
      * split; [done|]. intros j Hj. apply Hres.
        rewrite elem_of_cons, elem_of_app, elem_of_cons in Hj.
        rewrite elem_of_cons, elem_of_app, elem_of_cons. tauto.
    + assert (Hge : ~ lex_lt ci cb).
      { unfold lex_lt. apply orb_false_iff in E as [E1 E2].
        apply andb_false_iff in E2. lia. }
      destruct (IH best_i (i :: seen) Hb Hrest) as [Hlen Hres].
      * intros j Hj. fold cb. rewrite !elem_of_cons in Hj.
        destruct Hj as [->|[->|Hj]].
        { fold cb. unfold lex_lt. lia. }
        { done. }
        apply Hmin. rewrite elem_of_cons. by right.
      * split; [done|]. intros j Hj. apply Hres.
        rewrite elem_of_cons, elem_of_app, elem_of_cons in Hj.
        rewrite elem_of_cons, elem_of_app, elem_of_cons. tauto.
Qed.


(** *** What a sequence of operations leaves alone *)

Lemma run_slot_persist (t : Table) ops s :
  reachable hasher t -> 0 <= s < capacity_ t -> empty_at t s = false ->
  meta_at (run hasher t ops) s = meta_at t s
  /\ key (entry_at (run hasher t ops) s) = key (entry_at t s).
Proof.
  revert t. induction ops as [|op ops IH]; intros t Hr Hs He; [done|].
  cbn [run foldl].
  pose proof (reachable_inv hasher t Hr) as HI.
  destruct (step_slot_persist t op s HI Hs He) as [Hm Hk].
  destruct (step_fields hasher t op) as (Hcap & _).
  destruct (IH (step hasher t op)) as [Hm' Hk'].
  - by constructor.
  - by rewrite Hcap.
  - unfold empty_at in *. by rewrite Hm.
  - fold (run hasher (step hasher t op) ops).
    split; [by rewrite Hm', Hm|by rewrite Hk', Hk].
Qed.

Lemma run_find_slot_persist (t : Table) ops k s :
  reachable hasher t -> find_slot hasher t k = Some s ->
  find_slot hasher (run hasher t ops) k = Some s.
Proof.
  intros Hr Hf. pose proof (reachable_inv hasher t Hr) as HI.
  apply find_slot_holds in Hf as (Hs & He & Hk); [|done].
  destruct (run_slot_persist t ops s Hr Hs He) as [Hm Hk'].
  pose proof (reachable_inv hasher _ (reachable_run hasher t ops Hr)) as HI'.
  destruct (run_fields hasher t ops) as (Hcap & _).
  apply find_slot_holds; [done|]. rewrite Hcap. split; [done|]. split.
  - unfold empty_at in *. by rewrite Hm.
  - by rewrite Hk'.
Qed.

(** *** Slots of a group *)

Lemma slot_in_group_wrap (t : Table) base i :
  GROUP_SIZE <= capacity_ t -> 0 <= base < capacity_ t ->
  0 <= i < GROUP_SIZE ->
  slot_in_group t base i
  = if base + i <? capacity_ t then base + i else base + i - capacity_ t.
Proof.
  unfold GROUP_SIZE, slot_in_group. intros Hc Hb Hi.
  destruct (Z.ltb_spec (base + i) (capacity_ t)).
  - apply Z.mod_small. lia.
  - symmetry. apply (Z.mod_unique_pos _ _ 1); lia.
Qed.


(** *** The probe limit of a reachable container *)

Lemma reachable_limit_le (t : Table) :
  reachable hasher t -> max_probe_limit_ t <= capacity_ t.
Proof.
  induction 1 as [capacity delta salt t Hc Hnew|t op Hr IH].
  - destruct (new_Some capacity delta salt t Hc Hnew)
      as (a & n & Hc1 & _ & _ & _ & _ & ->).
    cbn [max_probe_limit_ capacity_]. cbv zeta.
    match goal with |- context [?a >? ?b] => destruct (Z.gtb_spec a b) end;
      lia.
  - destruct (step_fields hasher t op) as (-> & _ & _ & -> & _). done.
Qed.


End MoreFacts.

(** ** Further properties of the container *)

(** X1.  The metadata codec: the fingerprint is the top seven bits of the
    64-bit hash, [(h / 2^57) mod 128]; the occupied byte is 128 plus the
    fingerprint, so it has bit 7 set, its low seven bits give the
    fingerprint back, and it is never the [EMPTY] byte. *)
Theorem metadata_codec (h : Z) :
  hash_fragment h = (h / 2 ^ 57) mod 128
  /\ 0 <= hash_fragment h < 128
  /\ make_metadata h = 128 + hash_fragment h
  /\ Z.testbit (make_metadata h) 7 = true
  /\ Z.land (make_metadata h) 127 = hash_fragment h
  /\ make_metadata h <> EMPTY.
Proof.
  pose proof (hash_fragment_mod h) as Hf.
  assert (Hr : 0 <= hash_fragment h < 128)
    by (rewrite Hf; apply Z.mod_pos_bound; lia).
  split; [done|]. split; [done|]. split; [apply make_metadata_sum|].
  split; [|split; [|apply make_metadata_nonzero]].
  - unfold make_metadata, OCCUPIED_BIT. by rewrite Z.lor_spec.
  - rewrite make_metadata_sum. change 127 with (Z.ones 7).
    rewrite Z.land_ones by lia. change (2 ^ 7) with 128.
    rewrite <- (Z.mul_1_l 128) at 1.
    rewrite Z.add_comm, Z.mod_add by lia. apply Z.mod_small. lia.
Qed.

Section Extras.

Context {K V : Type} `{EqDecision K} `{!Inhabited K} `{!Inhabited V}.
Context {libm : MathLib}.
Variable hasher : K -> Z.

Abbreviation Table := (GroupedSIMDElastic K V).

(** X2.  The group scanner on a contiguous group: bit [i] of the empty mask
    is set exactly when [metadata_[base + i]] is [EMPTY], bit [i] of the
    match mask exactly when it equals the target byte, and both masks fit in
    sixteen bits. *)
Theorem group_masks (t : Table) (base meta i : Z) :
  wf t -> 0 <= base -> base + GROUP_SIZE <= capacity_ t ->
  0 <= i < GROUP_SIZE ->
  Z.testbit (empty_mask_of t base) i = (meta_at t (base + i) =? EMPTY)
  /\ Z.testbit (match_mask_of t base meta) i = (meta_at t (base + i) =? meta)
  /\ 0 <= empty_mask_of t base < 2 ^ 16
  /\ 0 <= match_mask_of t base meta < 2 ^ 16.
Proof.
  intros Hwf Hb Hfit Hi. unfold GROUP_SIZE in Hi.
  assert (Hlen : (Z.to_nat base + 16 <= length (metadata_ t))%nat)
    by (destruct Hwf as (? & -> & _); unfold GROUP_SIZE in Hfit; lia).
  assert (Hbit : forall b,
    Z.testbit (mm_movemask_epi8
                 (mm_cmpeq_epi8 (mm_loadu_si128 (metadata_ t) base)
                                (mm_set1_epi8 b))) i
    = (meta_at t (base + i) =? b)
    /\ 0 <= mm_movemask_epi8
              (mm_cmpeq_epi8 (mm_loadu_si128 (metadata_ t) base)
                             (mm_set1_epi8 b)) < 2 ^ 16).
  { intros b. rewrite mask_of_loadu by done.
    change (2 ^ Z.of_nat 0) with 1. rewrite Z.mul_1_l. split.
    - rewrite <- (Z2Nat.id i) at 1 by lia.
      rewrite mask_of_testbit, list_lookup_fmap, lookup_seqZ_lt by lia.
      simpl. by rewrite Z2Nat.id by lia.
    - pose proof (mask_of_bound
                    ((fun i => meta_at t (base + i) =? b)
                       <$> seqZ 0 (Z.of_nat 16))) as Hbd.
      by rewrite length_fmap, length_seqZ in Hbd. }
  unfold empty_mask_of, match_mask_of.
  destruct (Hbit EMPTY) as [? ?]. destruct (Hbit meta) as [? ?]. done.
Qed.


(** X4.  A freshly constructed container holds nothing: [find] of any key
    is [nullptr], [contains] is false, the size is 0 and every metadata
    byte is [EMPTY]. *)
Theorem fresh_container_is_empty (capacity : Z) (delta : double) (salt : Z)
        (t : Table) (k : K) :
  0 <= capacity ->
  new capacity delta salt = Some t ->
  find hasher t k = None /\ contains hasher t k = false
  /\ size t = 0 /\ empty_count t = capacity.
Proof.
  intros Hc Hnew. pose proof (inv_new hasher _ _ _ t Hc Hnew) as HI.
  pose proof (find_slot_absent hasher t k (inv_wf _ _ HI)
                (new_absent _ _ _ t k Hc Hnew)) as Hf.
  pose proof (inv_count _ _ HI) as Hcount.
  destruct (new_Some capacity delta salt t Hc Hnew)
    as (a & n & _ & _ & _ & _ & _ & Ht).
  split; [by apply find_None|]. split; [by apply contains_false|].
  unfold size. subst t. cbn [size_ capacity_] in *. lia.
Qed.

(** X5.  The first insert into a freshly constructed container always
    succeeds: it returns [true], the size becomes 1, the high-water mark
    stays 0, the key is found with its value and no other key is found. *)
Theorem first_insert_succeeds (capacity : Z) (delta : double) (salt : Z)
        (t : Table) (k : K) (v : V) :
  0 <= capacity ->
  new capacity delta salt = Some t ->
  (insert hasher t k v).2 = true
  /\ size (insert hasher t k v).1 = 1
  /\ max_group_used (insert hasher t k v).1 = 0
  /\ find hasher (insert hasher t k v).1 k = Some v
  /\ forall k', k' <> k -> find hasher (insert hasher t k v).1 k' = None.
Proof.
  intros Hc Hnew. pose proof (inv_new hasher _ _ _ t Hc Hnew) as HI.
  pose proof (inv_insert hasher t k v HI) as HI'.
  pose proof (inv_wf _ _ HI) as Hwf. pose proof (inv_groups _ _ HI) as Hg.
  destruct (new_Some capacity delta salt t Hc Hnew)
    as (a & n & Hc1 & _ & _ & Harange & _ & Ht).
  pose proof (max_inserts_range capacity delta salt t Hc Hnew) as Hmi.
  assert (Hsz : size_ t = 0) by by subst t.
  assert (Hmgu : max_group_used_ t = 0) by by subst t.
  assert (Hmax : max_inserts_ t = capacity - a) by by subst t.
  clear Ht.
  assert (Hall : forall s, 0 <= s < capacity_ t -> empty_at t s = true)
    by (intros; by eapply new_all_empty).
  destruct (insert_spec hasher t k v HI)
    as [Hge|s Hlt Hs He Hk|idx g Hlt Habs Hscan Hidx He Hgr|Hlt Habs Hscan].
  - lia.
  - rewrite Hall in He by done. done.
  - cbn [fst snd]. apply scan_place_first in Hscan
      as (i & Hg' & Hi & Hidx' & _ & Hbefore).
    assert (g = 0).
    { destruct (Z.eq_dec g 0) as [|Hne]; [done|]. exfalso.
      specialize (Hbefore 0 0 ltac:(lia) ltac:(unfold GROUP_SIZE; lia)
                    ltac:(left; lia)).
      rewrite Hall in Hbefore; [done|]. apply slot_in_group_range, Hwf. }
    subst g.
    set (t' := place t idx 0 (make_metadata (hash_with_salt hasher t k)) k v)
      in *.
    assert (Hent : entry_at t' idx = mkEntry k v)
      by (unfold t'; by rewrite entry_at_place, decide_True by (done || lia)).
    assert (He' : empty_at t' idx = false).
    { unfold empty_at, t'. rewrite meta_at_place, decide_True by (done || lia).
      apply Z.eqb_neq, make_metadata_nonzero. }
    split; [done|]. unfold size, max_group_used.
    split; [unfold t'; cbn [size_ place]; lia|].
    split; [unfold t'; cbn [max_group_used_ place]; rewrite Hmgu; done|].
    split.
    + pose proof (find_stored hasher t' idx HI' Hidx He') as Hf.
      by rewrite Hent in Hf.
    + intros k' Hne. apply find_None, find_slot_absent; [apply HI'|].
      intros s Hs Hes. change (capacity_ t') with (capacity_ t) in Hs.
      destruct (decide (s = idx)) as [->|Hn]; [by rewrite Hent|].
      exfalso. unfold empty_at, t' in Hes.
      rewrite meta_at_place, decide_False in Hes by (done || lia).
      pose proof (Hall s Hs) as Ha. unfold empty_at in Ha. congruence.
  - exfalso.
    pose proof (proj1 (probe_exhausted_scan hasher t k) Hscan) as Hex.
    destruct (Hex 0 0 ltac:(lia) ltac:(unfold GROUP_SIZE; lia)) as [He _].
    rewrite Hall in He; [done|]. apply slot_in_group_range, Hwf.
Qed.

(** X6.  On a reachable container [find] is sound and complete: it returns
    a value exactly when some occupied slot holds the key with that value,
    and [nullptr] exactly when no occupied slot holds the key. *)
Theorem find_sound_complete (t : Table) (k : K) :
  reachable hasher t ->
  (forall v, find hasher t k = Some v <-> exists s, holds t s k v)
  /\ (find hasher t k = None <-> absent t k).
Proof.
  intros Hr. pose proof (reachable_inv hasher t Hr) as HI. split.
  - intros v. by apply find_holds.
  - rewrite find_None. split; [by apply find_slot_None|].
    apply find_slot_absent, HI.
Qed.

(** X7.  An insert of key [k] does not disturb any other key: whatever the
    call returns, [find] and [contains] of every [k' <> k] answer as
    before. *)
Theorem insert_preserves_other_keys (t : Table) (k k' : K) (v : V) :
  reachable hasher t -> k' <> k ->
  find hasher (insert hasher t k v).1 k' = find hasher t k'
  /\ contains hasher (insert hasher t k v).1 k' = contains hasher t k'.
Proof.
  intros Hr Hne. pose proof (reachable_inv hasher t Hr) as HI.
  destruct (insert_find_slot_other hasher t k v k' HI Hne) as [Hs Hf].
  split; [done|]. unfold contains. by rewrite Hs.
Qed.

(** X8.  Inserting a key that is already present, below the insert cap,
    overwrites the value in place: the call returns [true], the key is
    found with the new value, and the size, the metadata bytes, the
    high-water mark and the keys of all slots are unchanged. *)
Theorem insert_existing_overwrites (t : Table) (k : K) (v : V) :
  reachable hasher t -> size_ t < max_inserts_ t ->
  contains hasher t k = true ->
  (insert hasher t k v).2 = true
  /\ find hasher (insert hasher t k v).1 k = Some v
  /\ size_ (insert hasher t k v).1 = size_ t
  /\ metadata_ (insert hasher t k v).1 = metadata_ t
  /\ max_group_used_ (insert hasher t k v).1 = max_group_used_ t
  /\ key <$> table_ (insert hasher t k v).1 = key <$> table_ t.
Proof.
  intros Hr Hlt Hc. pose proof (reachable_inv hasher t Hr) as HI.
  pose proof (inv_insert hasher t k v HI) as HI'.
  pose proof (inv_wf _ _ HI) as Hwf.
  apply contains_true in Hc as [s0 Hs0].
  apply find_slot_holds in Hs0 as (Hr0 & He0 & Hk0); [|done].
  destruct (insert_spec hasher t k v HI)
    as [Hge|s _ Hs He Hk|idx g _ Ha Hscan Hidx He Hgr|_ Ha Hscan].
  - lia.
  - cbn [fst snd].
    assert (Hent : entry_at (overwrite t s v) s = mkEntry k v)
      by (rewrite entry_at_overwrite, decide_True by (done || lia);
          by rewrite Hk).
    split; [done|]. split.
    { pose proof (find_stored hasher (overwrite t s v) s HI' Hs He) as Hf.
      by rewrite Hent in Hf. }
    split; [done|]. split; [done|]. split; [done|].
    cbn [table_ overwrite]. rewrite list_fmap_insert. apply list_insert_id.
    rewrite list_lookup_fmap. unfold entry_at.
    destruct Hwf as (_ & _ & Hlen).
    destruct (lookup_lt_is_Some_2 (table_ t) (Z.to_nat s)) as [e ->]; [lia|].
    done.
  - exfalso. by apply (Ha s0).
  - exfalso. by apply (Ha s0).
Qed.

(** X9.  A successful insert of a key that was not present takes exactly
    one empty slot: the size grows by one and the number of [EMPTY]
    metadata bytes drops by one. *)
Theorem insert_new_key_grows (t : Table) (k : K) (v : V) :
  reachable hasher t -> contains hasher t k = false ->
  (insert hasher t k v).2 = true ->
  size_ (insert hasher t k v).1 = size_ t + 1
  /\ empty_count (insert hasher t k v).1 = empty_count t - 1.
Proof.
  intros Hr Hc. pose proof (reachable_inv hasher t Hr) as HI.
  pose proof (inv_insert hasher t k v HI) as HI'.
  pose proof (inv_count _ _ HI) as Hcnt.
  pose proof (inv_count _ _ HI') as Hcnt'.
  apply contains_false in Hc.
  pose proof (find_slot_None hasher t k HI Hc) as Habs.
  destruct (insert_fields hasher t k v) as (Hcap & _).
  assert (Hsz : (insert hasher t k v).2 = true ->
                size_ (insert hasher t k v).1 = size_ t + 1).
  { destruct (insert_spec hasher t k v HI)
      as [Hge|s _ Hs He Hk|idx g _ Ha Hscan Hidx He Hgr|_ Ha Hscan];
      cbn [fst snd]; try done.
    intros _. exfalso. by apply (Habs s). }
  intros Ht. specialize (Hsz Ht). split; [done|]. lia.
Qed.

(** X10.  [size()] is the number of occupied slots: on a reachable
    container it equals the number of metadata bytes with the occupied bit
    set, and it never exceeds the insert cap nor the capacity. *)
Theorem size_counts_occupied (t : Table) :
  reachable hasher t ->
  size t = occupied_count t
  /\ 0 <= size t <= max_inserts_ t
  /\ max_inserts_ t <= capacity t.
Proof.
  intros Hr. pose proof (reachable_inv hasher t Hr) as HI.
  unfold size, capacity. split; [by rewrite (occupied_count_size hasher)|].
  split; [apply HI|]. apply (inv_max_inserts _ _ HI).
Qed.

(** X11.  Nothing is ever removed or moved: once a slot is occupied, every
    later sequence of operations leaves its metadata byte and its key as
    they are, and a lookup of that key keeps returning this slot. *)
Theorem occupied_slot_is_stable (t : Table) (ops : list (operation (K:=K) (V:=V)))
        (s : Z) :
  reachable hasher t -> 0 <= s < capacity_ t -> empty_at t s = false ->
  meta_at (run hasher t ops) s = meta_at t s
  /\ key (entry_at (run hasher t ops) s) = key (entry_at t s)
  /\ find_slot hasher (run hasher t ops) (key (entry_at t s)) = Some s.
Proof.
  intros Hr Hs He.
  destruct (run_slot_persist hasher t ops s Hr Hs He) as [Hm Hk].
  split; [done|]. split; [done|].
  apply run_find_slot_persist; [done|].
  apply find_slot_stored; [by apply reachable_inv|done..].
Qed.

(** X12.  The metadata array is a faithful filter: on a reachable container
    every metadata byte is either [EMPTY] or the occupied byte computed
    from the salted hash of the key stored in the same slot, which lies in
    128..255. *)
Theorem metadata_is_fingerprint (t : Table) (s : Z) :
  reachable hasher t -> 0 <= s < capacity_ t ->
  meta_at t s = EMPTY
  \/ (meta_at t s = key_meta hasher t (key (entry_at t s))
      /\ 128 <= meta_at t s <= 255).
Proof.
  intros Hr Hs. pose proof (reachable_inv hasher t Hr) as HI.
  destruct (Z.eqb_spec (meta_at t s) EMPTY) as [|Hne]; [by left|]. right.
  destruct (inv_stored _ _ HI s Hs) as [Hm _];
    [unfold empty_at; by apply Z.eqb_neq|].
  cbv zeta in Hm. split; [done|]. rewrite Hm, make_metadata_sum.
  pose proof (hash_fragment_mod
                (hash_with_salt hasher t (key (entry_at t s)))) as Hf.
  pose proof (Z.mod_pos_bound
                (hash_with_salt hasher t (key (entry_at t s)) / 2 ^ 57) 128
                ltac:(lia)). lia.
Qed.

(** X13.  No key is stored twice: on a reachable container two occupied
    slots that hold the same key are the same slot, with the same value. *)
Theorem key_stored_once (t : Table) (k : K) (s1 s2 : Z) (v1 v2 : V) :
  reachable hasher t -> holds t s1 k v1 -> holds t s2 k v2 ->
  s1 = s2 /\ v1 = v2.
Proof.
  intros Hr (Hs1 & He1 & Hk1 & Hv1) (Hs2 & He2 & Hk2 & Hv2).
  pose proof (reachable_inv hasher t Hr) as HI.
  assert (s1 = s2) by (apply (inv_unique _ _ HI); congruence).
  subst s2. split; [done|congruence].
Qed.

(** X14.  [operator[]] on a reachable container: a present key leaves the
    container untouched; a returned slot is occupied by the key, with the
    default value when the key was new; no slot is returned (the reference
    is taken through a null pointer) exactly when the key is absent and the
    insert of the default value is refused; other keys are undisturbed. *)
Theorem index_behaviour (t : Table) (k : K) :
  reachable hasher t ->
  (contains hasher t k = true -> (index hasher t k).1 = t)
  /\ (forall s, (index hasher t k).2 = Some s ->
        0 <= s < capacity_ t
        /\ empty_at (index hasher t k).1 s = false
        /\ key (entry_at (index hasher t k).1 s) = k
        /\ (contains hasher t k = false ->
            value (entry_at (index hasher t k).1 s) = inhabitant))
  /\ ((index hasher t k).2 = None
      <-> contains hasher t k = false
          /\ (insert hasher t k inhabitant).2 = false)
  /\ (forall k', k' <> k ->
        find hasher (index hasher t k).1 k' = find hasher t k').
Proof.
  intros Hr. pose proof (reachable_inv hasher t Hr) as HI.
  pose proof (inv_insert hasher t k inhabitant HI) as HI'.
  destruct (insert_fields hasher t k inhabitant) as (Hcap & _).
  unfold index. destruct (find_slot hasher t k) as [idx|] eqn:Hf;
    cbv zeta; cbn [fst snd].
  - assert (Hc : contains hasher t k = true) by (apply contains_true; eauto).
    split; [done|]. split.
    { intros s [= <-]. apply find_slot_holds in Hf as (? & ? & ?); [|done].
      split; [done|]. split; [done|]. split; [done|]. congruence. }
    split; [|done]. split; [done|]. intros [? _]. congruence.
  - assert (Hc : contains hasher t k = false) by by apply contains_false.
    split; [congruence|]. split; [|split].
    + intros s Hs. pose proof Hs as Hh.
      apply find_slot_holds in Hh as (Hs1 & Hs2 & Hs3); [|done].
      rewrite Hcap in Hs1. split; [done|]. split; [done|]. split; [done|].
      intros _.
      destruct ((insert hasher t k inhabitant).2) eqn:Hb.
      * destruct (insert_true_holds hasher t k inhabitant HI Hb)
          as (s0 & Hr0 & He0 & Hk0 & Hv0).
        assert (Hs0 : find_slot hasher (insert hasher t k inhabitant).1 k
                      = Some s0) by by apply find_slot_holds.
        congruence.
      * rewrite (insert_false_same hasher t k inhabitant Hb) in Hs.
        congruence.
    + split.
      * intros Hn. split; [done|].
        destruct ((insert hasher t k inhabitant).2) eqn:Hb; [|done].
        destruct (insert_true_holds hasher t k inhabitant HI Hb)
          as (s0 & Hr0 & He0 & Hk0 & Hv0).
        assert (Hs0 : find_slot hasher (insert hasher t k inhabitant).1 k
                      = Some s0) by by apply find_slot_holds.
        congruence.
      * intros [_ Hb].
        by rewrite (insert_false_same hasher t k inhabitant Hb).
    + intros k' Hne.
      by destruct (insert_find_slot_other hasher t k inhabitant k' HI Hne).
Qed.

(** X15.  [contains] answers whether the key is stored: on a reachable
    container it is [true] exactly when some occupied slot holds the key,
    and once [true] it stays [true] after any further operations. *)
Theorem contains_iff_stored (t : Table) (k : K)
        (ops : list (operation (K:=K) (V:=V))) :
  reachable hasher t ->
  (contains hasher t k = true <-> exists s v, holds t s k v)
  /\ (contains hasher t k = true ->
      contains hasher (run hasher t ops) k = true).
Proof.
  intros Hr. pose proof (reachable_inv hasher t Hr) as HI. split.
  - rewrite contains_true. unfold holds. split.
    + intros [s Hs]. exists s, (value (entry_at t s)).
      apply find_slot_holds in Hs as (? & ? & ?); done.
    + intros (s & v & Hs & He & Hk & _). exists s. by apply find_slot_holds.
  - rewrite !contains_true. intros [s Hs]. exists s.
    by apply run_find_slot_persist.
Qed.

(** X16.  A new key goes to the first empty position of its probe sequence:
    when the insert of an absent key succeeds, there is a group [g] below
    [max_groups] and an offset [i] such that the slot at [(g, i)] was empty,
    every earlier position (lower group, or same group and lower offset) was
    occupied, the slot now holds the record, and the high-water mark is the
    maximum of its old value and [g]. *)
Theorem insert_places_at_first_empty (t : Table) (k : K) (v : V) :
  reachable hasher t -> contains hasher t k = false ->
  (insert hasher t k v).2 = true ->
  exists g i,
    0 <= g < max_groups t /\ 0 <= i < GROUP_SIZE
    /\ empty_at t (probe_slot hasher t k g i) = true
    /\ (forall g' i', 0 <= g' -> 0 <= i' < GROUP_SIZE ->
          probes_before g' i' g i ->
          empty_at t (probe_slot hasher t k g' i') = false)
    /\ holds (insert hasher t k v).1 (probe_slot hasher t k g i) k v
    /\ max_group_used_ (insert hasher t k v).1
       = Z.max (max_group_used_ t) g.
Proof.
  intros Hr Hc. pose proof (reachable_inv hasher t Hr) as HI.
  pose proof (inv_wf _ _ HI) as Hwf.
  apply contains_false in Hc.
  pose proof (find_slot_None hasher t k HI Hc) as Habs.
  destruct (insert_spec hasher t k v HI)
    as [Hge|s _ Hs He Hk|idx g _ Ha Hscan Hidx He Hgr|_ Ha Hscan];
    cbn [fst snd]; try done.
  - intros _. exfalso. by apply (Habs s).
  - intros _.
    apply scan_place_first in Hscan as (i & _ & Hi & Hidx' & _ & Hbefore).
    exists g, i. unfold probe_slot. rewrite <- Hidx'.
    split; [done|]. split; [done|]. split; [done|]. split; [done|]. split.
    + unfold holds. cbn [capacity_ place]. split; [done|]. split.
      * unfold empty_at.
        rewrite meta_at_place, decide_True by (done || lia).
        apply Z.eqb_neq, make_metadata_nonzero.
      * rewrite entry_at_place, decide_True by (done || lia). done.
    + cbn [max_group_used_ place].
      destruct (Z.gtb_spec g (max_group_used_ t)); lia.
Qed.

(** X17.  An empty slot in the first group of a key's probe sequence is
    enough: below the insert cap the insert then returns [true] and leaves
    the high-water mark where it was. *)
Theorem insert_with_room_in_first_group (t : Table) (k : K) (v : V) (i : Z) :
  reachable hasher t -> size_ t < max_inserts_ t ->
  0 <= i < GROUP_SIZE -> empty_at t (probe_slot hasher t k 0 i) = true ->
  (insert hasher t k v).2 = true
  /\ max_group_used_ (insert hasher t k v).1 = max_group_used_ t.
Proof.
  intros Hr Hlt Hi Hempty. pose proof (reachable_inv hasher t Hr) as HI.
  pose proof (inv_groups _ _ HI) as Hg.
  destruct (insert_spec hasher t k v HI)
    as [Hge|s _ Hs He Hk|idx g _ Ha Hscan Hidx He Hgr|_ Ha Hscan];
    cbn [fst snd].
  - lia.
  - done.
  - split; [done|]. cbn [max_group_used_ place].
    apply scan_place_first in Hscan as (i0 & _ & Hi0 & _ & _ & Hbefore).
    assert (g = 0).
    { destruct (Z.eq_dec g 0) as [|Hne]; [done|]. exfalso.
      specialize (Hbefore 0 i ltac:(lia) Hi ltac:(left; lia)).
      unfold probe_slot in Hempty. congruence. }
    subst g. destruct (Z.gtb_spec 0 (max_group_used_ t)); lia.
  - exfalso.
    pose proof (proj1 (probe_exhausted_scan hasher t k) Hscan) as Hex.
    destruct (Hex 0 i ltac:(lia) Hi) as [He _]. congruence.
Qed.

(** X18.  With [delta >= 1/16] the probe bound [4 * log2(1/delta)] is at
    most 16, so the container probes a single group per key: through any
    sequence of operations [max_probe_limit()] is [min(capacity, 16)],
    one group is probed, [max_group_used()] stays 0 and
    [max_probe_used()] is 15. *)
Theorem large_delta_single_group (capacity : Z) (delta : double) (salt : Z)
        (t0 : Table) (ops : list (operation (K:=K) (V:=V))) :
  log2_brackets std_log2 ->
  0 <= capacity -> new capacity delta salt = Some t0 ->
  (1 # 16 <= B2Q delta)%Q ->
  max_probe_limit (run hasher t0 ops) = Z.min capacity 16
  /\ max_groups (run hasher t0 ops) = 1
  /\ max_group_used (run hasher t0 ops) = 0
  /\ max_probe_used (run hasher t0 ops) = 15.
Proof.
  intros Hlaw Hc Hnew Hd.
  assert (Hr : reachable hasher (run hasher t0 ops))
    by (apply reachable_run; by eapply reachable_new).
  pose proof (inv_groups _ _ (reachable_inv hasher _ Hr)) as Hg.
  destruct (run_fields hasher t0 ops) as (Hcap & _ & _ & Hmpl & _).
  destruct (new_delta _ _ _ _ Hnew) as (d & Hdec & Hd0 & Hd1).
  unfold B2Q in Hd. rewrite Hdec in Hd.
  destruct (new_Some capacity delta salt t0 Hc Hnew)
    as (a & n & Hc1 & _ & Hn & _ & Hn0 & Ht).
  pose proof (trunc_probe_bound_large_delta delta d n Hlaw Hdec Hd1 Hd Hn)
    as Hb.
  assert (Hl : max_probe_limit_ t0 = Z.min capacity 16).
  { subst t0. cbn [max_probe_limit_]. cbv zeta. unfold GROUP_SIZE.
    destruct (Z.ltb_spec n 16);
      match goal with |- context [?a >? ?b] => destruct (Z.gtb_spec a b) end;
      lia. }
  assert (Hcap0 : capacity_ t0 = capacity) by by subst t0.
  assert (Hmg : max_groups (run hasher t0 ops) = 1).
  { unfold max_groups. rewrite Hcap, Hmpl, Hl, Hcap0. cbv zeta.
    unfold GROUP_SIZE.
    assert ((Z.min capacity 16 + 16 - 1) / 16 = 1)
      by (symmetry; apply (Z.div_unique_pos _ _ _ (Z.min capacity 16 - 1)); lia).
    assert (1 <= (capacity + 16 - 1) / 16)
      by (apply Z.div_le_lower_bound; lia).
    destruct (Z.ltb_spec ((Z.min capacity 16 + 16 - 1) / 16)
                         ((capacity + 16 - 1) / 16)); lia. }
  unfold max_probe_limit, max_group_used, max_probe_used, GROUP_SIZE.
  rewrite Hmg in Hg. split; [by rewrite Hmpl|]. split; [done|]. lia.
Qed.

(** X19.  A table of at most one group never runs out of probe positions:
    with [capacity <= 16] every insert below the cap returns [true]. *)
Theorem small_table_insert_succeeds (t : Table) (k : K) (v : V) :
  reachable hasher t -> capacity_ t <= GROUP_SIZE ->
  size_ t < max_inserts_ t ->
  (insert hasher t k v).2 = true.
Proof.
  intros Hr Hsmall Hlt. pose proof (reachable_inv hasher t Hr) as HI.
  pose proof (inv_wf _ _ HI) as Hwf. pose proof (inv_groups _ _ HI) as Hg.
  destruct (insert_spec hasher t k v HI)
    as [Hge|s _ Hs He Hk|idx g _ Ha Hscan Hidx He Hgr|_ Ha Hscan];
    cbn [snd]; [lia|done|done|]. exfalso.
  pose proof (proj1 (probe_exhausted_scan hasher t k) Hscan) as Hex.
  destruct (empty_count_pos t Hwf) as (s & Hs & He).
  { rewrite (inv_count _ _ HI). pose proof (inv_max_inserts _ _ HI). lia. }
  destruct (small_table_slot_in_group t
              (group_base t (hash_with_salt hasher t k) 0) s)
    as (i & Hi & Hsi); [destruct Hwf; lia|done|].
  destruct (Hex 0 i ltac:(lia) Hi) as [He' _].
  unfold probe_slot in He'. congruence.
Qed.

(** X20.  [load_factor()] of a reachable container lies between 0 and 1. *)
Theorem load_factor_bounds (t : Table) :
  reachable hasher t ->
  (0 <= load_factor t)%Q /\ (load_factor t <= 1)%Q.
Proof.
  intros Hr. pose proof (reachable_inv hasher t Hr) as HI.
  pose proof (inv_wf _ _ HI) as (Hc & _).
  pose proof (inv_size _ _ HI) as Hs.
  pose proof (inv_max_inserts _ _ HI) as Hm.
  assert (Hpos : (0 < inject_Z (capacity_ t))%Q)
    by (change 0%Q with (inject_Z 0); rewrite <- Zlt_Qlt; lia).
  unfold load_factor. split.
  - apply Qle_shift_div_l; [done|]. rewrite Qmult_0_l.
    change 0%Q with (inject_Z 0). rewrite <- Zle_Qle. lia.
  - apply Qle_shift_div_r; [done|]. rewrite Qmult_1_l.
    rewrite <- Zle_Qle. lia.
Qed.

(** X21.  [max_probe_used()] bounds the probe offset of every stored key:
    on a reachable container it lies between 15 and
    [16 * max_groups - 1], and every occupied slot is the slot of its key's
    probe sequence at some group [g] and offset [i] with
    [16 * g + i <= max_probe_used()]. *)
Theorem max_probe_used_covers (t : Table) :
  reachable hasher t ->
  GROUP_SIZE - 1 <= max_probe_used t <= GROUP_SIZE * max_groups t - 1
  /\ forall s, 0 <= s < capacity_ t -> empty_at t s = false ->
       exists g i, 0 <= g /\ 0 <= i < GROUP_SIZE
         /\ GROUP_SIZE * g + i <= max_probe_used t
         /\ probe_slot hasher t (key (entry_at t s)) g i = s.
Proof.
  intros Hr. pose proof (reachable_inv hasher t Hr) as HI.
  pose proof (inv_groups _ _ HI) as Hg.
  unfold max_probe_used, GROUP_SIZE. split; [lia|].
  intros s Hs He.
  destruct (inv_stored _ _ HI s Hs He) as [_ (l1 & c & l2 & HL & Hc & _)].
  assert (Hin : c ∈ probe_list t
                  (hash_with_salt hasher t (key (entry_at t s)))
                  (seqZ 0 (max_group_used_ t + 1)))
    by (rewrite HL; apply elem_of_app; right; left).
  apply probe_list_elem in Hin as (Hgin & Hoff & Hidx).
  apply elem_of_seqZ in Hgin.
  exists (group_idx c), (slot_offset c). unfold probe_slot.
  split; [lia|]. split; [done|]. split; [lia|]. congruence.
Qed.

(** X22.  What [insert] never touches: a call that returns [false] leaves
    the container exactly as it was, and no call changes the capacity, the
    insert cap, the probe limit, the salt or the lengths of the two
    vectors. *)
Theorem insert_frame (t : Table) (k : K) (v : V) :
  ((insert hasher t k v).2 = false -> (insert hasher t k v).1 = t)
  /\ capacity_ (insert hasher t k v).1 = capacity_ t
  /\ max_inserts_ (insert hasher t k v).1 = max_inserts_ t
  /\ max_probe_limit_ (insert hasher t k v).1 = max_probe_limit_ t
  /\ salt_ (insert hasher t k v).1 = salt_ t
  /\ length (metadata_ (insert hasher t k v).1) = length (metadata_ t)
  /\ length (table_ (insert hasher t k v).1) = length (table_ t).
Proof.
  split; [apply insert_false_same|]. unfold insert.
  destruct (size_ t >=? max_inserts_ t); [done|].
  destruct (insert_action hasher t k) as [[idx|idx g]|]; cbn;
    by rewrite ?length_insert.
Qed.

(** X23.  In a group that starts inside the table, with a capacity of at
    least 16, the slot at offset [i] is [base + i], reduced by the capacity
    when it runs past the end, and the sixteen slots of the group are
    pairwise distinct. *)
Theorem group_slots_wrap (t : Table) (base i j : Z) :
  GROUP_SIZE <= capacity_ t -> 0 <= base < capacity_ t ->
  0 <= i < GROUP_SIZE -> 0 <= j < GROUP_SIZE ->
  slot_in_group t base i
  = (if base + i <? capacity_ t then base + i else base + i - capacity_ t)
  /\ (slot_in_group t base i = slot_in_group t base j -> i = j).
Proof.
  intros Hc Hb Hi Hj. split; [by apply slot_in_group_wrap|].
  rewrite !slot_in_group_wrap by done. unfold GROUP_SIZE in *.
  destruct (Z.ltb_spec (base + i) (capacity_ t));
    destruct (Z.ltb_spec (base + j) (capacity_ t)); lia.
Qed.

(** X24.  Salting keeps collisions as they are: two keys have the same
    salted hash exactly when the hash function gives them the same hash,
    and with salt 0 the salted hash is the hash itself. *)
Theorem salt_preserves_collisions (t : Table) (k1 k2 : K) :
  (hash_with_salt hasher t k1 = hash_with_salt hasher t k2
   <-> hasher k1 = hasher k2)
  /\ (salt_ t = 0 -> hash_with_salt hasher t k1 = hasher k1).
Proof.
  unfold hash_with_salt. split.
  - split; [|by intros ->]. intros E.
    apply (f_equal (fun x => Z.lxor x (salt_ t))) in E.
    by rewrite !Z.lxor_assoc, !Z.lxor_nilpotent, !Z.lxor_0_r in E.
  - intros ->. apply Z.lxor_0_r.
Qed.

(** X25.  On a reachable container the probe limit never exceeds the
    capacity, so the number of groups probed is the probe limit divided by
    16, rounded up: the clamp to the number of groups of the table is never
    the smaller one, and the last probed group starts below the limit. *)
Theorem max_groups_closed_form (t : Table) :
  reachable hasher t ->
  max_probe_limit_ t <= capacity_ t
  /\ max_groups t = cdiv (max_probe_limit_ t) GROUP_SIZE
  /\ GROUP_SIZE * (max_groups t - 1) < max_probe_limit_ t.
Proof.
  intros Hr. pose proof (reachable_limit_le hasher t Hr) as Hle.
  pose proof (inv_limit _ _ (reachable_inv hasher t Hr)) as Hl.
  assert (Hmg : max_groups t = (max_probe_limit_ t + 16 - 1) / 16).
  { unfold max_groups. cbv zeta. unfold GROUP_SIZE.
    assert ((max_probe_limit_ t + 16 - 1) / 16 <= (capacity_ t + 16 - 1) / 16)
      by (apply Z.div_le_mono; lia).
    destruct (Z.ltb_spec ((max_probe_limit_ t + 16 - 1) / 16)
                         ((capacity_ t + 16 - 1) / 16)); lia. }
  split; [done|]. split; [by rewrite <- cdiv_group|].
  rewrite Hmg. unfold GROUP_SIZE.
  pose proof (Z.div_mod (max_probe_limit_ t + 16 - 1) 16 ltac:(lia)).
  pose proof (Z.mod_pos_bound (max_probe_limit_ t + 16 - 1) 16 ltac:(lia)).
  lia.
Qed.

(** X26.  Inserting the same record twice is the same as inserting it
    once: on a reachable container the second call leaves the state that
    the first call produced. *)
Theorem insert_idempotent (t : Table) (k : K) (v : V) :
  reachable hasher t ->
  (insert hasher (insert hasher t k v).1 k v).1 = (insert hasher t k v).1.
Proof.
  intros Hr. pose proof (reachable_inv hasher t Hr) as HI.
  pose proof (inv_insert hasher t k v HI) as HI1.
  destruct ((insert hasher t k v).2) eqn:Hb.
  - destruct (insert_true_holds hasher t k v HI Hb)
      as (s0 & Hs0 & He0 & Hk0 & Hv0).
    revert HI1 Hs0 He0 Hk0 Hv0.
    generalize ((insert hasher t k v).1). intros t1 HI1 Hs0 He0 Hk0 Hv0.
    pose proof (inv_wf _ _ HI1) as (_ & _ & Hlen).
    destruct (insert_spec hasher t1 k v HI1)
      as [Hge|s _ Hs He Hk|idx g _ Ha Hscan Hidx He Hgr|_ Ha Hscan];
      cbn [fst]; try done.
    + assert (s = s0) by (apply (inv_unique _ _ HI1); congruence).
      subst s. unfold overwrite.
      assert (Hid : <[Z.to_nat s0 := mkEntry (key (entry_at t1 s0)) v]>
                      (table_ t1) = table_ t1).
      { apply list_insert_id. unfold entry_at in *.
        destruct (lookup_lt_is_Some_2 (table_ t1) (Z.to_nat s0)) as [e He'];
          [lia|].
        rewrite He' in *. simpl in *. destruct e; simpl in *. congruence. }
      rewrite Hid. by destruct t1.
    + exfalso. by apply (Ha s0).
  - rewrite (insert_false_same hasher t k v Hb).
    by apply insert_false_same.
Qed.

End Extras.

(** X27.  The choice among the recorded candidates: for a non-empty buffer
    the chosen candidate is one of the buffer, and no candidate of the
    buffer is lexicographically below it in (group, offset). *)
Theorem best_candidate_minimal (cands : list Candidate) :
  cands <> [] ->
  best_candidate cands ∈ cands
  /\ forall c, c ∈ cands -> ~ lex_lt c (best_candidate cands).
Proof.
  intros Hne. unfold best_candidate.
  assert (Hlen : (0 < length cands)%nat)
    by (destruct cands; [done|simpl; lia]).
  destruct (best_loop_min cands (seq 1 (length cands - 1)) 0%nat [] Hlen)
    as [Hb Hmin].
  - apply Forall_forall. intros i Hi. apply elem_of_seq in Hi. lia.
  - intros j Hj. apply list_elem_of_singleton in Hj as ->.
    unfold lex_lt. lia.
  - split; [by apply list_elem_of_lookup_total_2|].
    intros c Hc. apply list_elem_of_lookup_1 in Hc as [j Hj].
    pose proof (lookup_lt_Some _ _ _ Hj) as Hjl.
    rewrite <- (list_lookup_total_correct _ _ _ Hj). apply Hmin.
    destruct j as [|j]; [left|right]. simpl. apply elem_of_seq. lia.
Qed.

(** X28.  The loop over the set bits of a mask: for a non-zero mask,
    [__builtin_ctz] gives the index of the lowest set bit, every bit
    below it is clear, and [m & (m - 1)] clears that bit and no other. *)
Theorem lowest_bit_iteration (m : Z) :
  0 < m ->
  0 <= builtin_ctz m
  /\ Z.testbit m (builtin_ctz m) = true
  /\ (forall j, 0 <= j < builtin_ctz m -> Z.testbit m j = false)
  /\ forall j, 0 <= j ->
       Z.testbit (Z.land m (m - 1)) j
       = Z.testbit m j && negb (j =? builtin_ctz m).
Proof.
  destruct m as [|p|p]; [lia| |lia]. intros _.
  induction p as [p IH|p IH|].
  - change (builtin_ctz (Z.pos p~1)) with 0.
    rewrite Pos2Z.inj_xI.
    replace (2 * Z.pos p + 1) with (1 + 2 * Z.pos p) by lia.
    rewrite land_pred_odd.
    replace (1 + 2 * Z.pos p) with (2 * Z.pos p + 1) by lia.
    split; [done|]. split; [apply Z.testbit_odd_0|]. split; [lia|].
    intros j Hj. destruct (Z.eqb_spec j 0) as [->|Hne].
    + by rewrite Z.testbit_even_0, Z.testbit_odd_0.
    + replace j with (Z.succ (j - 1)) by lia.
      rewrite Z.testbit_even_succ, Z.testbit_odd_succ by lia.
      by rewrite andb_true_r.
  - destruct IH as (Hc & Hset & Hlow & Hland).
    change (builtin_ctz (Z.pos p~0)) with (1 + builtin_ctz (Z.pos p)).
    rewrite Pos2Z.inj_xO. rewrite land_pred_double.
    split; [lia|]. split.
    { replace (1 + builtin_ctz (Z.pos p))
        with (Z.succ (builtin_ctz (Z.pos p))) by lia.
      by rewrite Z.testbit_even_succ. }
    split.
    { intros j Hj. destruct (Z.eq_dec j 0) as [->|Hne];
        [apply Z.testbit_even_0|].
      replace j with (Z.succ (j - 1)) by lia.
      rewrite Z.testbit_even_succ by lia. apply Hlow. lia. }
    intros j Hj. destruct (Z.eq_dec j 0) as [->|Hne].
    + by rewrite !Z.testbit_even_0.
    + replace j with (Z.succ (j - 1)) at 1 2 by lia.
      rewrite !Z.testbit_even_succ, Hland by lia. f_equal. f_equal.
      destruct (Z.eqb_spec (j - 1) (builtin_ctz (Z.pos p)));
        destruct (Z.eqb_spec j (1 + builtin_ctz (Z.pos p))); lia || done.
  - change (builtin_ctz 1) with 0. split; [done|]. split; [done|].
    split; [lia|]. intros j Hj. change (Z.land 1 (1 - 1)) with 0.
    rewrite Z.bits_0. destruct (Z.eqb_spec j 0) as [->|Hne]; [done|].
    replace j with (Z.succ (j - 1)) by lia.
    change 1 with (2 * 0 + 1). rewrite Z.testbit_odd_succ by lia.
    by rewrite Z.bits_0.
Qed.

(** ** The further properties at concrete containers *)

Lemma group_masks_witness :
  wf t20_17 /\ 0 <= 0 /\ 0 + GROUP_SIZE <= capacity_ t20_17
  /\ 0 <= 3 < GROUP_SIZE
  /\ Z.testbit (empty_mask_of t20_17 0) 3 = (meta_at t20_17 (0 + 3) =? EMPTY)
  /\ Z.testbit (match_mask_of t20_17 0 128) 3
     = (meta_at t20_17 (0 + 3) =? 128)
  /\ 0 <= empty_mask_of t20_17 0 < 2 ^ 16
  /\ 0 <= match_mask_of t20_17 0 128 < 2 ^ 16.
Proof.
  assert (Hwf : wf t20_17)
    by exact (inv_wf _ _ (reachable_inv hid _ reachable_t20_17)).
  assert (H1 : 0 <= 0) by lia.
  assert (H2 : 0 + GROUP_SIZE <= capacity_ t20_17) by (vm_compute; discriminate).
  assert (H3 : 0 <= 3 < GROUP_SIZE) by (unfold GROUP_SIZE; lia).
  split; [exact Hwf|]. split; [exact H1|]. split; [exact H2|].
  split; [exact H3|].
  exact (group_masks t20_17 0 128 3 Hwf H1 H2 H3).
Defined.


(** For the least positive double, a subnormal one, [1.0 / delta] overflows
    to infinity, and with it the logarithm and the product: the conversion
    to [size_t] is undefined.  So is the one of [delta * capacity] for a
    NaN. *)
Lemma constructor_undefined :
  decode 1 = FFin (pow2 (-1074))
  /\ fdiv (FFin 1) (decode 1) = FInf false
  /\ trunc_probe_bound 1 = None
  /\ construct (K:=Z) (V:=Z) 20 1 0 = Undefined
  /\ decode (encode FNaN) = FNaN
  /\ trunc_delta_capacity 20 (encode FNaN) = None
  /\ construct (K:=Z) (V:=Z) 20 (encode FNaN) 0 = Undefined.
Proof. vm_compute. by split_and!. Qed.

Lemma fresh_container_is_empty_witness :
  0 <= 20
  /\ new (K:=Z) (V:=Z) 20 (double_of_Q (1 # 10)) 0 = Some t20
  /\ find hid t20 5 = None /\ contains hid t20 5 = false
  /\ size t20 = 0 /\ empty_count t20 = 20.
Proof.
  assert (H0 : 0 <= 20) by lia.
  assert (Hnew : new (K:=Z) (V:=Z) 20 (double_of_Q (1 # 10)) 0 = Some t20)
    by (vm_compute; reflexivity).
  split; [exact H0|]. split; [exact Hnew|].
  exact (fresh_container_is_empty hid 20 (double_of_Q (1 # 10)) 0 t20 5 H0 Hnew).
Defined.

Lemma first_insert_succeeds_witness :
  0 <= 20
  /\ new (K:=Z) (V:=Z) 20 (double_of_Q (1 # 10)) 0 = Some t20
  /\ (insert hid t20 5 50).2 = true
  /\ size (insert hid t20 5 50).1 = 1
  /\ find hid (insert hid t20 5 50).1 5 = Some 50.
Proof.
  assert (H0 : 0 <= 20) by lia.
  assert (Hnew : new (K:=Z) (V:=Z) 20 (double_of_Q (1 # 10)) 0 = Some t20)
    by (vm_compute; reflexivity).
  split; [exact H0|]. split; [exact Hnew|].
  destruct (first_insert_succeeds hid 20 (double_of_Q (1 # 10)) 0 t20 5 50 H0 Hnew)
    as (Hb & Hs & _ & Hf & _).
  split; [exact Hb|]. split; [exact Hs|exact Hf].
Defined.

Lemma find_sound_complete_witness :
  reachable hid t20_17
  /\ (find hid t20_17 3 = Some 30 <-> exists s, holds t20_17 s 3 30)
  /\ (find hid t20_17 3 = None <-> absent t20_17 3).
Proof.
  split; [exact reachable_t20_17|].
  destruct (find_sound_complete hid t20_17 3 reachable_t20_17) as [Hs Hn].
  split; [exact (Hs 30)|exact Hn].
Defined.

Lemma insert_preserves_other_keys_witness :
  reachable hid t20_17 /\ 3 <> 17
  /\ find hid (insert hid t20_17 17 170).1 3 = find hid t20_17 3
  /\ contains hid (insert hid t20_17 17 170).1 3 = contains hid t20_17 3.
Proof.
  assert (Hne : 3 <> 17) by lia.
  split; [exact reachable_t20_17|]. split; [exact Hne|].
  exact (insert_preserves_other_keys hid t20_17 17 3 170
           reachable_t20_17 Hne).
Defined.

Lemma insert_existing_overwrites_witness :
  reachable hid t20_17 /\ size_ t20_17 < max_inserts_ t20_17
  /\ contains hid t20_17 3 = true
  /\ (insert hid t20_17 3 99).2 = true
  /\ find hid (insert hid t20_17 3 99).1 3 = Some 99
  /\ size_ (insert hid t20_17 3 99).1 = size_ t20_17.
Proof.
  assert (Hlt : size_ t20_17 < max_inserts_ t20_17)
    by (vm_compute; reflexivity).
  assert (Hc : contains hid t20_17 3 = true) by (vm_compute; reflexivity).
  split; [exact reachable_t20_17|]. split; [exact Hlt|]. split; [exact Hc|].
  destruct (insert_existing_overwrites hid t20_17 3 99
              reachable_t20_17 Hlt Hc) as (Hb & Hf & Hs & _).
  split; [exact Hb|]. split; [exact Hf|exact Hs].
Defined.

Lemma insert_new_key_grows_witness :
  reachable hid t20_17 /\ contains hid t20_17 17 = false
  /\ (insert hid t20_17 17 170).2 = true
  /\ size_ (insert hid t20_17 17 170).1 = size_ t20_17 + 1
  /\ empty_count (insert hid t20_17 17 170).1 = empty_count t20_17 - 1.
Proof.
  assert (Hc : contains hid t20_17 17 = false) by (vm_compute; reflexivity).
  assert (Hb : (insert hid t20_17 17 170).2 = true)
    by (vm_compute; reflexivity).
  split; [exact reachable_t20_17|]. split; [exact Hc|]. split; [exact Hb|].
  exact (insert_new_key_grows hid t20_17 17 170 reachable_t20_17 Hc Hb).
Defined.

Lemma size_counts_occupied_witness :
  reachable hid t20_17
  /\ size t20_17 = occupied_count t20_17
  /\ 0 <= size t20_17 <= max_inserts_ t20_17
  /\ max_inserts_ t20_17 <= capacity t20_17.
Proof.
  split; [exact reachable_t20_17|].
  exact (size_counts_occupied hid t20_17 reachable_t20_17).
Defined.

Lemma occupied_slot_is_stable_witness :
  reachable hid t20_17 /\ 0 <= 3 < capacity_ t20_17
  /\ empty_at t20_17 3 = false
  /\ meta_at (run hid t20_17 (inserts [17; 3])) 3 = meta_at t20_17 3
  /\ key (entry_at (run hid t20_17 (inserts [17; 3])) 3)
     = key (entry_at t20_17 3)
  /\ find_slot hid (run hid t20_17 (inserts [17; 3]))
               (key (entry_at t20_17 3)) = Some 3.
Proof.
  assert (Hs : 0 <= 3 < capacity_ t20_17)
    by (vm_compute; split; [discriminate|reflexivity]).
  assert (He : empty_at t20_17 3 = false) by (vm_compute; reflexivity).
  split; [exact reachable_t20_17|]. split; [exact Hs|]. split; [exact He|].
  exact (occupied_slot_is_stable hid t20_17 (inserts [17; 3]) 3
           reachable_t20_17 Hs He).
Defined.

Lemma metadata_is_fingerprint_witness :
  reachable hid t20_17 /\ 0 <= 3 < capacity_ t20_17
  /\ (meta_at t20_17 3 = EMPTY
      \/ (meta_at t20_17 3 = key_meta hid t20_17 (key (entry_at t20_17 3))
          /\ 128 <= meta_at t20_17 3 <= 255)).
Proof.
  assert (Hs : 0 <= 3 < capacity_ t20_17)
    by (vm_compute; split; [discriminate|reflexivity]).
  split; [exact reachable_t20_17|]. split; [exact Hs|].
  exact (metadata_is_fingerprint hid t20_17 3 reachable_t20_17 Hs).
Defined.

Lemma key_stored_once_witness :
  reachable hid t20_17 /\ holds t20_17 3 3 30
  /\ 3 = 3 /\ 30 = 30.
Proof.
  assert (Hh : holds t20_17 3 3 30).
  { unfold holds. split; [vm_compute; split; [discriminate|reflexivity]|].
    split; [vm_compute; reflexivity|].
    split; vm_compute; reflexivity. }
  split; [exact reachable_t20_17|]. split; [exact Hh|].
  exact (key_stored_once hid t20_17 3 3 3 30 30 reachable_t20_17 Hh Hh).
Defined.

Lemma index_behaviour_witness :
  reachable hid t20_17
  /\ ((index hid t20_17 17).2 = None
      <-> contains hid t20_17 17 = false
          /\ (insert hid t20_17 17 inhabitant).2 = false)
  /\ (contains hid t20_17 17 = true -> (index hid t20_17 17).1 = t20_17).
Proof.
  split; [exact reachable_t20_17|].
  destruct (index_behaviour hid t20_17 17 reachable_t20_17)
    as (Hp & _ & Hn & _).
  split; [exact Hn|exact Hp].
Defined.

Lemma contains_iff_stored_witness :
  reachable hid t20_17
  /\ (contains hid t20_17 3 = true <-> exists s v, holds t20_17 s 3 v)
  /\ (contains hid t20_17 3 = true ->
      contains hid (run hid t20_17 (inserts [17])) 3 = true).
Proof.
  split; [exact reachable_t20_17|].
  exact (contains_iff_stored hid t20_17 3 (inserts [17]) reachable_t20_17).
Defined.

Lemma insert_places_at_first_empty_witness :
  reachable hid t20_17 /\ contains hid t20_17 17 = false
  /\ (insert hid t20_17 17 170).2 = true
  /\ exists g i,
       0 <= g < max_groups t20_17 /\ 0 <= i < GROUP_SIZE
       /\ empty_at t20_17 (probe_slot hid t20_17 17 g i) = true
       /\ (forall g' i', 0 <= g' -> 0 <= i' < GROUP_SIZE ->
             probes_before g' i' g i ->
             empty_at t20_17 (probe_slot hid t20_17 17 g' i') = false)
       /\ holds (insert hid t20_17 17 170).1
                (probe_slot hid t20_17 17 g i) 17 170
       /\ max_group_used_ (insert hid t20_17 17 170).1
          = Z.max (max_group_used_ t20_17) g.
Proof.
  assert (Hc : contains hid t20_17 17 = false) by (vm_compute; reflexivity).
  assert (Hb : (insert hid t20_17 17 170).2 = true)
    by (vm_compute; reflexivity).
  split; [exact reachable_t20_17|]. split; [exact Hc|]. split; [exact Hb|].
  exact (insert_places_at_first_empty hid t20_17 17 170
           reachable_t20_17 Hc Hb).
Defined.

Lemma insert_with_room_in_first_group_witness :
  reachable hid t20_17 /\ size_ t20_17 < max_inserts_ t20_17
  /\ 0 <= 0 < GROUP_SIZE
  /\ empty_at t20_17 (probe_slot hid t20_17 17 0 0) = true
  /\ (insert hid t20_17 17 170).2 = true
  /\ max_group_used_ (insert hid t20_17 17 170).1 = max_group_used_ t20_17.
Proof.
  assert (Hlt : size_ t20_17 < max_inserts_ t20_17)
    by (vm_compute; reflexivity).
  assert (Hi : 0 <= 0 < GROUP_SIZE) by (unfold GROUP_SIZE; lia).
  assert (He : empty_at t20_17 (probe_slot hid t20_17 17 0 0) = true)
    by (vm_compute; reflexivity).
  split; [exact reachable_t20_17|]. split; [exact Hlt|]. split; [exact Hi|].
  split; [exact He|].
  exact (insert_with_room_in_first_group hid t20_17 17 170 0
           reachable_t20_17 Hlt Hi He).
Defined.

Lemma large_delta_single_group_witness :
  log2_brackets (std_log2 (MathLib:=examples_log2))
  /\ 0 <= 20
  /\ new (K:=Z) (V:=Z) 20 (double_of_Q (1 # 10)) 0 = Some t20
  /\ (1 # 16 <= B2Q (double_of_Q (1 # 10)))%Q
  /\ max_probe_limit t20_17 = Z.min 20 16
  /\ max_groups t20_17 = 1
  /\ max_group_used t20_17 = 0
  /\ max_probe_used t20_17 = 15.
Proof.
  assert (H0 : 0 <= 20) by lia.
  assert (Hnew : new (K:=Z) (V:=Z) 20 (double_of_Q (1 # 10)) 0 = Some t20)
    by (vm_compute; reflexivity).
  assert (Hd : (1 # 16 <= B2Q (double_of_Q (1 # 10)))%Q)
    by (vm_compute; discriminate).
  split; [exact examples_log2_brackets|].
  split; [exact H0|]. split; [exact Hnew|]. split; [exact Hd|].
  exact (large_delta_single_group hid 20 (double_of_Q (1 # 10)) 0 t20
           (inserts (seqZ 0 17)) examples_log2_brackets H0 Hnew Hd).
Defined.

Lemma small_table_insert_succeeds_witness :
  reachable hid (make 4 (1 # 2))
  /\ capacity_ (make 4 (1 # 2)) <= GROUP_SIZE
  /\ size_ (make 4 (1 # 2)) < max_inserts_ (make 4 (1 # 2))
  /\ (insert hid (make 4 (1 # 2)) 1 10).2 = true.
Proof.
  assert (Hr : reachable hid (make 4 (1 # 2)))
    by (apply reachable_make; [lia|vm_compute; reflexivity]).
  assert (Hc : capacity_ (make 4 (1 # 2)) <= GROUP_SIZE)
    by (vm_compute; discriminate).
  assert (Hlt : size_ (make 4 (1 # 2)) < max_inserts_ (make 4 (1 # 2)))
    by (vm_compute; reflexivity).
  split; [exact Hr|]. split; [exact Hc|]. split; [exact Hlt|].
  exact (small_table_insert_succeeds hid (make 4 (1 # 2)) 1 10 Hr Hc Hlt).
Defined.

Lemma load_factor_bounds_witness :
  reachable hid t20_17
  /\ (0 <= load_factor t20_17)%Q /\ (load_factor t20_17 <= 1)%Q.
Proof.
  split; [exact reachable_t20_17|].
  exact (load_factor_bounds hid t20_17 reachable_t20_17).
Defined.

Lemma max_probe_used_covers_witness :
  reachable hid t100
  /\ GROUP_SIZE - 1 <= max_probe_used t100
     <= GROUP_SIZE * max_groups t100 - 1.
Proof.
  split; [exact reachable_t100|].
  exact (proj1 (max_probe_used_covers hid t100 reachable_t100)).
Defined.

Lemma group_slots_wrap_witness :
  GROUP_SIZE <= capacity_ t20_17 /\ 0 <= 10 < capacity_ t20_17
  /\ 0 <= 12 < GROUP_SIZE /\ 0 <= 3 < GROUP_SIZE
  /\ slot_in_group t20_17 10 12
     = (if 10 + 12 <? capacity_ t20_17 then 10 + 12
        else 10 + 12 - capacity_ t20_17)
  /\ (slot_in_group t20_17 10 12 = slot_in_group t20_17 10 3 -> 12 = 3).
Proof.
  assert (Hc : GROUP_SIZE <= capacity_ t20_17) by (vm_compute; discriminate).
  assert (Hb : 0 <= 10 < capacity_ t20_17)
    by (vm_compute; split; [discriminate|reflexivity]).
  assert (Hi : 0 <= 12 < GROUP_SIZE) by (unfold GROUP_SIZE; lia).
  assert (Hj : 0 <= 3 < GROUP_SIZE) by (unfold GROUP_SIZE; lia).
  split; [exact Hc|]. split; [exact Hb|]. split; [exact Hi|].
  split; [exact Hj|].
  exact (group_slots_wrap t20_17 10 12 3 Hc Hb Hi Hj).
Defined.

Lemma best_candidate_minimal_witness :
  [mkCandidate 2 3 40; mkCandidate 1 5 21; mkCandidate 1 2 18] <> []
  /\ best_candidate
       [mkCandidate 2 3 40; mkCandidate 1 5 21; mkCandidate 1 2 18]
     ∈ [mkCandidate 2 3 40; mkCandidate 1 5 21; mkCandidate 1 2 18]
  /\ forall c,
       c ∈ [mkCandidate 2 3 40; mkCandidate 1 5 21; mkCandidate 1 2 18] ->
       ~ lex_lt c
           (best_candidate
              [mkCandidate 2 3 40; mkCandidate 1 5 21; mkCandidate 1 2 18]).
Proof.
  assert (Hne : [mkCandidate 2 3 40; mkCandidate 1 5 21; mkCandidate 1 2 18]
                <> []) by discriminate.
  split; [exact Hne|].
  exact (best_candidate_minimal
           [mkCandidate 2 3 40; mkCandidate 1 5 21; mkCandidate 1 2 18] Hne).
Defined.

Lemma max_groups_closed_form_witness :
  reachable hid t100
  /\ max_probe_limit_ t100 <= capacity_ t100
  /\ max_groups t100 = cdiv (max_probe_limit_ t100) GROUP_SIZE
  /\ GROUP_SIZE * (max_groups t100 - 1) < max_probe_limit_ t100.
Proof.
  split; [exact reachable_t100|].
  exact (max_groups_closed_form hid t100 reachable_t100).
Defined.

Lemma insert_idempotent_witness :
  reachable hid t20_17
  /\ (insert hid (insert hid t20_17 17 170).1 17 170).1
     = (insert hid t20_17 17 170).1.
Proof.
  split; [exact reachable_t20_17|].
  exact (insert_idempotent hid t20_17 17 170 reachable_t20_17).
Defined.

Lemma lowest_bit_iteration_witness :
  0 < 12
  /\ 0 <= builtin_ctz 12
  /\ Z.testbit 12 (builtin_ctz 12) = true
  /\ (forall j, 0 <= j < builtin_ctz 12 -> Z.testbit 12 j = false)
  /\ forall j, 0 <= j ->
       Z.testbit (Z.land 12 (12 - 1)) j
       = Z.testbit 12 j && negb (j =? builtin_ctz 12).
Proof.
  assert (H : 0 < 12) by lia.
  split; [exact H|]. exact (lowest_bit_iteration 12 H).
Defined.
